(** * MGK.js: the physics and collision core of MiniGameKit

    A shallow embedding of the tick-phase code of the engine: the
    [RigidBody.update] integrator, [Game.handleBoundary],
    [CollisionSystem.update] and the driver [Game.update].

    Numbers.  JavaScript numbers are modelled in exact real arithmetic
    ([R]); rounding is outside the model.  The only places where the source
    can leave the finite numbers are divisions: [dx / dist || 0] is modelled
    by [div_or_zero] with its zero test written out, and every other
    division of the resolver has a mass in its denominator, so the
    statements that go through them assume positive masses (the invariant
    the [RigidBody] constructor establishes).

    Objects.  A [GameObject] is its ordered list of components, looked up by
    type with [getComponent] as in the source (first match).  Component
    objects are owned by one entity and an entity occurs once in the
    driver's list, so in-place mutation is rendered by writing the updated
    component back at the place where it was found. *)

From Stdlib Require Import Reals Lra Lia List Bool Arith.
Import ListNotations.

Open Scope R_scope.

(** ** Data model *)

Module Vector2.
Record t : Type := mk { x : R; y : R }.
End Vector2.

Abbreviation vec2 := Vector2.mk.

(** [class Transform]: position, rotation, angle, scale. *)
Record Transform : Type := mkTransform {
  position : Vector2.t;
  rotation : R;
  angle : R;
  scale : R
}.

(** [class RigidBody] as the newer engine revision has it (with [mass]). *)
Record RigidBody : Type := mkRigidBody {
  velocity : Vector2.t;
  angularVelocity : R;
  gravity : R;
  friction : R;
  restitution : R;
  mass : R;
  buoyancy : R
}.

(** [class Collider]: a radius. *)
Record Collider : Type := mkCollider { radius : R }.

(** The components an entity can hold.  [COther] stands for a component
    that inherits the empty [Component.update] and that no
    [getComponent(Transform | RigidBody | Collider)] returns: a [Circle], a
    user component without an [update] of its own.  A [SpriteRenderer],
    whose [update] runs a loop, is not among them: entities that carry one
    are the subject of [WithSprites] below. *)
Inductive Component : Type :=
| CTransform (t : Transform)
| CRigidBody (rb : RigidBody)
| CCollider (c : Collider)
| COther.

(** Driver-level extensions.  [BasePlugin] is [class Plugin], whose hooks
    are empty. *)
Inductive Plugin : Type :=
| BasePlugin
| CollisionSystem.

Record GameObject : Type := mkGameObject {
  components : list Component;
  go_plugins : list Plugin
}.

Record Canvas : Type := mkCanvas { width : R; height : R }.

Record Game : Type := mkGame {
  canvas : Canvas;
  objects : list GameObject;
  plugins : list Plugin;
  boundaryEnabled : bool
}.

(** ** Constructors *)

(** [new Transform({x, y, rotation, angle, scale})]. *)
Definition new_Transform (px py rot ang sc : R) : Transform :=
  mkTransform (vec2 px py) rot ang sc.

(** [new RigidBody({...})]: [this.mass = mass <= 0 ? 1 : mass]. *)
Definition new_RigidBody (vel : Vector2.t) (av g fr re m bu : R) : RigidBody :=
  mkRigidBody vel av g fr re (if Rle_dec m 0 then 1 else m) bu.

(** The defaults of the constructor's destructuring pattern. *)
Definition default_RigidBody : RigidBody :=
  new_RigidBody (vec2 0 0) 0 980 (5 / 100) (7 / 10) 1 0.

(** ** Component lookup: [getComponent(type)] is [components.find(instanceof)] *)

Fixpoint findTransform (cs : list Component) : option Transform :=
  match cs with
  | [] => None
  | CTransform t :: _ => Some t
  | _ :: cs' => findTransform cs'
  end.

Fixpoint findRigidBody (cs : list Component) : option RigidBody :=
  match cs with
  | [] => None
  | CRigidBody rb :: _ => Some rb
  | _ :: cs' => findRigidBody cs'
  end.

Fixpoint findCollider (cs : list Component) : option Collider :=
  match cs with
  | [] => None
  | CCollider c :: _ => Some c
  | _ :: cs' => findCollider cs'
  end.

Definition getTransform (go : GameObject) : option Transform :=
  findTransform (components go).
Definition getRigidBody (go : GameObject) : option RigidBody :=
  findRigidBody (components go).
Definition getCollider (go : GameObject) : option Collider :=
  findCollider (components go).

(** Writing through the reference that [getComponent] returned: the first
    component of the type is replaced. *)
Fixpoint storeTransform (t' : Transform) (cs : list Component) : list Component :=
  match cs with
  | [] => []
  | CTransform _ :: cs' => CTransform t' :: cs'
  | c :: cs' => c :: storeTransform t' cs'
  end.

Fixpoint storeRigidBody (rb' : RigidBody) (cs : list Component) : list Component :=
  match cs with
  | [] => []
  | CRigidBody _ :: cs' => CRigidBody rb' :: cs'
  | c :: cs' => c :: storeRigidBody rb' cs'
  end.

Definition setTransform (t' : Transform) (go : GameObject) : GameObject :=
  mkGameObject (storeTransform t' (components go)) (go_plugins go).
Definition setRigidBody (rb' : RigidBody) (go : GameObject) : GameObject :=
  mkGameObject (storeRigidBody rb' (components go)) (go_plugins go).

(** Writing at an index of an array whose length does not change. *)
Fixpoint set_nth {A : Type} (k : nat) (v : A) (l : list A) : list A :=
  match l, k with
  | [], _ => []
  | _ :: l', O => v :: l'
  | a :: l', S k' => a :: set_nth k' v l'
  end.

(** Field updates. *)
Definition with_position (p : Vector2.t) (t : Transform) : Transform :=
  mkTransform p (rotation t) (angle t) (scale t).
Definition with_angle (a : R) (t : Transform) : Transform :=
  mkTransform (position t) (rotation t) a (scale t).
Definition with_velocity (v : Vector2.t) (rb : RigidBody) : RigidBody :=
  mkRigidBody v (angularVelocity rb) (gravity rb) (friction rb)
    (restitution rb) (mass rb) (buoyancy rb).

(** ** The effect monad of a tick

    A tick either runs to completion or stops at a thrown [TypeError]
    (reading a property of [undefined]).  The log records, in program
    order, the accesses whose order within a tick matters. *)

Inductive Event : Type :=
| EInspect (i : nat)      (* the resolver read the position of entity i's Transform *)
| EIntegrate (i : nat)    (* RigidBody.update integrated entity i *)
| EBoundary (i : nat).    (* handleBoundary was called on entity i *)

Inductive Outcome (A : Type) : Type :=
| Returns (a : A)
| Throws.
Arguments Returns {A} a.
Arguments Throws {A}.

Definition M (A : Type) : Type := (list Event * Outcome A)%type.

Definition ret {A : Type} (a : A) : M A := ([], Returns a).
Definition throw {A : Type} : M A := ([], Throws).
Definition tell (es : list Event) : M unit := (es, Returns tt).

Definition bind {A B : Type} (m : M A) (f : A -> M B) : M B :=
  match m with
  | (l1, Returns a) => let (l2, r) := f a in (l1 ++ l2, r)
  | (l1, Throws) => (l1, Throws)
  end.

Notation "x <- m ;; k" := (bind m (fun x => k))
  (at level 61, m at next level, right associativity).
Notation "m ;;; k" := (bind m (fun _ => k))
  (at level 61, right associativity).

Definition log_of {A : Type} (m : M A) : list Event := fst m.
Definition outcome_of {A : Type} (m : M A) : Outcome A := snd m.

(** [for (const v of l) s = body(v, s)] with an early exit on a throw. *)
Fixpoint foldM {A S : Type} (body : A -> S -> M S) (l : list A) (s : S) : M S :=
  match l with
  | [] => ret s
  | v :: l' => s' <- body v s ;; foldM body l' s'
  end.

(** [for (let k = lo; k < hi; k++) s = body(k, s)]. *)
Definition for_range {S : Type} (lo hi : nat) (body : nat -> S -> M S) (s : S) : M S :=
  foldM body (seq lo (hi - lo)) s.

(** ** RigidBody.update *)

(** The body of [RigidBody.update] past its guard: [this] and the entity's
    Transform [t], both mutated in place. *)
Definition integrate (this : RigidBody) (t : Transform) (dt : R)
  : RigidBody * Transform :=
  let vx := Vector2.x (velocity this) in
  let vy := Vector2.y (velocity this) in
  let vy := vy + (gravity this - buoyancy this) * dt in
  let vx := vx * (1 - friction this) in
  let vy := vy * (1 - friction this) in
  let px := Vector2.x (position t) + vx * dt in
  let py := Vector2.y (position t) + vy * dt in
  let ang := angle t + angularVelocity this * dt in
  (with_velocity (vec2 vx vy) this,
   with_angle ang (with_position (vec2 px py) t)).

(** [RigidBody.update(go, dt)], where [this] is the component at index [k]
    of [go.components]:
    [const t = go.getComponent(Transform); if (!t) return; ...]. *)
Definition RigidBody_update (k : nat) (this : RigidBody) (go : GameObject) (dt : R)
  : GameObject :=
  match getTransform go with
  | None => go
  | Some t =>
      let (this', t') := integrate this t dt in
      mkGameObject
        (set_nth k (CRigidBody this') (storeTransform t' (components go)))
        (go_plugins go)
  end.

(** [GameObject.update(dt)] for the entity at index [i] of the driver's
    list: every component's [update], then every entity plugin's.  Of the
    components of [Component], [RigidBody] alone has an [update] of its
    own; the others run the empty [Component.update].  ([SpriteRenderer]
    overrides it too: see [WithSprites.update] for entities with sprites.)
    A [CollisionSystem] attached to an entity receives the entity as its
    [scene]; [scene.objects] is then [undefined] and [objs.length] throws. *)
Definition Component_update (i k : nat) (c : Component) (go : GameObject) (dt : R)
  : M GameObject :=
  match c with
  | CRigidBody this => tell [EIntegrate i] ;;; ret (RigidBody_update k this go dt)
  | _ => ret go
  end.

Definition GameObject_update (i : nat) (go : GameObject) (dt : R) : M GameObject :=
  go <- for_range 0 (length (components go))
          (fun k go =>
             match nth_error (components go) k with
             | Some c => Component_update i k c go dt
             | None => ret go
             end) go ;;
  foldM (fun p go =>
           match p with
           | BasePlugin => ret go
           | CollisionSystem => throw
           end) (go_plugins go) go.

(** ** Game.handleBoundary *)

(** One axis of [handleBoundary]: the [if / else if] on position [p],
    velocity [v], collider radius [r] and canvas extent [hi]. *)
Definition boundary_axis (p v r hi : R) : R * R :=
  if Rlt_dec (p - r) 0 then (r, Rabs v)
  else if Rgt_dec (p + r) hi then (hi - r, - Rabs v)
  else (p, v).

Definition handleBoundary (cv : Canvas) (obj : GameObject) : GameObject :=
  match getTransform obj, getRigidBody obj, getCollider obj with
  | Some t, Some rb, Some col =>
      let r := radius col in
      let (px, vx) :=
        boundary_axis (Vector2.x (position t)) (Vector2.x (velocity rb)) r (width cv) in
      let (py, vy) :=
        boundary_axis (Vector2.y (position t)) (Vector2.y (velocity rb)) r (height cv) in
      setRigidBody (with_velocity (vec2 vx vy) rb)
        (setTransform (with_position (vec2 px py) t) obj)
  | _, _, _ => obj
  end.

(** ** CollisionSystem.update *)

(** [Math.hypot(dx, dy)]. *)
Definition hypot (dx dy : R) : R := sqrt (dx * dx + dy * dy).

(** [d / dist || 0]: the quotient, or 0 when it is falsy.  With [dist = 0]
    the numerator is 0 as well (see [hypot_zero]), the quotient is NaN and
    the result 0; a quotient that is 0 stays 0. *)
Definition div_or_zero (d dist : R) : R :=
  if Req_dec_T dist 0 then 0 else d / dist.

(** Dereferencing [xTransform.position]: a TypeError when the entity has no
    Transform. *)
Definition read_transform (i : nat) (go : GameObject) : M Transform :=
  match getTransform go with
  | None => throw
  | Some t => tell [EInspect i] ;;; ret t
  end.

(** The body of the inner loop for the entities [a = objs[i]] and
    [b = objs[j]], [a] carrying the collider [aCollider]. *)
Definition collide (i j : nat) (aCollider : Collider) (a b : GameObject)
  : M (GameObject * GameObject) :=
  match getCollider b with
  | None => ret (a, b)
  | Some bCollider =>
      bTransform <- read_transform j b ;;
      aTransform <- read_transform i a ;;
      let ax := Vector2.x (position aTransform) in
      let ay := Vector2.y (position aTransform) in
      let bx := Vector2.x (position bTransform) in
      let by_ := Vector2.y (position bTransform) in
      let dx := bx - ax in
      let dy := by_ - ay in
      let dist := hypot dx dy in
      let minDist := radius aCollider + radius bCollider in
      if Rlt_dec dist minDist then
        let overlap := minDist - dist in
        let nx := div_or_zero dx dist in
        let ny := div_or_zero dy dist in
        match getRigidBody a, getRigidBody b with
        | Some aRigid, Some bRigid =>
            let totalMass := mass aRigid + mass bRigid in
            let correctionA := overlap * (mass bRigid / totalMass) in
            let correctionB := overlap * (mass aRigid / totalMass) in
            let a := setTransform
                       (with_position
                          (vec2 (ax - nx * correctionA) (ay - ny * correctionA))
                          aTransform) a in
            let b := setTransform
                       (with_position
                          (vec2 (bx + nx * correctionB) (by_ + ny * correctionB))
                          bTransform) b in
            let avx := Vector2.x (velocity aRigid) in
            let avy := Vector2.y (velocity aRigid) in
            let bvx := Vector2.x (velocity bRigid) in
            let bvy := Vector2.y (velocity bRigid) in
            let relVelX := bvx - avx in
            let relVelY := bvy - avy in
            let velAlongNormal := relVelX * nx + relVelY * ny in
            if Rgt_dec velAlongNormal 0 then ret (a, b)
            else
              let e := Rmin (restitution aRigid) (restitution bRigid) in
              let j := - (1 + e) * velAlongNormal
                       / (1 / mass aRigid + 1 / mass bRigid) in
              let impulseX := j * nx in
              let impulseY := j * ny in
              let a := setRigidBody
                         (with_velocity
                            (vec2 (avx - impulseX / mass aRigid)
                                  (avy - impulseY / mass aRigid)) aRigid) a in
              let b := setRigidBody
                         (with_velocity
                            (vec2 (bvx + impulseX / mass bRigid)
                                  (bvy + impulseY / mass bRigid)) bRigid) b in
              ret (a, b)
        | _, _ => ret (a, b)
        end
      else ret (a, b)
  end.

(** [CollisionSystem.update(scene, dt)] on [scene.objects]: ascending index
    pairs [i < j]; an entity without a Collider is skipped on either side. *)
Definition CollisionSystem_update (objs : list GameObject) (dt : R)
  : M (list GameObject) :=
  for_range 0 (length objs)
    (fun i objs =>
       match nth_error objs i with
       | None => ret objs
       | Some a =>
           match getCollider a with
           | None => ret objs
           | Some aCollider =>
               for_range (S i) (length objs)
                 (fun j objs =>
                    match nth_error objs i, nth_error objs j with
                    | Some a, Some b =>
                        ab <- collide i j aCollider a b ;;
                        ret (set_nth j (snd ab) (set_nth i (fst ab) objs))
                    | _, _ => ret objs
                    end) objs
           end
       end) objs.

(** ** Game.update *)

Definition Plugin_update (p : Plugin) (objs : list GameObject) (dt : R)
  : M (list GameObject) :=
  match p with
  | BasePlugin => ret objs
  | CollisionSystem => CollisionSystem_update objs dt
  end.

(** [Game.update(dt)]: the driver's plugins first, then
    [objects.forEach(obj => { obj.update(dt); if (boundaryEnabled)
    handleBoundary(obj) })]. *)
Definition Game_update (g : Game) (dt : R) : M Game :=
  objs <- foldM (fun p objs => Plugin_update p objs dt) (plugins g) (objects g) ;;
  objs <- for_range 0 (length objs)
            (fun i objs =>
               match nth_error objs i with
               | None => ret objs
               | Some obj =>
                   obj <- GameObject_update i obj dt ;;
                   obj <- (if boundaryEnabled g
                           then tell [EBoundary i] ;;;
                                ret (handleBoundary (canvas g) obj)
                           else ret obj) ;;
                   ret (set_nth i obj objs)
               end) objs ;;
  ret (mkGame (canvas g) objs (plugins g) (boundaryEnabled g)).

(** ** The older engine revision (MiniGameKit.js) *)

Module Legacy.

(** [class RigidBody] of the older revision: no [mass]. *)
Record RigidBody : Type := mkRigidBody {
  velocity : Vector2.t;
  angularVelocity : R;
  gravity : R;
  friction : R;
  restitution : R;
  buoyancy : R
}.

(** The body of the older [RigidBody.update] past its guard: gravity,
    integration, then damping of both velocities and of the angular
    velocity. *)
Definition integrate (this : RigidBody) (t : Transform) (dt : R)
  : RigidBody * Transform :=
  let vx := Vector2.x (velocity this) in
  let vy := Vector2.y (velocity this) in
  let vy := vy + (gravity this - buoyancy this) * dt in
  let px := Vector2.x (position t) + vx * dt in
  let py := Vector2.y (position t) + vy * dt in
  let ang := angle t + angularVelocity this * dt in
  let vx := vx * (1 - friction this) in
  let vy := vy * (1 - friction this) in
  let av := angularVelocity this * (1 - friction this) in
  (mkRigidBody (vec2 vx vy) av (gravity this) (friction this)
     (restitution this) (buoyancy this),
   with_angle ang (with_position (vec2 px py) t)).

End Legacy.

(** ** The quantities of a contact *)

(** The [const]s of the inner loop body, as functions of the components
    they are computed from. *)
Module Contact.
Section Contact.

Variables (aCollider bCollider : Collider).
Variables (aTransform bTransform : Transform).
Variables (aRigid bRigid : RigidBody).

Definition dx : R := Vector2.x (position bTransform) - Vector2.x (position aTransform).
Definition dy : R := Vector2.y (position bTransform) - Vector2.y (position aTransform).
Definition dist : R := hypot dx dy.
Definition minDist : R := radius aCollider + radius bCollider.
Definition overlap : R := minDist - dist.
Definition nx : R := div_or_zero dx dist.
Definition ny : R := div_or_zero dy dist.
Definition totalMass : R := mass aRigid + mass bRigid.
Definition correctionA : R := overlap * (mass bRigid / totalMass).
Definition correctionB : R := overlap * (mass aRigid / totalMass).
Definition relVelX : R := Vector2.x (velocity bRigid) - Vector2.x (velocity aRigid).
Definition relVelY : R := Vector2.y (velocity bRigid) - Vector2.y (velocity aRigid).
Definition velAlongNormal : R := relVelX * nx + relVelY * ny.
Definition e : R := Rmin (restitution aRigid) (restitution bRigid).
Definition j : R :=
  - (1 + e) * velAlongNormal / (1 / mass aRigid + 1 / mass bRigid).

(** The Transforms after the positional correction. *)
Definition aCorrected : Transform :=
  with_position
    (vec2 (Vector2.x (position aTransform) - nx * correctionA)
          (Vector2.y (position aTransform) - ny * correctionA)) aTransform.
Definition bCorrected : Transform :=
  with_position
    (vec2 (Vector2.x (position bTransform) + nx * correctionB)
          (Vector2.y (position bTransform) + ny * correctionB)) bTransform.

(** The RigidBodies after the impulse. *)
Definition aBounced : RigidBody :=
  with_velocity
    (vec2 (Vector2.x (velocity aRigid) - j * nx / mass aRigid)
          (Vector2.y (velocity aRigid) - j * ny / mass aRigid)) aRigid.
Definition bBounced : RigidBody :=
  with_velocity
    (vec2 (Vector2.x (velocity bRigid) + j * nx / mass bRigid)
          (Vector2.y (velocity bRigid) + j * ny / mass bRigid)) bRigid.

End Contact.
End Contact.

(** ** Postconditions *)

(** The postcondition of one axis of boundary handling, from position [p]
    and velocity [v] to [p'] and [v']. *)
Definition axis_clamped (p v r hi p' v' : R) : Prop :=
  (p - r < 0 -> p' = r /\ v' = Rabs v /\ 0 <= v')
  /\ (~ p - r < 0 -> p + r > hi -> p' = hi - r /\ v' = - Rabs v /\ v' <= 0)
  /\ (~ p - r < 0 -> ~ p + r > hi -> p' = p /\ v' = v).

(** The postcondition of the positional correction of a pair, in the
    specification's terms: [n = delta / dist], A moved back by
    [overlap * massB / (massA + massB)], B moved forward by
    [overlap * massA / (massA + massB)]. *)
Definition separated_along_normal (aCollider bCollider : Collider)
           (aTransform bTransform : Transform) (aRigid bRigid : RigidBody)
           (aTransform' bTransform' : Transform) : Prop :=
  let dist := Contact.dist aTransform bTransform in
  let nx := Contact.dx aTransform bTransform / dist in
  let ny := Contact.dy aTransform bTransform / dist in
  let overlap := radius aCollider + radius bCollider - dist in
  let shiftA := overlap * mass bRigid / (mass aRigid + mass bRigid) in
  let shiftB := overlap * mass aRigid / (mass aRigid + mass bRigid) in
  let ax := Vector2.x (position aTransform) in
  let ay := Vector2.y (position aTransform) in
  let bx := Vector2.x (position bTransform) in
  let by_ := Vector2.y (position bTransform) in
  let ax' := Vector2.x (position aTransform') in
  let ay' := Vector2.y (position aTransform') in
  let bx' := Vector2.x (position bTransform') in
  let by' := Vector2.y (position bTransform') in
  nx * nx + ny * ny = 1
  /\ ax' = ax - nx * shiftA /\ ay' = ay - ny * shiftA
  /\ bx' = bx + nx * shiftB /\ by' = by_ + ny * shiftB
  /\ shiftA + shiftB = overlap
  /\ ((bx' - ax') - (bx - ax)) * nx + ((by' - ay') - (by_ - ay)) * ny = overlap
  /\ (mass bRigid < mass aRigid -> shiftA < shiftB)
  /\ (mass aRigid < mass bRigid -> shiftB < shiftA).

(** The postcondition of the impulse step of a pair, in the specification's
    terms, none of them taken from the resolver's own normal.  For distinct
    centres, with the unit vector [n = delta / |delta|]: [velAlongNormal],
    [e] and [j] as §4.3 gives them, the resolver's [velAlongNormal] being
    that one, the four velocity updates, and the relative velocity along [n]
    afterwards.  For coincident centres the normal is [(0, 0)] and the
    velocities are left as they were. *)
Definition bounced_along_normal (aTransform bTransform : Transform)
           (aRigid bRigid aRigid' bRigid' : RigidBody) : Prop :=
  let dx := Vector2.x (position bTransform) - Vector2.x (position aTransform) in
  let dy := Vector2.y (position bTransform) - Vector2.y (position aTransform) in
  let dist := sqrt (dx * dx + dy * dy) in
  let avx := Vector2.x (velocity aRigid) in
  let avy := Vector2.y (velocity aRigid) in
  let bvx := Vector2.x (velocity bRigid) in
  let bvy := Vector2.y (velocity bRigid) in
  let e := Rmin (restitution aRigid) (restitution bRigid) in
  (0 < dist ->
   let nx := dx / dist in
   let ny := dy / dist in
   let velAlongNormal := (bvx - avx) * nx + (bvy - avy) * ny in
   let j := - (1 + e) * velAlongNormal / (1 / mass aRigid + 1 / mass bRigid) in
   nx * nx + ny * ny = 1
   /\ Contact.velAlongNormal aTransform bTransform aRigid bRigid = velAlongNormal
   /\ Vector2.x (velocity aRigid') = avx - j * nx / mass aRigid
   /\ Vector2.y (velocity aRigid') = avy - j * ny / mass aRigid
   /\ Vector2.x (velocity bRigid') = bvx + j * nx / mass bRigid
   /\ Vector2.y (velocity bRigid') = bvy + j * ny / mass bRigid
   /\ (Vector2.x (velocity bRigid') - Vector2.x (velocity aRigid')) * nx
      + (Vector2.y (velocity bRigid') - Vector2.y (velocity aRigid')) * ny
      = - e * velAlongNormal)
  /\ (dist = 0 ->
      Vector2.x (velocity aRigid') = avx /\ Vector2.y (velocity aRigid') = avy
      /\ Vector2.x (velocity bRigid') = bvx /\ Vector2.y (velocity bRigid') = bvy).

(** An entity that can take part in a pass without a throw: its Collider,
    if any, comes with a Transform. *)
Definition placed (go : GameObject) : Prop :=
  getCollider go <> None -> getTransform go <> None.

(** The two kinds of log entries: reads by the resolver, and the motion
    phase (integration and boundary handling). *)
Definition is_inspect (e : Event) : Prop :=
  match e with EInspect _ => True | _ => False end.

Definition is_motion (e : Event) : Prop :=
  match e with EInspect _ => False | _ => True end.

(** ** Example scenes *)

(** A body at rest under gravity 980, without friction. *)
Definition falling_body : RigidBody := new_RigidBody (vec2 0 0) 0 980 0 (7 / 10) 1 0.
Definition falling_entity : GameObject :=
  mkGameObject [CTransform (new_Transform 0 0 0 0 1); CRigidBody falling_body] [].

(** A collider wider than the canvas: both edges of the x axis are crossed. *)
Definition narrow_canvas : Canvas := mkCanvas 10 100.
Definition wide_entity : GameObject :=
  mkGameObject [CTransform (new_Transform 5 50 0 0 1);
                CRigidBody (new_RigidBody (vec2 3 0) 0 0 0 (7 / 10) 1 0);
                CCollider (mkCollider 10)] [].

(** Two balls of radius 10 and mass 1, overlapping by 4 along the x axis and
    approaching each other. *)
Definition ball_a_transform : Transform := new_Transform 0 0 0 0 1.
Definition ball_b_transform : Transform := new_Transform 16 0 0 0 1.
Definition ball_a_rigid : RigidBody := new_RigidBody (vec2 5 0) 0 0 0 (7 / 10) 1 0.
Definition ball_b_rigid : RigidBody := new_RigidBody (vec2 (-5) 0) 0 0 0 (7 / 10) 1 0.
Definition ball_collider : Collider := mkCollider 10.
Definition ball_a : GameObject :=
  mkGameObject [CTransform ball_a_transform; CRigidBody ball_a_rigid;
                CCollider ball_collider] [].
Definition ball_b : GameObject :=
  mkGameObject [CTransform ball_b_transform; CRigidBody ball_b_rigid;
                CCollider ball_collider] [].

(** A Collider-only entity at the place of [ball_a], and a second ball
    exactly on [ball_a]. *)
Definition ghost : GameObject :=
  mkGameObject [CTransform (new_Transform 0 0 0 0 1); CCollider ball_collider] [].
Definition ball_on_a : GameObject :=
  mkGameObject [CTransform ball_a_transform; CRigidBody ball_b_rigid;
                CCollider ball_collider] [].

(** Two entities that carry a Collider and nothing else. *)
Definition bare_a : GameObject := mkGameObject [CCollider (mkCollider 10)] [].
Definition bare_b : GameObject := mkGameObject [CCollider (mkCollider 5)] [].
Definition bare_game : Game :=
  mkGame (mkCanvas 800 600) [bare_a; bare_b] [CollisionSystem] false.

(** A tick with the resolver as plugin over the two approaching balls. *)
Definition two_balls_game : Game :=
  mkGame (mkCanvas 800 600) [ball_a; ball_b] [CollisionSystem] false.

(** ** Quantities of the extra properties *)

(** Kinetic energy of a body, [m * |v|^2 / 2]. *)
Definition kinetic_energy (rb : RigidBody) : R :=
  mass rb * (Vector2.x (velocity rb) * Vector2.x (velocity rb)
             + Vector2.y (velocity rb) * Vector2.y (velocity rb)) / 2.

(** [n] successive calls of [RigidBody.update] on the same body and
    Transform, with the same [dt] and nothing else in between. *)
Fixpoint ticks (n : nat) (this : RigidBody) (t : Transform) (dt : R)
  : RigidBody * Transform :=
  match n with
  | O => (this, t)
  | S n' => let (this', t') := integrate this t dt in ticks n' this' t' dt
  end.

(** A scene in which no two colliders overlap. *)
Definition clear_of_overlaps (objs : list GameObject) : Prop :=
  forall i j a b aCollider bCollider aTransform bTransform,
    (i < j)%nat ->
    nth_error objs i = Some a -> nth_error objs j = Some b ->
    getCollider a = Some aCollider -> getCollider b = Some bCollider ->
    getTransform a = Some aTransform -> getTransform b = Some bTransform ->
    ~ Contact.dist aTransform bTransform < radius aCollider + radius bCollider.

(** A third ball, out of reach of [ball_a]. *)
Definition ball_far : GameObject :=
  mkGameObject [CTransform (new_Transform 100 0 0 0 1); CRigidBody ball_b_rigid;
                CCollider ball_collider] [].

(** An entity with a [Circle] between its Transform and its RigidBody. *)
Definition drawn_ball : GameObject :=
  mkGameObject [CTransform ball_a_transform; COther; CRigidBody ball_a_rigid;
                CCollider ball_collider] [BasePlugin].

(** A driver without plugins over a static entity and a ball. *)
Definition quiet_game : Game :=
  mkGame (mkCanvas 800 600) [ghost; drawn_ball] [BasePlugin] false.

(** ** GameObject.addComponent, GameObject.addPlugin *)

(** [addComponent(comp)]: [this.components.push(comp)], then [comp.start]
    once per component object; the [start] hooks of the components modelled
    here are the empty one of [class Component]. *)
Definition addComponent (comp : Component) (go : GameObject) : GameObject :=
  mkGameObject (components go ++ [comp]) (go_plugins go).

(** [addPlugin(plugin)]: [this.plugins.push(plugin)]; [Plugin.start] is empty
    and [CollisionSystem.start] only records the scene it is given. *)
Definition addPlugin (p : Plugin) (go : GameObject) : GameObject :=
  mkGameObject (components go) (go_plugins go ++ [p]).

(** The terminal vertical velocity of the integrator: the fixed point of
    [v -> (v + (gravity - buoyancy) * dt) * (1 - friction)]. *)
Definition terminal_velocity (this : RigidBody) (dt : R) : R :=
  (gravity this - buoyancy this) * dt * (1 - friction this) / friction this.


(** A ball that has left the canvas of [bare_game] through the top-left
    corner. *)
Definition stray_ball : GameObject :=
  mkGameObject [CTransform (new_Transform (-3) (-7) 0 0 1); CRigidBody ball_b_rigid;
                CCollider ball_collider] [].

(** Whether a component is a RigidBody. *)
Definition is_rigid (c : Component) : bool :=
  match c with CRigidBody _ => true | _ => false end.

(** ** SpriteRenderer.update *)

Module SpriteRenderer.

(** The fields [update] reads or writes ([url], [image], [frameWidth],
    [frameHeight] and [scale] are only used by [render]); [loaded] is set by
    the image's [onload]. *)
Record t : Type := mk {
  frameCount : R;
  frameSpeed : R;
  loop : bool;
  currentFrame : R;
  accumulator : R;
  loaded : bool
}.

(** The [while (accumulator >= frameDuration)] loop, on the accumulator [acc]
    and the frame [cf]; [None] when [fuel] iterations do not reach its exit.
    The accumulator is an exact real here: what is proved of a run that
    leaves the loop is proved of the values it leaves, not of the number of
    iterations a floating-point accumulator takes to get there. *)
Fixpoint advance (fuel : nat) (frameDuration frameCount : R) (loop : bool) (acc cf : R)
  : option (R * R) :=
  if Rge_dec acc frameDuration then
    match fuel with
    | O => None
    | S fuel' =>
        let acc := acc - frameDuration in
        let cf := cf + 1 in
        let cf := if Rge_dec cf frameCount
                  then (if loop then 0 else frameCount - 1)
                  else cf in
        advance fuel' frameDuration frameCount loop acc cf
    end
  else Some (acc, cf).

(** [update(go, dt)].  With [frameSpeed = 0] the frame duration [1 / 0] is
    [Infinity], which no accumulator reaches: the loop is not entered. *)
Definition update (fuel : nat) (this : t) (dt : R) : option t :=
  if Rgt_dec (frameCount this) 1 then
    if loaded this then
      let acc := accumulator this + dt in
      if Req_dec_T (frameSpeed this) 0 then
        Some (mk (frameCount this) (frameSpeed this) (loop this)
                 (currentFrame this) acc (loaded this))
      else
        match advance fuel (1 / frameSpeed this) (frameCount this) (loop this)
                      acc (currentFrame this) with
        | Some (acc', cf') =>
            Some (mk (frameCount this) (frameSpeed this) (loop this)
                     cf' acc' (loaded this))
        | None => None
        end
    else Some this
  else Some this.

End SpriteRenderer.

(** What the frame loop leaves, when it is left, for a frame duration [fd]
    and a frame count [fc]: fewer than one frame duration in the
    accumulator, the time taken out of it a whole number of frame
    durations, and the frame inside the sheet. *)
Definition advanced (fd fc acc cf acc' cf' : R) : Prop :=
  acc' < fd
  /\ (exists k : nat, acc' + INR k * fd = acc)
  /\ (0 <= acc -> 0 <= acc')
  /\ (0 <= cf < fc -> 0 <= cf' < fc).

(** A loaded four-frame sheet at 10 frames per second, and the same sheet
    with a negative speed. *)
Definition walk_sprite : SpriteRenderer.t :=
  SpriteRenderer.mk 4 10 true 0 0 true.
Definition still_sprite : SpriteRenderer.t :=
  SpriteRenderer.mk 4 10 false 3 0 true.
Definition reversed_sprite : SpriteRenderer.t :=
  SpriteRenderer.mk 4 (-10) true 0 0 true.

(** ** The older revision: Collider.update *)

Module LegacyCollider.

(** The body of the older [Collider.update] past its guard
    [if (!t || !rb) return], for a collider of radius [radius] on the canvas
    [cv]: four independent tests, bottom, top, left, right, each clamping
    the position and multiplying the velocity by [-restitution]; at the
    bottom a rebound slower than 10 is set to 0. *)
Definition bounce (radius : R) (cv : Canvas) (rb : Legacy.RigidBody) (t : Transform)
  : Legacy.RigidBody * Transform :=
  let px := Vector2.x (position t) in
  let py := Vector2.y (position t) in
  let vx := Vector2.x (Legacy.velocity rb) in
  let vy := Vector2.y (Legacy.velocity rb) in
  let e := Legacy.restitution rb in
  let '(py, vy) :=
    if Rgt_dec (py + radius) (height cv) then
      let vy := vy * - e in
      (height cv - radius, if Rlt_dec (Rabs vy) 10 then 0 else vy)
    else (py, vy) in
  let '(py, vy) :=
    if Rlt_dec (py - radius) 0 then (radius, vy * - e) else (py, vy) in
  let '(px, vx) :=
    if Rlt_dec (px - radius) 0 then (radius, vx * - e) else (px, vx) in
  let '(px, vx) :=
    if Rgt_dec (px + radius) (width cv) then (width cv - radius, vx * - e)
    else (px, vx) in
  (Legacy.mkRigidBody (vec2 vx vy) (Legacy.angularVelocity rb) (Legacy.gravity rb)
     (Legacy.friction rb) (Legacy.restitution rb) (Legacy.buoyancy rb),
   with_position (vec2 px py) t).

End LegacyCollider.

(** A body of the older revision falling slowly through the floor of an
    800 by 600 canvas. *)
Definition legacy_body : Legacy.RigidBody :=
  Legacy.mkRigidBody (vec2 0 12) 0 900 (1 / 10) (7 / 10) 0.
Definition legacy_transform : Transform := new_Transform 400 595 0 0 1.

(** ** EventEmitter *)

From Stdlib Require String.

Module EventEmitter.
Import String.
Local Open Scope string_scope.

Section Emitter.

(** The property names that a plain object [{}] answers through its
    prototype ([toString], [constructor], ...): part of the runtime, not of
    the source, and taken as a parameter.  What is found under such a name
    is truthy and is not an array. *)
Variable inherited : string -> bool.

(** Callbacks are compared by identity ([cb !== callback]); a callback is
    modelled by its identity, and calling it is recorded, not executed:
    callbacks that call back into the emitter are outside the model. *)
Definition Callback : Type := nat.

(** The own properties of [this.listeners]. *)
Definition t : Type := list (string * list Callback).

(** [new EventEmitter()]: [this.listeners = {}]. *)
Definition empty : t := [].

Fixpoint own (l : t) (event : string) : option (list Callback) :=
  match l with
  | [] => None
  | (k, cbs) :: l' => if String.eqb k event then Some cbs else own l' event
  end.

(** What [this.listeners[event]] evaluates to. *)
Inductive Slot : Type :=
| Absent
| Own (cbs : list Callback)
| Inherited.

Definition get (l : t) (event : string) : Slot :=
  match own l event with
  | Some cbs => Own cbs
  | None => if inherited event then Inherited else Absent
  end.

(** [this.listeners[event] = cbs]. *)
Fixpoint set (event : string) (cbs : list Callback) (l : t) : t :=
  match l with
  | [] => [(event, cbs)]
  | (k, old) :: l' =>
      if String.eqb k event then (k, cbs) :: l' else (k, old) :: set event cbs l'
  end.

(** [on(event, callback)]: [push] on what is found under [event]; a
    TypeError when that is not an array. *)
Definition on (event : string) (callback : Callback) (l : t) : Outcome t :=
  match get l event with
  | Absent => Returns (set event [callback] l)
  | Own cbs => Returns (set event (cbs ++ [callback]) l)
  | Inherited => Throws
  end.

(** [off(event, callback)]: [filter(cb => cb !== callback)]. *)
Definition off (event : string) (callback : Callback) (l : t) : Outcome t :=
  match get l event with
  | Absent => Returns l
  | Own cbs => Returns (set event (filter (fun cb => negb (Nat.eqb cb callback)) cbs) l)
  | Inherited => Throws
  end.

(** [emit(event, ...args)]: the callbacks called, in the order of the
    calls. *)
Definition emit (event : string) (l : t) : Outcome (list Callback) :=
  match get l event with
  | Absent => Returns []
  | Own cbs => Returns cbs
  | Inherited => Throws
  end.

End Emitter.

(** The names [Object.prototype] defines. *)
Definition prototype_names : list string :=
  ["constructor"; "hasOwnProperty"; "isPrototypeOf"; "propertyIsEnumerable";
   "toLocaleString"; "toString"; "valueOf"; "__proto__"; "__defineGetter__";
   "__defineSetter__"; "__lookupGetter__"; "__lookupSetter__"].
Definition in_prototype (event : string) : bool :=
  existsb (String.eqb event) prototype_names.

(** An emitter with two callbacks on ["hit"] and one on ["miss"]. *)
Definition sample : t := [("hit", [1; 2; 1]%nat); ("miss", [3]%nat)].

End EventEmitter.

(** ** UI elements (UI.js) *)

Module UI.

(** The classes of UI.js: [UIElement] itself, [UIContainer], and [Button]
    with its [onClickCallback] (a callback is modelled by its identity;
    [None] is the [null] default). *)
Inductive Kind : Type :=
| Plain
| Container
| Button (onClickCallback : option nat).

(** An element with its children.  [parent] is written by [addChild] and
    never read, and is left out. *)
#[local] Unset Elimination Schemes.
Inductive Element : Type :=
| mk (kind : Kind) (x y width height : R) (visible hovered : bool)
     (children : list Element).
#[local] Set Elimination Schemes.

Definition kind (e : Element) : Kind := let (k, _, _, _, _, _, _, _) := e in k.
Definition x (e : Element) : R := let (_, v, _, _, _, _, _, _) := e in v.
Definition y (e : Element) : R := let (_, _, v, _, _, _, _, _) := e in v.
Definition width (e : Element) : R := let (_, _, _, v, _, _, _, _) := e in v.
Definition height (e : Element) : R := let (_, _, _, _, v, _, _, _) := e in v.
Definition visible (e : Element) : bool := let (_, _, _, _, _, v, _, _) := e in v.
Definition hovered (e : Element) : bool := let (_, _, _, _, _, _, v, _) := e in v.
Definition children (e : Element) : list Element :=
  let (_, _, _, _, _, _, _, v) := e in v.

(** [containsPoint(px, py)]: both edges included. *)
Definition containsPoint (e : Element) (px py : R) : bool :=
  if Rge_dec px (x e) then
    if Rle_dec px (x e + width e) then
      if Rge_dec py (y e) then
        if Rle_dec py (y e + height e) then true else false
      else false
    else false
  else false.

(** [onClick(px, py)]: the value returned and the callbacks called.
    [Button.onClick] tests the button itself; [UIElement.onClick], which
    [UIContainer] inherits, hands the click to the first child that
    contains the point in the element's coordinates and returns [true]
    whatever that child returns. *)
Fixpoint onClick (e : Element) (px py : R) : bool * list nat :=
  match e with
  | mk (Button cb) _ _ _ _ _ _ _ =>
      if containsPoint e px py
      then (true, match cb with Some c => [c] | None => [] end)
      else (false, [])
  | mk _ ex ey _ _ _ _ cs =>
      (fix dispatch (cs : list Element) : bool * list nat :=
         match cs with
         | [] => (false, [])
         | child :: cs' =>
             if containsPoint child (px - ex) (py - ey)
             then (true, snd (onClick child (px - ex) (py - ey)))
             else dispatch cs'
         end) cs
  end.

(** [onMouseMove(px, py)]: [hovered] becomes [containsPoint(px, py)] (the
    hover hooks are empty) and every child gets the move in the element's
    coordinates. *)
Fixpoint onMouseMove (e : Element) (px py : R) : Element :=
  match e with
  | mk k ex ey w h v _ cs =>
      mk k ex ey w h v (containsPoint e px py)
         (map (fun child => onMouseMove child (px - ex) (py - ey)) cs)
  end.

(** [addChild(child)]. *)
Definition addChild (child : Element) (e : Element) : Element :=
  match e with
  | mk k ex ey w h v hv cs => mk k ex ey w h v hv (cs ++ [child])
  end.

(** Setting [visible] on an element and all its descendants. *)
Fixpoint show (b : bool) (e : Element) : Element :=
  match e with
  | mk k ex ey w h _ hv cs => mk k ex ey w h b hv (map (show b) cs)
  end.

End UI.

(** A panel at (100, 50) with two overlapping buttons and a label. *)
Definition ok_button : UI.Element := UI.mk (UI.Button (Some 7%nat)) 10 10 80 30 true false [].
Definition cancel_button : UI.Element :=
  UI.mk (UI.Button (Some 8%nat)) 50 10 80 30 false false [].
Definition caption : UI.Element := UI.mk UI.Plain 10 60 80 20 true false [].
Definition panel : UI.Element :=
  UI.mk UI.Container 100 50 200 100 true false [caption; ok_button; cancel_button].

(** ** Input (Input.js) *)

Module Input.
Import String.

(** A changed touch of a touch event. *)
Record Touch : Type := mkTouch { identifier : nat; clientX : R; clientY : R }.

(** The state the event handlers of the constructor write.  The two key
    [Set]s are read through [has] only and are modelled by their
    membership; [touches] is a [Map] whose order [getTouches] shows, an
    association list in insertion order; the three listener lists hold the
    identities of the registered functions.  [gamepads] is rebuilt from
    [navigator.getGamepads()] by its only reader and is left out. *)
Record t : Type := mk {
  keys : string -> bool;
  mouse_x : R;
  mouse_y : R;
  buttons : nat -> bool;
  touches : list (nat * (R * R));
  tvKeys : string -> bool;
  keyListeners : list nat;
  mouseListeners : list nat;
  touchListeners : list nat
}.

(** The DOM events the constructor listens to; a mouse move comes with the
    canvas rectangle's [left] and [top] at that moment. *)
Inductive Event : Type :=
| KeyDown (key : string)
| KeyUp (key : string)
| MouseMove (clientX clientY rectLeft rectTop : R)
| MouseDown (button : nat)
| MouseUp (button : nat)
| TouchStart (changedTouches : list Touch)
| TouchMove (changedTouches : list Touch)
| TouchEnd (changedTouches : list Touch)
| TouchCancel (changedTouches : list Touch)
| GamepadConnected
| GamepadDisconnected.

(** [new Input(canvas)]. *)
Definition new : t :=
  mk (fun _ => false) 0 0 (fun _ => false) [] (fun _ => false) [] [] [].

(** [Set.add], [Set.delete]. *)
Definition add (k : string) (s : string -> bool) : string -> bool :=
  fun k' => if String.eqb k' k then true else s k'.
Definition delete (k : string) (s : string -> bool) : string -> bool :=
  fun k' => if String.eqb k' k then false else s k'.
Definition add_button (b : nat) (s : nat -> bool) : nat -> bool :=
  fun b' => if Nat.eqb b' b then true else s b'.
Definition delete_button (b : nat) (s : nat -> bool) : nat -> bool :=
  fun b' => if Nat.eqb b' b then false else s b'.

(** [Map.set]: an existing key keeps its place, a new one goes last. *)
Fixpoint map_set (id : nat) (p : R * R) (m : list (nat * (R * R)))
  : list (nat * (R * R)) :=
  match m with
  | [] => [(id, p)]
  | (id', p') :: m' =>
      if Nat.eqb id' id then (id', p) :: m' else (id', p') :: map_set id p m'
  end.

(** [Map.delete]. *)
Fixpoint map_delete (id : nat) (m : list (nat * (R * R))) : list (nat * (R * R)) :=
  match m with
  | [] => []
  | (id', p') :: m' => if Nat.eqb id' id then m' else (id', p') :: map_delete id m'
  end.

Definition set_touches (ts : list Touch) (m : list (nat * (R * R)))
  : list (nat * (R * R)) :=
  fold_left (fun m t => map_set (identifier t) (clientX t, clientY t) m) ts m.
Definition delete_touches (ts : list Touch) (m : list (nat * (R * R)))
  : list (nat * (R * R)) :=
  fold_left (fun m t => map_delete (identifier t) m) ts m.

(** One event through its handler: the new state and the listeners called,
    in the order of the calls. *)
Definition handle (s : t) (e : Event) : t * list nat :=
  match e with
  | KeyDown k =>
      (mk (add k (keys s)) (mouse_x s) (mouse_y s) (buttons s) (touches s)
          (add k (tvKeys s)) (keyListeners s) (mouseListeners s) (touchListeners s),
       keyListeners s)
  | KeyUp k =>
      (mk (delete k (keys s)) (mouse_x s) (mouse_y s) (buttons s) (touches s)
          (delete k (tvKeys s)) (keyListeners s) (mouseListeners s) (touchListeners s),
       [])
  | MouseMove cx cy rectLeft rectTop =>
      (mk (keys s) (cx - rectLeft) (cy - rectTop) (buttons s) (touches s)
          (tvKeys s) (keyListeners s) (mouseListeners s) (touchListeners s), [])
  | MouseDown b =>
      (mk (keys s) (mouse_x s) (mouse_y s) (add_button b (buttons s)) (touches s)
          (tvKeys s) (keyListeners s) (mouseListeners s) (touchListeners s), [])
  | MouseUp b =>
      (mk (keys s) (mouse_x s) (mouse_y s) (delete_button b (buttons s)) (touches s)
          (tvKeys s) (keyListeners s) (mouseListeners s) (touchListeners s), [])
  | TouchStart ts | TouchMove ts =>
      (mk (keys s) (mouse_x s) (mouse_y s) (buttons s) (set_touches ts (touches s))
          (tvKeys s) (keyListeners s) (mouseListeners s) (touchListeners s), [])
  | TouchEnd ts | TouchCancel ts =>
      (mk (keys s) (mouse_x s) (mouse_y s) (buttons s) (delete_touches ts (touches s))
          (tvKeys s) (keyListeners s) (mouseListeners s) (touchListeners s), [])
  | GamepadConnected | GamepadDisconnected => (s, [])
  end.

(** [onKey(fn)], [onMouse(fn)], [onTouch(fn)]. *)
Definition onKey (fn : nat) (s : t) : t :=
  mk (keys s) (mouse_x s) (mouse_y s) (buttons s) (touches s) (tvKeys s)
     (keyListeners s ++ [fn]) (mouseListeners s) (touchListeners s).
Definition onMouse (fn : nat) (s : t) : t :=
  mk (keys s) (mouse_x s) (mouse_y s) (buttons s) (touches s) (tvKeys s)
     (keyListeners s) (mouseListeners s ++ [fn]) (touchListeners s).
Definition onTouch (fn : nat) (s : t) : t :=
  mk (keys s) (mouse_x s) (mouse_y s) (buttons s) (touches s) (tvKeys s)
     (keyListeners s) (mouseListeners s) (touchListeners s ++ [fn]).

(** The queries. *)
Definition isKeyDown (s : t) (key : string) : bool := keys s key.
Definition isTVKeyDown (s : t) (key : string) : bool := tvKeys s key.
Definition isMouseDown (s : t) (button : nat) : bool := buttons s button.
Definition getMousePosition (s : t) : Vector2.t := vec2 (mouse_x s) (mouse_y s).
Definition getTouches (s : t) : list (R * R) := map snd (touches s).

(** A sequence of events, in order: the final state and all the calls. *)
Fixpoint run (s : t) (es : list Event) : t * list nat :=
  match es with
  | [] => (s, [])
  | e :: es' =>
      let (s1, calls1) := handle s e in
      let (s2, calls2) := run s1 es' in
      (s2, calls1 ++ calls2)
  end.

End Input.

(** What one event does to the state of the key [k]. *)
Definition key_step (k : String.string) (down : bool) (e : Input.Event) : bool :=
  match e with
  | Input.KeyDown k' => if String.eqb k k' then true else down
  | Input.KeyUp k' => if String.eqb k k' then false else down
  | _ => down
  end.

(** ** GameObject.update of an entity with SpriteRenderers *)

Module WithSprites.

(** A component of an entity that may also carry [SpriteRenderer]s: one of
    the components above, or a [SpriteRenderer] with the state that its
    [update] works on. *)
Inductive Part : Type :=
| Plain (c : Component)
| Sprite (s : SpriteRenderer.t).

(** [class GameObject]: [components] and [plugins]. *)
Record t : Type := mk {
  parts : list Part;
  plugins : list Plugin
}.

(** [getComponent(Transform)], which no [SpriteRenderer] answers, and the
    write through the reference it returned. *)
Fixpoint findTransform (ps : list Part) : option Transform :=
  match ps with
  | [] => None
  | Plain (CTransform t) :: _ => Some t
  | _ :: ps' => findTransform ps'
  end.

Fixpoint storeTransform (t' : Transform) (ps : list Part) : list Part :=
  match ps with
  | [] => []
  | Plain (CTransform _) :: ps' => Plain (CTransform t') :: ps'
  | p :: ps' => p :: storeTransform t' ps'
  end.

(** [RigidBody.update(go, dt)], where [this] is the component at index [k]
    of [go.components]. *)
Definition RigidBody_update (k : nat) (this : RigidBody) (go : t) (dt : R) : t :=
  match findTransform (parts go) with
  | None => go
  | Some t =>
      let (this', t') := integrate this t dt in
      mk (set_nth k (Plain (CRigidBody this')) (storeTransform t' (parts go)))
         (plugins go)
  end.

(** A tick of an entity can also not come back: [None] stands for a frame
    loop that [fuel] iterations have not left.  Sequencing stops there, as
    it stops at a throw. *)
Definition bindO {A B : Type} (m : option (M A)) (f : A -> option (M B))
  : option (M B) :=
  match m with
  | None => None
  | Some (l1, Throws) => Some (l1, Throws)
  | Some (l1, Returns a) =>
      match f a with
      | None => None
      | Some (l2, r) => Some (l1 ++ l2, r)
      end
  end.

Fixpoint foldO {A S : Type} (body : A -> S -> option (M S)) (l : list A) (s : S)
  : option (M S) :=
  match l with
  | [] => Some (ret s)
  | v :: l' => bindO (body v s) (fun s' => foldO body l' s')
  end.

(** [c.update(this, dt)] for the component [p] at index [k]:
    [RigidBody.update], [SpriteRenderer.update] (which works on the sprite's
    own fields), or the empty [Component.update]. *)
Definition Part_update (fuel i k : nat) (p : Part) (go : t) (dt : R)
  : option (M t) :=
  match p with
  | Plain (CRigidBody this) =>
      Some (tell [EIntegrate i] ;;; ret (RigidBody_update k this go dt))
  | Plain _ => Some (ret go)
  | Sprite s =>
      match SpriteRenderer.update fuel s dt with
      | Some s' => Some (ret (mk (set_nth k (Sprite s') (parts go)) (plugins go)))
      | None => None
      end
  end.

(** [GameObject.update(dt)] for the entity at index [i] of the driver's
    list: every component's [update] in the order of the list, then every
    entity plugin's. *)
Definition update (fuel i : nat) (go : t) (dt : R) : option (M t) :=
  bindO (foldO (fun k go =>
                  match nth_error (parts go) k with
                  | Some p => Part_update fuel i k p go dt
                  | None => Some (ret go)
                  end) (seq 0 (length (parts go))) go)
        (fun go =>
           Some (foldM (fun p go =>
                          match p with
                          | BasePlugin => ret go
                          | CollisionSystem => throw
                          end) (plugins go) go)).

End WithSprites.

(** What [getComponent], [RigidBody.update] and the resolver see of such an
    entity: to them a [SpriteRenderer] is one more component that is
    neither Transform, RigidBody nor Collider. *)
Definition physics_part (p : WithSprites.Part) : Component :=
  match p with
  | WithSprites.Plain c => c
  | WithSprites.Sprite _ => COther
  end.

Definition physics (go : WithSprites.t) : GameObject :=
  mkGameObject (map physics_part (WithSprites.parts go)) (WithSprites.plugins go).

Definition is_rigid_part (p : WithSprites.Part) : bool :=
  match p with
  | WithSprites.Plain (CRigidBody _) => true
  | _ => false
  end.

(** Two states of one slot of the component list between which no update
    of that slot has run: the same sprite, or a component that is still
    not a sprite. *)
Definition kept (o o' : option WithSprites.Part) : Prop :=
  match o, o' with
  | Some (WithSprites.Sprite s), Some (WithSprites.Sprite s') => s = s'
  | Some (WithSprites.Plain _), Some (WithSprites.Plain _) => True
  | None, None => True
  | _, _ => False
  end.

(** The states of one slot before and after an update of the entity that
    returned: a sprite has gone through its own [update], a component that
    is not a sprite is still none. *)
Definition stepped (fuel : nat) (dt : R) (o o' : option WithSprites.Part) : Prop :=
  match o, o' with
  | Some (WithSprites.Sprite s), Some (WithSprites.Sprite s') =>
      SpriteRenderer.update fuel s dt = Some s'
  | Some (WithSprites.Plain _), Some (WithSprites.Plain _) => True
  | None, None => True
  | _, _ => False
  end.

(** A static entity and a ball with a running sprite sheet, and a ball
    whose sheet was given a negative speed, with a resolver of its own. *)
Definition animated_ghost : WithSprites.t :=
  WithSprites.mk [WithSprites.Plain (CTransform ball_a_transform);
                  WithSprites.Sprite walk_sprite;
                  WithSprites.Plain (CCollider ball_collider)] [BasePlugin].
Definition animated_ball : WithSprites.t :=
  WithSprites.mk [WithSprites.Plain (CTransform ball_a_transform);
                  WithSprites.Sprite walk_sprite;
                  WithSprites.Plain (CRigidBody ball_a_rigid);
                  WithSprites.Plain (CCollider ball_collider)] [BasePlugin].
Definition frozen_ball : WithSprites.t :=
  WithSprites.mk [WithSprites.Plain (CTransform ball_a_transform);
                  WithSprites.Sprite reversed_sprite;
                  WithSprites.Plain (CRigidBody ball_a_rigid);
                  WithSprites.Plain (CCollider ball_collider)] [CollisionSystem].

(** The two entities after an update of a quarter of a second. *)
Definition walk_sprite_after : SpriteRenderer.t :=
  SpriteRenderer.mk 4 10 true 2 (1 / 4 - 1 / 10 - 1 / 10) true.
Definition animated_ghost_after : WithSprites.t :=
  WithSprites.mk [WithSprites.Plain (CTransform ball_a_transform);
                  WithSprites.Sprite walk_sprite_after;
                  WithSprites.Plain (CCollider ball_collider)] [BasePlugin].
Definition animated_ball_after : WithSprites.t :=
  WithSprites.mk
    [WithSprites.Plain
       (CTransform (snd (integrate ball_a_rigid ball_a_transform (1 / 4))));
     WithSprites.Sprite walk_sprite_after;
     WithSprites.Plain
       (CRigidBody (fst (integrate ball_a_rigid ball_a_transform (1 / 4))));
     WithSprites.Plain (CCollider ball_collider)] [BasePlugin].

(** * Properties *)

(** ** Component lists *)

Section ComponentLists.

Ltac by_components cs :=
  let c := fresh "c" in
  let IH := fresh "IH" in
  induction cs as [|c cs IH]; simpl; [reflexivity|]; destruct c; simpl; auto.

Lemma findTransform_store (t' : Transform) (cs : list Component) :
  findTransform (storeTransform t' cs)
  = match findTransform cs with Some _ => Some t' | None => None end.
Proof. by_components cs. Qed.

Lemma findRigidBody_store (rb' : RigidBody) (cs : list Component) :
  findRigidBody (storeRigidBody rb' cs)
  = match findRigidBody cs with Some _ => Some rb' | None => None end.
Proof. by_components cs. Qed.

Lemma findRigidBody_storeTransform (t' : Transform) (cs : list Component) :
  findRigidBody (storeTransform t' cs) = findRigidBody cs.
Proof. by_components cs. Qed.

Lemma findCollider_storeTransform (t' : Transform) (cs : list Component) :
  findCollider (storeTransform t' cs) = findCollider cs.
Proof. by_components cs. Qed.

Lemma findTransform_storeRigidBody (rb' : RigidBody) (cs : list Component) :
  findTransform (storeRigidBody rb' cs) = findTransform cs.
Proof. by_components cs. Qed.

Lemma findCollider_storeRigidBody (rb' : RigidBody) (cs : list Component) :
  findCollider (storeRigidBody rb' cs) = findCollider cs.
Proof. by_components cs. Qed.

Lemma storeTransform_same (t : Transform) (cs : list Component) :
  findTransform cs = Some t -> storeTransform t cs = cs.
Proof.
  induction cs as [|c cs IH]; simpl; [reflexivity|].
  destruct c; simpl; intros H; try (rewrite IH; auto); congruence.
Qed.

Lemma storeRigidBody_same (rb : RigidBody) (cs : list Component) :
  findRigidBody cs = Some rb -> storeRigidBody rb cs = cs.
Proof.
  induction cs as [|c cs IH]; simpl; [reflexivity|].
  destruct c; simpl; intros H; try (rewrite IH; auto); congruence.
Qed.

Lemma nth_error_storeTransform_rigid (t' : Transform) (cs : list Component)
      (k : nat) (rb : RigidBody) :
  nth_error cs k = Some (CRigidBody rb) ->
  nth_error (storeTransform t' cs) k = Some (CRigidBody rb).
Proof.
  revert k; induction cs as [|c cs IH]; intros [|k]; simpl; try discriminate.
  - intros H; injection H as ->; reflexivity.
  - intros H; destruct c; simpl; auto.
Qed.

Lemma nth_error_set_nth {A : Type} (l : list A) (k : nat) (v w : A) :
  nth_error l k = Some w -> nth_error (set_nth k v l) k = Some v.
Proof.
  revert k; induction l as [|a l IH]; intros [|k]; simpl; try discriminate; auto.
Qed.

Lemma nth_error_set_nth_other {A : Type} (l : list A) (k k' : nat) (v : A) :
  k <> k' -> nth_error (set_nth k v l) k' = nth_error l k'.
Proof.
  revert k k'; induction l as [|a l IH]; intros [|k] [|k'] Hne; simpl; auto;
    try congruence.
Qed.

Lemma length_set_nth {A : Type} (l : list A) (k : nat) (v : A) :
  length (set_nth k v l) = length l.
Proof.
  revert k; induction l as [|a l IH]; intros [|k]; simpl; auto.
Qed.

(** Overwriting a RigidBody slot leaves the Transform lookup alone. *)
Lemma findTransform_set_nth_rigid (cs : list Component) (k : nat)
      (rb rb' : RigidBody) :
  nth_error cs k = Some (CRigidBody rb) ->
  findTransform (set_nth k (CRigidBody rb') cs) = findTransform cs.
Proof.
  revert k; induction cs as [|c cs IH]; intros [|k]; simpl; try discriminate.
  - intros H; injection H as ->; reflexivity.
  - intros H; destruct c; simpl; eauto.
Qed.

End ComponentLists.

(** ** RigidBody.update *)

(** C2. For every [dt >= 0] and every entity with a Transform and a
    RigidBody of gravity [g], buoyancy 0, friction 0 and zero velocity, one
    call of [RigidBody.update] leaves [velocity.y = g * dt] and adds exactly
    [g * dt * dt] to [position.y]; from [position.y = 0] it ends at
    [g * dt * dt]. *)
Theorem RigidBody_update_free_fall
        (k : nat) (go : GameObject) (this : RigidBody) (t : Transform) (g dt : R) :
  0 <= dt ->
  nth_error (components go) k = Some (CRigidBody this) ->
  getTransform go = Some t ->
  gravity this = g -> buoyancy this = 0 -> friction this = 0 ->
  velocity this = vec2 0 0 ->
  exists this' t',
    nth_error (components (RigidBody_update k this go dt)) k = Some (CRigidBody this')
    /\ getTransform (RigidBody_update k this go dt) = Some t'
    /\ Vector2.y (velocity this') = g * dt
    /\ Vector2.y (position t') = Vector2.y (position t) + g * dt * dt
    /\ (Vector2.y (position t) = 0 -> Vector2.y (position t') = g * dt * dt).
Proof.
  intros _ Hk Ht Hg Hb Hf Hv.
  unfold RigidBody_update. rewrite Ht.
  destruct (integrate this t dt) as [this' t'] eqn:E.
  exists this', t'. unfold getTransform; simpl.
  unfold getTransform in Ht.
  assert (Hk' := nth_error_storeTransform_rigid t' _ _ _ Hk).
  split; [eapply nth_error_set_nth; eassumption|].
  split.
  { rewrite (findTransform_set_nth_rigid _ _ _ _ Hk'), findTransform_store, Ht.
    reflexivity. }
  unfold integrate in E. injection E as <- <-. simpl.
  rewrite Hg, Hb, Hf, Hv. simpl.
  repeat split; intros; lra.
Qed.

Lemma RigidBody_update_free_fall_witness :
  exists this' t',
    nth_error (components (RigidBody_update 1 falling_body falling_entity (1 / 2))) 1
    = Some (CRigidBody this')
    /\ getTransform (RigidBody_update 1 falling_body falling_entity (1 / 2)) = Some t'
    /\ Vector2.y (velocity this') = 980 * (1 / 2)
    /\ Vector2.y (position t')
       = Vector2.y (position (new_Transform 0 0 0 0 1)) + 980 * (1 / 2) * (1 / 2)
    /\ (Vector2.y (position (new_Transform 0 0 0 0 1)) = 0 ->
        Vector2.y (position t') = 980 * (1 / 2) * (1 / 2)).
Proof.
  apply (RigidBody_update_free_fall 1 falling_entity falling_body
           (new_Transform 0 0 0 0 1) 980 (1 / 2));
    [lra | reflexivity | reflexivity | reflexivity | reflexivity | reflexivity
    | reflexivity].
Defined.

(** C7. In the newer revision [RigidBody.update] damps [velocity.x] and
    [velocity.y] by [1 - friction] but leaves [angularVelocity] as it was;
    the older revision multiplies all three.  At angular velocity 1,
    friction 1/2 and [dt = 1] the newer code keeps 1 where the damped value
    is 1/2. *)
Theorem RigidBody_update_angularVelocity_undamped :
  (forall this t dt,
      angularVelocity (fst (integrate this t dt)) = angularVelocity this
      /\ Vector2.x (velocity (fst (integrate this t dt)))
         = Vector2.x (velocity this) * (1 - friction this))
  /\ (forall this t dt,
         Legacy.angularVelocity (fst (Legacy.integrate this t dt))
         = Legacy.angularVelocity this * (1 - Legacy.friction this))
  /\ (let this := mkRigidBody (vec2 0 0) 1 0 (1 / 2) (7 / 10) 1 0 in
      let go := mkGameObject [CTransform (new_Transform 0 0 0 0 1); CRigidBody this] [] in
      exists this',
        nth_error (components (RigidBody_update 1 this go 1)) 1 = Some (CRigidBody this')
        /\ angularVelocity this' = 1
        /\ angularVelocity this' <> angularVelocity this * (1 - friction this)).
Proof.
  split; [|split].
  - intros this t dt; split; reflexivity.
  - intros this t dt; reflexivity.
  - simpl. eexists; split; [reflexivity|]. simpl. split; lra.
Qed.

(** ** Game.handleBoundary *)

Section GameObjectLookup.

Variables (go : GameObject) (t' : Transform) (rb' : RigidBody).

Lemma getTransform_setTransform :
  getTransform (setTransform t' go)
  = match getTransform go with Some _ => Some t' | None => None end.
Proof. apply findTransform_store. Qed.

Lemma getRigidBody_setRigidBody :
  getRigidBody (setRigidBody rb' go)
  = match getRigidBody go with Some _ => Some rb' | None => None end.
Proof. apply findRigidBody_store. Qed.

Lemma getRigidBody_setTransform :
  getRigidBody (setTransform t' go) = getRigidBody go.
Proof. apply findRigidBody_storeTransform. Qed.

Lemma getCollider_setTransform :
  getCollider (setTransform t' go) = getCollider go.
Proof. apply findCollider_storeTransform. Qed.

Lemma getTransform_setRigidBody :
  getTransform (setRigidBody rb' go) = getTransform go.
Proof. apply findTransform_storeRigidBody. Qed.

Lemma getCollider_setRigidBody :
  getCollider (setRigidBody rb' go) = getCollider go.
Proof. apply findCollider_storeRigidBody. Qed.

End GameObjectLookup.

Lemma setTransform_same (go : GameObject) (t : Transform) :
  getTransform go = Some t -> setTransform t go = go.
Proof.
  intros H. destruct go as [cs ps]. unfold setTransform; simpl.
  rewrite storeTransform_same; auto.
Qed.

Lemma setRigidBody_same (go : GameObject) (rb : RigidBody) :
  getRigidBody go = Some rb -> setRigidBody rb go = go.
Proof.
  intros H. destruct go as [cs ps]. unfold setRigidBody; simpl.
  rewrite storeRigidBody_same; auto.
Qed.

#[local] Create Rewrite HintDb lookup.
#[local] Hint Rewrite getTransform_setTransform getRigidBody_setRigidBody
  getRigidBody_setTransform getCollider_setTransform getTransform_setRigidBody
  getCollider_setRigidBody : lookup.

Lemma boundary_axis_low (p v r hi : R) :
  p - r < 0 -> boundary_axis p v r hi = (r, Rabs v).
Proof. intros H; unfold boundary_axis; destruct (Rlt_dec (p - r) 0); [reflexivity | lra]. Qed.

Lemma boundary_axis_high (p v r hi : R) :
  ~ p - r < 0 -> p + r > hi -> boundary_axis p v r hi = (hi - r, - Rabs v).
Proof.
  intros H1 H2; unfold boundary_axis.
  destruct (Rlt_dec (p - r) 0); [lra|].
  destruct (Rgt_dec (p + r) hi); [reflexivity | lra].
Qed.

Lemma boundary_axis_inside (p v r hi : R) :
  ~ p - r < 0 -> ~ p + r > hi -> boundary_axis p v r hi = (p, v).
Proof.
  intros H1 H2; unfold boundary_axis.
  destruct (Rlt_dec (p - r) 0); [lra|].
  destruct (Rgt_dec (p + r) hi); [lra | reflexivity].
Qed.

(** What [handleBoundary] leaves in an entity that has all three
    components. *)
Lemma handleBoundary_result (cv : Canvas) (obj : GameObject)
      (t : Transform) (rb : RigidBody) (col : Collider) :
  getTransform obj = Some t -> getRigidBody obj = Some rb ->
  getCollider obj = Some col ->
  let ax := boundary_axis (Vector2.x (position t)) (Vector2.x (velocity rb))
              (radius col) (width cv) in
  let ay := boundary_axis (Vector2.y (position t)) (Vector2.y (velocity rb))
              (radius col) (height cv) in
  getTransform (handleBoundary cv obj)
  = Some (with_position (vec2 (fst ax) (fst ay)) t)
  /\ getRigidBody (handleBoundary cv obj)
     = Some (with_velocity (vec2 (snd ax) (snd ay)) rb).
Proof.
  intros Ht Hrb Hc ax ay. unfold handleBoundary. rewrite Ht, Hrb, Hc.
  fold ax ay. destruct ax as [px vx], ay as [py vy]. simpl.
  autorewrite with lookup. rewrite Ht, Hrb. split; reflexivity.
Qed.

(** C5, as stated, fails: with [position.x + r] past the high edge the
    position is not set to [width - r] when the low edge is crossed too. *)
Lemma handleBoundary_high_edge_counterexample :
  ~ (forall t col t',
        getTransform wide_entity = Some t ->
        getCollider wide_entity = Some col ->
        getTransform (handleBoundary narrow_canvas wide_entity) = Some t' ->
        Vector2.x (position t) + radius col > width narrow_canvas ->
        Vector2.x (position t') = width narrow_canvas - radius col).
Proof.
  intros H.
  destruct (handleBoundary_result narrow_canvas wide_entity
              (new_Transform 5 50 0 0 1)
              (new_RigidBody (vec2 3 0) 0 0 0 (7 / 10) 1 0)
              (mkCollider 10) eq_refl eq_refl eq_refl) as [Ht' _].
  specialize (H _ _ _ eq_refl eq_refl Ht').
  simpl in H. rewrite boundary_axis_low in H by lra. simpl in H. lra.
Qed.

Lemma boundary_axis_clamped (p v r hi : R) :
  axis_clamped p v r hi (fst (boundary_axis p v r hi)) (snd (boundary_axis p v r hi)).
Proof.
  pose proof (Rabs_pos v) as Hv.
  unfold axis_clamped; repeat split; intros.
  all: first [ rewrite boundary_axis_low by assumption
             | rewrite boundary_axis_high by assumption
             | rewrite boundary_axis_inside by assumption ]; simpl; lra.
Qed.

(** C5, amended. When boundary handling runs on an entity with Transform,
    RigidBody and Collider of radius [r]: on each axis, if [position - r] is
    below the low edge, position becomes exactly [r] and velocity its
    absolute value (non-negative); if it is not and [position + r] is past
    the high edge, position becomes exactly [width - r] (or [height - r])
    and velocity minus its absolute value (non-positive); otherwise both
    are left as they were. *)
Theorem handleBoundary_clamps (cv : Canvas) (obj : GameObject)
        (t : Transform) (rb : RigidBody) (col : Collider) :
  getTransform obj = Some t -> getRigidBody obj = Some rb ->
  getCollider obj = Some col ->
  exists t' rb',
    getTransform (handleBoundary cv obj) = Some t'
    /\ getRigidBody (handleBoundary cv obj) = Some rb'
    /\ axis_clamped (Vector2.x (position t)) (Vector2.x (velocity rb))
         (radius col) (width cv)
         (Vector2.x (position t')) (Vector2.x (velocity rb'))
    /\ axis_clamped (Vector2.y (position t)) (Vector2.y (velocity rb))
         (radius col) (height cv)
         (Vector2.y (position t')) (Vector2.y (velocity rb')).
Proof.
  intros Ht Hrb Hc.
  destruct (handleBoundary_result cv obj t rb col Ht Hrb Hc) as [Ht' Hrb'].
  eexists; eexists. split; [exact Ht'|]. split; [exact Hrb'|].
  simpl. split; apply boundary_axis_clamped.
Qed.

Lemma handleBoundary_clamps_witness :
  exists t' rb',
    getTransform (handleBoundary narrow_canvas wide_entity) = Some t'
    /\ getRigidBody (handleBoundary narrow_canvas wide_entity) = Some rb'
    /\ axis_clamped 5 3 10 10 (Vector2.x (position t')) (Vector2.x (velocity rb'))
    /\ axis_clamped 50 0 10 100 (Vector2.y (position t')) (Vector2.y (velocity rb')).
Proof.
  apply (handleBoundary_clamps narrow_canvas wide_entity
           (new_Transform 5 50 0 0 1)
           (new_RigidBody (vec2 3 0) 0 0 0 (7 / 10) 1 0)
           (mkCollider 10));
    reflexivity.
Defined.

(** ** CollisionSystem.update: one pair *)

Lemma hypot_nonneg (dx dy : R) : 0 <= hypot dx dy.
Proof. apply sqrt_pos. Qed.

Lemma hypot_sqr (dx dy : R) : hypot dx dy * hypot dx dy = dx * dx + dy * dy.
Proof. apply sqrt_sqrt. nra. Qed.

(** [dist == 0] only for coincident centres. *)
Lemma hypot_zero (dx dy : R) : hypot dx dy = 0 -> dx = 0 /\ dy = 0.
Proof.
  intros H. pose proof (hypot_sqr dx dy) as Hs. rewrite H in Hs.
  split; nra.
Qed.

Lemma hypot_axis (d : R) : 0 <= d -> hypot d 0 = d.
Proof.
  intros H. unfold hypot. replace (d * d + 0 * 0) with (Rsqr d) by (unfold Rsqr; ring).
  apply sqrt_Rsqr; assumption.
Qed.

Lemma div_or_zero_pos (d dist : R) : 0 < dist -> div_or_zero d dist = d / dist.
Proof.
  intros H; unfold div_or_zero. destruct (Req_dec_T dist 0); [lra | reflexivity].
Qed.

Lemma div_or_zero_zero (d : R) : div_or_zero d 0 = 0.
Proof.
  unfold div_or_zero. destruct (Req_dec_T 0 0); [reflexivity | contradiction].
Qed.

(** The normal is a unit vector whenever the centres differ. *)
Lemma normal_unit (ta tb : Transform) :
  0 < Contact.dist ta tb ->
  Contact.nx ta tb * Contact.nx ta tb + Contact.ny ta tb * Contact.ny ta tb = 1.
Proof.
  intros Hd. unfold Contact.nx, Contact.ny.
  rewrite !div_or_zero_pos by assumption.
  pose proof (hypot_sqr (Contact.dx ta tb) (Contact.dy ta tb)) as Hs.
  fold (Contact.dist ta tb) in Hs.
  set (d := Contact.dist ta tb) in *.
  set (u := Contact.dx ta tb) in *. set (v := Contact.dy ta tb) in *.
  assert (Hne : d <> 0) by lra.
  replace (u / d * (u / d) + v / d * (v / d)) with ((u * u + v * v) / (d * d))
    by (field; assumption).
  rewrite <- Hs. field. assumption.
Qed.

(** With coincident centres the normal is the zero vector. *)
Lemma normal_degenerate (ta tb : Transform) :
  Contact.dist ta tb = 0 -> Contact.nx ta tb = 0 /\ Contact.ny ta tb = 0.
Proof.
  intros Hd. unfold Contact.nx, Contact.ny. rewrite Hd.
  split; apply div_or_zero_zero.
Qed.

Section CollidePair.

Variables (i j : nat) (a b : GameObject).
Variables (aCollider bCollider : Collider).
Variables (aTransform bTransform : Transform).

Hypothesis HbCollider : getCollider b = Some bCollider.
Hypothesis HaTransform : getTransform a = Some aTransform.
Hypothesis HbTransform : getTransform b = Some bTransform.

(** Out of reach: nothing but the two reads. *)
Lemma collide_apart :
  ~ Contact.dist aTransform bTransform < Contact.minDist aCollider bCollider ->
  collide i j aCollider a b = ([EInspect j; EInspect i], Returns (a, b)).
Proof.
  intros Hfar. unfold collide, read_transform.
  rewrite HbCollider, HbTransform, HaTransform. simpl.
  destruct (Rlt_dec _ _) as [Hlt|_]; [|reflexivity].
  exfalso; apply Hfar; exact Hlt.
Qed.

(** One side without a RigidBody: nothing but the two reads. *)
Lemma collide_ghost :
  getRigidBody a = None \/ getRigidBody b = None ->
  collide i j aCollider a b = ([EInspect j; EInspect i], Returns (a, b)).
Proof.
  intros Hg. unfold collide, read_transform.
  rewrite HbCollider, HbTransform, HaTransform. simpl.
  destruct (Rlt_dec _ _) as [_|_]; [|reflexivity].
  destruct Hg as [Hg|Hg]; rewrite Hg; [reflexivity|].
  destruct (getRigidBody a); reflexivity.
Qed.

Variables (aRigid bRigid : RigidBody).
Hypothesis HaRigid : getRigidBody a = Some aRigid.
Hypothesis HbRigid : getRigidBody b = Some bRigid.

Let aT' := Contact.aCorrected aCollider bCollider aTransform bTransform aRigid bRigid.
Let bT' := Contact.bCorrected aCollider bCollider aTransform bTransform aRigid bRigid.
Let aR' := Contact.aBounced aTransform bTransform aRigid bRigid.
Let bR' := Contact.bBounced aTransform bTransform aRigid bRigid.

(** Overlapping and already separating: correction only. *)
Lemma collide_separating :
  Contact.dist aTransform bTransform < Contact.minDist aCollider bCollider ->
  Contact.velAlongNormal aTransform bTransform aRigid bRigid > 0 ->
  collide i j aCollider a b
  = ([EInspect j; EInspect i],
     Returns (setTransform aT' a, setTransform bT' b)).
Proof.
  intros Hlt Hsep. unfold collide, read_transform.
  rewrite HbCollider, HbTransform, HaTransform. simpl.
  destruct (Rlt_dec _ _) as [_|Hn]; [|exfalso; apply Hn; exact Hlt].
  rewrite HaRigid, HbRigid.
  destruct (Rgt_dec _ _) as [_|Hn]; [reflexivity|].
  exfalso; apply Hn; exact Hsep.
Qed.

(** Overlapping and approaching: correction and impulse. *)
Lemma collide_approaching :
  Contact.dist aTransform bTransform < Contact.minDist aCollider bCollider ->
  Contact.velAlongNormal aTransform bTransform aRigid bRigid <= 0 ->
  collide i j aCollider a b
  = ([EInspect j; EInspect i],
     Returns (setRigidBody aR' (setTransform aT' a),
              setRigidBody bR' (setTransform bT' b))).
Proof.
  intros Hlt Happ. unfold collide, read_transform.
  rewrite HbCollider, HbTransform, HaTransform. simpl.
  destruct (Rlt_dec _ _) as [_|Hn]; [|exfalso; apply Hn; exact Hlt].
  rewrite HaRigid, HbRigid.
  destruct (Rgt_dec _ _) as [Hgt|_]; [|reflexivity].
  exfalso. unfold Contact.velAlongNormal, Contact.relVelX, Contact.relVelY,
    Contact.nx, Contact.ny, Contact.dist, Contact.dx, Contact.dy in Happ.
  lra.
Qed.

End CollidePair.

(** The corrected Transform and the bounced RigidBody sit where the
    originals were. *)
Lemma collide_result_lookup (a : GameObject) (t t' : Transform) (rb rb' : RigidBody) :
  getTransform a = Some t -> getRigidBody a = Some rb ->
  getTransform (setTransform t' a) = Some t'
  /\ getRigidBody (setTransform t' a) = Some rb
  /\ getTransform (setRigidBody rb' (setTransform t' a)) = Some t'
  /\ getRigidBody (setRigidBody rb' (setTransform t' a)) = Some rb'.
Proof.
  intros Ht Hrb. autorewrite with lookup. rewrite Ht, Hrb. auto.
Qed.

(** C3. For a pair of overlapping entities ([0 < dist < radiusA + radiusB])
    that both carry Transform, Collider and RigidBody (of positive mass, as
    the constructor leaves it), the resolver moves A
    backward and B forward along the unit normal [n = delta / dist] by
    [overlap * massB / (massA + massB)] and [overlap * massA / (massA + massB)];
    the two shifts add up to the overlap, which is also the growth of the
    separation along [n], and the heavier body moves less. *)
Theorem collide_positional_correction
        (i j : nat) (a b : GameObject) (aCollider bCollider : Collider)
        (aTransform bTransform : Transform) (aRigid bRigid : RigidBody) :
  getCollider a = Some aCollider -> getCollider b = Some bCollider ->
  getTransform a = Some aTransform -> getTransform b = Some bTransform ->
  getRigidBody a = Some aRigid -> getRigidBody b = Some bRigid ->
  0 < mass aRigid -> 0 < mass bRigid ->
  0 < Contact.dist aTransform bTransform ->
  Contact.dist aTransform bTransform < radius aCollider + radius bCollider ->
  exists a' b' aTransform' bTransform',
    outcome_of (collide i j aCollider a b) = Returns (a', b')
    /\ getTransform a' = Some aTransform'
    /\ getTransform b' = Some bTransform'
    /\ separated_along_normal aCollider bCollider aTransform bTransform
         aRigid bRigid aTransform' bTransform'.
Proof.
  intros _ HbC HaT HbT HaR HbR HmA HmB Hpos Hlt.
  set (aT' := Contact.aCorrected aCollider bCollider aTransform bTransform aRigid bRigid).
  set (bT' := Contact.bCorrected aCollider bCollider aTransform bTransform aRigid bRigid).
  assert (Hpost : separated_along_normal aCollider bCollider aTransform bTransform
                    aRigid bRigid aT' bT').
  { pose proof (normal_unit aTransform bTransform Hpos) as Hunit.
    unfold Contact.nx, Contact.ny in Hunit.
    rewrite !div_or_zero_pos in Hunit by assumption.
    unfold separated_along_normal, aT', bT', Contact.aCorrected, Contact.bCorrected,
      Contact.correctionA, Contact.correctionB, Contact.totalMass, Contact.overlap,
      Contact.minDist, Contact.nx, Contact.ny.
    rewrite !div_or_zero_pos by assumption. simpl.
    set (d := Contact.dist aTransform bTransform) in *.
    set (nx := Contact.dx aTransform bTransform / d) in *.
    set (ny := Contact.dy aTransform bTransform / d) in *.
    set (ov := radius aCollider + radius bCollider - d).
    assert (Hov : 0 < ov) by (unfold ov; lra).
    set (mA := mass aRigid) in *. set (mB := mass bRigid) in *.
    assert (Hsum : mA + mB <> 0) by lra.
    assert (HsA : ov * mB / (mA + mB) + ov * mA / (mA + mB) = ov)
      by (field; assumption).
    assert (Hinv : 0 < / (mA + mB)) by (apply Rinv_0_lt_compat; lra).
    split; [exact Hunit|].
    split; [unfold Rdiv; ring|]. split; [unfold Rdiv; ring|].
    split; [unfold Rdiv; ring|]. split; [unfold Rdiv; ring|].
    split; [exact HsA|].
    split.
    { transitivity ((ov * mB / (mA + mB) + ov * mA / (mA + mB)) * (nx * nx + ny * ny)).
      - unfold Rdiv; ring.
      - rewrite HsA, Hunit; ring. }
    split; intros Hm; unfold Rdiv;
      apply Rmult_lt_compat_r; try assumption; nra. }
  destruct (collide_result_lookup a aTransform aT' aRigid aRigid HaT HaR)
    as (Ha1 & _ & Ha2 & _).
  destruct (collide_result_lookup b bTransform bT' bRigid bRigid HbT HbR)
    as (Hb1 & _ & Hb2 & _).
  destruct (Rle_or_lt (Contact.velAlongNormal aTransform bTransform aRigid bRigid) 0)
    as [Happ|Hsep].
  - rewrite (collide_approaching i j a b aCollider bCollider aTransform bTransform
               HbC HaT HbT aRigid bRigid HaR HbR Hlt Happ).
    do 2 eexists; exists aT', bT'. simpl. split; [reflexivity|].
    autorewrite with lookup. rewrite HaT, HbT. auto.
  - rewrite (collide_separating i j a b aCollider bCollider aTransform bTransform
               HbC HaT HbT aRigid bRigid HaR HbR Hlt Hsep).
    do 2 eexists; exists aT', bT'. simpl. split; [reflexivity|]. auto.
Qed.

(** *** The two balls *)

Lemma new_RigidBody_mass_pos (vel : Vector2.t) (av g fr re m bu : R) :
  0 < mass (new_RigidBody vel av g fr re m bu).
Proof. simpl. destruct (Rle_dec m 0); lra. Qed.

Lemma balls_dist : Contact.dist ball_a_transform ball_b_transform = 16.
Proof.
  unfold Contact.dist, Contact.dx, Contact.dy. simpl.
  replace (16 - 0) with 16 by lra. replace (0 - 0) with 0 by lra.
  apply hypot_axis; lra.
Qed.

Lemma balls_normal :
  Contact.nx ball_a_transform ball_b_transform = 1
  /\ Contact.ny ball_a_transform ball_b_transform = 0.
Proof.
  unfold Contact.nx, Contact.ny. rewrite balls_dist.
  rewrite !div_or_zero_pos by lra.
  unfold Contact.dx, Contact.dy; simpl. split; lra.
Qed.

Lemma balls_velAlongNormal :
  Contact.velAlongNormal ball_a_transform ball_b_transform ball_a_rigid ball_b_rigid
  = -10.
Proof.
  unfold Contact.velAlongNormal. destruct balls_normal as [-> ->].
  unfold Contact.relVelX, Contact.relVelY; simpl. lra.
Qed.

Lemma collide_positional_correction_witness :
  exists a' b' aTransform' bTransform',
    outcome_of (collide 0 1 ball_collider ball_a ball_b) = Returns (a', b')
    /\ getTransform a' = Some aTransform'
    /\ getTransform b' = Some bTransform'
    /\ separated_along_normal ball_collider ball_collider
         ball_a_transform ball_b_transform ball_a_rigid ball_b_rigid
         aTransform' bTransform'.
Proof.
  apply (collide_positional_correction 0 1 ball_a ball_b ball_collider ball_collider
           ball_a_transform ball_b_transform ball_a_rigid ball_b_rigid);
    try reflexivity; try apply new_RigidBody_mass_pos;
    rewrite balls_dist; simpl; lra.
Defined.

(** C4. For a colliding pair with both RigidBodies (of positive mass) and
    [velAlongNormal <= 0], the impulse step with
    [e = min(restitutionA, restitutionB)] and
    [j = -(1 + e) * velAlongNormal / (1 / massA + 1 / massB)], applied as
    [velA -= j * n / massA] and [velB += j * n / massB], leaves a relative
    velocity along the normal equal to [-e] times the one before, the
    normal being the unit vector [delta / dist] whenever the centres
    differ (with coincident centres it is [(0, 0)], and the velocities stay
    as they are). *)
Theorem collide_restitution
        (i j : nat) (a b : GameObject) (aCollider bCollider : Collider)
        (aTransform bTransform : Transform) (aRigid bRigid : RigidBody) :
  getCollider a = Some aCollider -> getCollider b = Some bCollider ->
  getTransform a = Some aTransform -> getTransform b = Some bTransform ->
  getRigidBody a = Some aRigid -> getRigidBody b = Some bRigid ->
  0 < mass aRigid -> 0 < mass bRigid ->
  Contact.dist aTransform bTransform < radius aCollider + radius bCollider ->
  Contact.velAlongNormal aTransform bTransform aRigid bRigid <= 0 ->
  exists a' b' aRigid' bRigid',
    outcome_of (collide i j aCollider a b) = Returns (a', b')
    /\ getRigidBody a' = Some aRigid'
    /\ getRigidBody b' = Some bRigid'
    /\ bounced_along_normal aTransform bTransform aRigid bRigid aRigid' bRigid'.
Proof.
  intros _ HbC HaT HbT HaR HbR HmA HmB Hlt Happ.
  rewrite (collide_approaching i j a b aCollider bCollider aTransform bTransform
             HbC HaT HbT aRigid bRigid HaR HbR Hlt Happ).
  do 2 eexists.
  exists (Contact.aBounced aTransform bTransform aRigid bRigid),
         (Contact.bBounced aTransform bTransform aRigid bRigid).
  simpl. split; [reflexivity|].
  autorewrite with lookup. rewrite HaR, HbR.
  split; [reflexivity|]. split; [reflexivity|].
  unfold bounced_along_normal.
  change (sqrt ((Vector2.x (position bTransform) - Vector2.x (position aTransform))
                * (Vector2.x (position bTransform) - Vector2.x (position aTransform))
                + (Vector2.y (position bTransform) - Vector2.y (position aTransform))
                  * (Vector2.y (position bTransform) - Vector2.y (position aTransform))))
    with (Contact.dist aTransform bTransform).
  change (Vector2.x (position bTransform) - Vector2.x (position aTransform))
    with (Contact.dx aTransform bTransform).
  change (Vector2.y (position bTransform) - Vector2.y (position aTransform))
    with (Contact.dy aTransform bTransform).
  set (e := Rmin (restitution aRigid) (restitution bRigid)).
  set (mA := mass aRigid) in *. set (mB := mass bRigid) in *.
  set (vax := Vector2.x (velocity aRigid)) in *.
  set (vay := Vector2.y (velocity aRigid)) in *.
  set (vbx := Vector2.x (velocity bRigid)) in *.
  set (vby := Vector2.y (velocity bRigid)) in *.
  assert (HmA' : mA <> 0) by lra. assert (HmB' : mB <> 0) by lra.
  split.
  - intros Hpos.
    pose proof (normal_unit aTransform bTransform Hpos) as Hunit.
    assert (Hnx : Contact.nx aTransform bTransform
                  = Contact.dx aTransform bTransform / Contact.dist aTransform bTransform)
      by (apply div_or_zero_pos; exact Hpos).
    assert (Hny : Contact.ny aTransform bTransform
                  = Contact.dy aTransform bTransform / Contact.dist aTransform bTransform)
      by (apply div_or_zero_pos; exact Hpos).
    rewrite Hnx, Hny in Hunit.
    set (nx := Contact.dx aTransform bTransform / Contact.dist aTransform bTransform) in *.
    set (ny := Contact.dy aTransform bTransform / Contact.dist aTransform bTransform) in *.
    set (van := (vbx - vax) * nx + (vby - vay) * ny).
    set (j_ := - (1 + e) * van / (1 / mA + 1 / mB)).
    assert (Hvan : Contact.velAlongNormal aTransform bTransform aRigid bRigid = van).
    { unfold Contact.velAlongNormal. rewrite Hnx, Hny. reflexivity. }
    assert (Hj_ : Contact.j aTransform bTransform aRigid bRigid = j_).
    { unfold Contact.j. rewrite Hvan. reflexivity. }
    split; [exact Hunit|]. split; [exact Hvan|].
    unfold Contact.aBounced, Contact.bBounced. simpl.
    rewrite Hnx, Hny, Hj_. fold vax vay vbx vby mA mB.
    do 4 (split; [reflexivity|]).
    assert (Hj : j_ * (1 / mA + 1 / mB) = - (1 + e) * van).
    { unfold j_. field. repeat split; lra. }
    transitivity (van + j_ * (1 / mA + 1 / mB) * (nx * nx + ny * ny)).
    { unfold van. field. split; assumption. }
    rewrite Hj, Hunit. ring.
  - intros Hz.
    destruct (normal_degenerate aTransform bTransform Hz) as [Hnx Hny].
    unfold Contact.aBounced, Contact.bBounced. simpl.
    rewrite Hnx, Hny. fold vax vay vbx vby mA mB.
    repeat split; unfold Rdiv; ring.
Qed.

Lemma collide_restitution_witness :
  exists a' b' aRigid' bRigid',
    outcome_of (collide 0 1 ball_collider ball_a ball_b) = Returns (a', b')
    /\ getRigidBody a' = Some aRigid'
    /\ getRigidBody b' = Some bRigid'
    /\ bounced_along_normal ball_a_transform ball_b_transform
         ball_a_rigid ball_b_rigid aRigid' bRigid'.
Proof.
  apply (collide_restitution 0 1 ball_a ball_b ball_collider ball_collider
           ball_a_transform ball_b_transform ball_a_rigid ball_b_rigid);
    try reflexivity; try apply new_RigidBody_mass_pos.
  - rewrite balls_dist; simpl; lra.
  - rewrite balls_velAlongNormal; lra.
Defined.

(** The two balls, approaching at 5 each with restitution 7/10, leave the
    contact at 7/2 each. *)
Lemma balls_bounce :
  exists a' b' aRigid' bRigid',
    outcome_of (collide 0 1 ball_collider ball_a ball_b) = Returns (a', b')
    /\ getRigidBody a' = Some aRigid'
    /\ getRigidBody b' = Some bRigid'
    /\ velocity aRigid' = vec2 (- (7 / 2)) 0
    /\ velocity bRigid' = vec2 (7 / 2) 0.
Proof.
  assert (Hlt : Contact.dist ball_a_transform ball_b_transform
                < radius ball_collider + radius ball_collider)
    by (rewrite balls_dist; simpl; lra).
  assert (Happ : Contact.velAlongNormal ball_a_transform ball_b_transform
                   ball_a_rigid ball_b_rigid <= 0)
    by (rewrite balls_velAlongNormal; lra).
  rewrite (collide_approaching 0 1 ball_a ball_b ball_collider ball_collider
             ball_a_transform ball_b_transform eq_refl eq_refl eq_refl
             ball_a_rigid ball_b_rigid eq_refl eq_refl Hlt Happ).
  do 2 eexists.
  exists (Contact.aBounced ball_a_transform ball_b_transform ball_a_rigid ball_b_rigid),
         (Contact.bBounced ball_a_transform ball_b_transform ball_a_rigid ball_b_rigid).
  split; [reflexivity|]. split; [reflexivity|]. split; [reflexivity|].
  unfold Contact.aBounced, Contact.bBounced, Contact.j, Contact.e.
  rewrite balls_velAlongNormal. destruct balls_normal as [-> ->].
  simpl. unfold Rmin.
  destruct (Rle_dec (7 / 10) (7 / 10)); [|lra].
  destruct (Rle_dec 1 0); [lra|].
  split; f_equal; field.
Qed.

(** C10. For a colliding pair with both RigidBodies (of positive mass), the
    resolver preserves total linear momentum: [massA * velA + massB * velB] is the same vector
    before and after, whatever the restitutions and the normal (the masses
    themselves are not touched). *)
Theorem collide_momentum
        (i j : nat) (a b : GameObject) (aCollider bCollider : Collider)
        (aTransform bTransform : Transform) (aRigid bRigid : RigidBody) :
  getCollider a = Some aCollider -> getCollider b = Some bCollider ->
  getTransform a = Some aTransform -> getTransform b = Some bTransform ->
  getRigidBody a = Some aRigid -> getRigidBody b = Some bRigid ->
  0 < mass aRigid -> 0 < mass bRigid ->
  Contact.dist aTransform bTransform < radius aCollider + radius bCollider ->
  exists a' b' aRigid' bRigid',
    outcome_of (collide i j aCollider a b) = Returns (a', b')
    /\ getRigidBody a' = Some aRigid'
    /\ getRigidBody b' = Some bRigid'
    /\ mass aRigid' = mass aRigid
    /\ mass bRigid' = mass bRigid
    /\ mass aRigid' * Vector2.x (velocity aRigid')
       + mass bRigid' * Vector2.x (velocity bRigid')
       = mass aRigid * Vector2.x (velocity aRigid)
         + mass bRigid * Vector2.x (velocity bRigid)
    /\ mass aRigid' * Vector2.y (velocity aRigid')
       + mass bRigid' * Vector2.y (velocity bRigid')
       = mass aRigid * Vector2.y (velocity aRigid)
         + mass bRigid * Vector2.y (velocity bRigid).
Proof.
  intros _ HbC HaT HbT HaR HbR HmA HmB Hlt.
  destruct (Rle_or_lt (Contact.velAlongNormal aTransform bTransform aRigid bRigid) 0)
    as [Happ|Hsep].
  - rewrite (collide_approaching i j a b aCollider bCollider aTransform bTransform
               HbC HaT HbT aRigid bRigid HaR HbR Hlt Happ).
    do 2 eexists.
    exists (Contact.aBounced aTransform bTransform aRigid bRigid),
           (Contact.bBounced aTransform bTransform aRigid bRigid).
    simpl. split; [reflexivity|].
    autorewrite with lookup. rewrite HaR, HbR.
    do 4 (split; [reflexivity|]).
    split; field; lra.
  - rewrite (collide_separating i j a b aCollider bCollider aTransform bTransform
               HbC HaT HbT aRigid bRigid HaR HbR Hlt Hsep).
    do 2 eexists. exists aRigid, bRigid.
    simpl. split; [reflexivity|].
    autorewrite with lookup. rewrite HaR, HbR. repeat split; reflexivity.
Qed.

Lemma collide_momentum_witness :
  exists a' b' aRigid' bRigid',
    outcome_of (collide 0 1 ball_collider ball_a ball_b) = Returns (a', b')
    /\ getRigidBody a' = Some aRigid'
    /\ getRigidBody b' = Some bRigid'
    /\ mass aRigid' = mass ball_a_rigid
    /\ mass bRigid' = mass ball_b_rigid
    /\ mass aRigid' * Vector2.x (velocity aRigid')
       + mass bRigid' * Vector2.x (velocity bRigid')
       = mass ball_a_rigid * Vector2.x (velocity ball_a_rigid)
         + mass ball_b_rigid * Vector2.x (velocity ball_b_rigid)
    /\ mass aRigid' * Vector2.y (velocity aRigid')
       + mass bRigid' * Vector2.y (velocity bRigid')
       = mass ball_a_rigid * Vector2.y (velocity ball_a_rigid)
         + mass ball_b_rigid * Vector2.y (velocity ball_b_rigid).
Proof.
  apply (collide_momentum 0 1 ball_a ball_b ball_collider ball_collider
           ball_a_transform ball_b_transform ball_a_rigid ball_b_rigid);
    try reflexivity; try apply new_RigidBody_mass_pos.
  rewrite balls_dist; simpl; lra.
Defined.

(** ** CollisionSystem.update: a scene of two entities *)

Lemma CollisionSystem_update_two (a b : GameObject) (aCollider : Collider) (dt : R) :
  getCollider a = Some aCollider ->
  CollisionSystem_update [a; b] dt
  = (ab <- collide 0 1 aCollider a b ;; ret [fst ab; snd ab]).
Proof.
  intros HaC. unfold CollisionSystem_update, for_range. simpl. rewrite HaC. simpl.
  destruct (collide 0 1 aCollider a b) as [l [[a' b']|]]; simpl; [|reflexivity].
  destruct (getCollider b'); simpl; rewrite ?app_nil_r; reflexivity.
Qed.

Lemma collide_throws (i j : nat) (a b : GameObject) (aCollider bCollider : Collider) :
  getCollider b = Some bCollider ->
  getTransform a = None \/ getTransform b = None ->
  outcome_of (collide i j aCollider a b) = Throws.
Proof.
  intros HbC H. unfold collide, read_transform. rewrite HbC.
  destruct (getTransform b) as [tb|]; [|reflexivity].
  destruct H as [H|H]; [rewrite H; reflexivity | discriminate].
Qed.

(** C6. For a pair of entities that both carry a Collider and overlap, if
    at least one of the two has no RigidBody, the pair's step changes
    nothing, and a resolver pass over the two returns both entities as they
    were: no velocity and no position is touched. *)
Theorem collide_ghost_collider
        (i j : nat) (a b : GameObject) (aCollider bCollider : Collider)
        (aTransform bTransform : Transform) (dt : R) :
  getCollider a = Some aCollider -> getCollider b = Some bCollider ->
  getTransform a = Some aTransform -> getTransform b = Some bTransform ->
  Contact.dist aTransform bTransform < radius aCollider + radius bCollider ->
  getRigidBody a = None \/ getRigidBody b = None ->
  outcome_of (collide i j aCollider a b) = Returns (a, b)
  /\ outcome_of (CollisionSystem_update [a; b] dt) = Returns [a; b].
Proof.
  intros HaC HbC HaT HbT _ Hg.
  rewrite (CollisionSystem_update_two a b aCollider dt HaC).
  rewrite !(collide_ghost _ _ a b aCollider bCollider aTransform bTransform
              HbC HaT HbT Hg).
  split; reflexivity.
Qed.

Lemma collide_ghost_collider_witness :
  outcome_of (collide 0 1 ball_collider ghost ball_b) = Returns (ghost, ball_b)
  /\ outcome_of (CollisionSystem_update [ghost; ball_b] (1 / 60))
     = Returns [ghost; ball_b].
Proof.
  apply (collide_ghost_collider 0 1 ghost ball_b ball_collider ball_collider
           ball_a_transform ball_b_transform (1 / 60));
    try reflexivity.
  - rewrite balls_dist; simpl; lra.
  - left; reflexivity.
Defined.

Lemma with_position_same (t : Transform) (px py : R) :
  px = Vector2.x (position t) -> py = Vector2.y (position t) ->
  with_position (vec2 px py) t = t.
Proof. destruct t as [[x0 y0] r0 a0 s0]; simpl; intros -> ->; reflexivity. Qed.

Lemma with_velocity_same (rb : RigidBody) (vx vy : R) :
  vx = Vector2.x (velocity rb) -> vy = Vector2.y (velocity rb) ->
  with_velocity (vec2 vx vy) rb = rb.
Proof. destruct rb as [[x0 y0] ? ? ? ? ? ?]; simpl; intros -> ->; reflexivity. Qed.

(** C8. For a pair of exactly coincident colliders ([dist = 0]) that both
    carry a RigidBody (of positive mass), the pair's step and a resolver pass over the two
    return normally; the normal is [(0, 0)], and both entities come out as
    they went in: positions and velocities unchanged. *)
Theorem collide_coincident
        (i j : nat) (a b : GameObject) (aCollider bCollider : Collider)
        (aTransform bTransform : Transform) (aRigid bRigid : RigidBody) (dt : R) :
  getCollider a = Some aCollider -> getCollider b = Some bCollider ->
  getTransform a = Some aTransform -> getTransform b = Some bTransform ->
  getRigidBody a = Some aRigid -> getRigidBody b = Some bRigid ->
  0 < mass aRigid -> 0 < mass bRigid ->
  Contact.dist aTransform bTransform = 0 ->
  Contact.nx aTransform bTransform = 0
  /\ Contact.ny aTransform bTransform = 0
  /\ Contact.velAlongNormal aTransform bTransform aRigid bRigid = 0
  /\ Contact.j aTransform bTransform aRigid bRigid = 0
  /\ outcome_of (collide i j aCollider a b) = Returns (a, b)
  /\ outcome_of (CollisionSystem_update [a; b] dt) = Returns [a; b].
Proof.
  intros HaC HbC HaT HbT HaR HbR HmA HmB Hz.
  destruct (normal_degenerate aTransform bTransform Hz) as [Hnx Hny].
  assert (Hvan : Contact.velAlongNormal aTransform bTransform aRigid bRigid = 0).
  { unfold Contact.velAlongNormal. rewrite Hnx, Hny. ring. }
  assert (Hj : Contact.j aTransform bTransform aRigid bRigid = 0).
  { unfold Contact.j. rewrite Hvan. unfold Rdiv. ring. }
  assert (Hpair : forall i' j', outcome_of (collide i' j' aCollider a b) = Returns (a, b)).
  { intros i' j'.
    destruct (Rlt_dec (Contact.dist aTransform bTransform)
                      (Contact.minDist aCollider bCollider)) as [Hlt|Hfar].
    - rewrite (collide_approaching i' j' a b aCollider bCollider aTransform bTransform
                 HbC HaT HbT aRigid bRigid HaR HbR Hlt) by lra.
      simpl. unfold Contact.aCorrected, Contact.bCorrected,
        Contact.aBounced, Contact.bBounced.
      rewrite Hnx, Hny, Hj.
      rewrite !with_position_same by ring.
      rewrite !with_velocity_same by (unfold Rdiv; ring).
      rewrite (setTransform_same a aTransform HaT), (setTransform_same b bTransform HbT).
      rewrite (setRigidBody_same a aRigid HaR), (setRigidBody_same b bRigid HbR).
      reflexivity.
    - rewrite (collide_apart i' j' a b aCollider bCollider aTransform bTransform
                 HbC HaT HbT Hfar). reflexivity. }
  repeat (split; [assumption|]). split; [apply Hpair|].
  rewrite (CollisionSystem_update_two a b aCollider dt HaC).
  specialize (Hpair 0%nat 1%nat).
  destruct (collide 0 1 aCollider a b) as [l [[a' b']|]]; simpl in *;
    [injection Hpair as -> ->; reflexivity | discriminate].
Qed.

Lemma coincident_dist : Contact.dist ball_a_transform ball_a_transform = 0.
Proof.
  unfold Contact.dist, Contact.dx, Contact.dy. simpl.
  replace (0 - 0) with 0 by lra. apply hypot_axis; lra.
Qed.

Lemma collide_coincident_witness :
  Contact.nx ball_a_transform ball_a_transform = 0
  /\ Contact.ny ball_a_transform ball_a_transform = 0
  /\ Contact.velAlongNormal ball_a_transform ball_a_transform
       ball_a_rigid ball_b_rigid = 0
  /\ Contact.j ball_a_transform ball_a_transform ball_a_rigid ball_b_rigid = 0
  /\ outcome_of (collide 0 1 ball_collider ball_a ball_on_a)
     = Returns (ball_a, ball_on_a)
  /\ outcome_of (CollisionSystem_update [ball_a; ball_on_a] (1 / 60))
     = Returns [ball_a; ball_on_a].
Proof.
  apply (collide_coincident 0 1 ball_a ball_on_a ball_collider ball_collider
           ball_a_transform ball_a_transform ball_a_rigid ball_b_rigid (1 / 60));
    try reflexivity; try apply new_RigidBody_mass_pos.
  apply coincident_dist.
Defined.

(** C9. [RigidBody.update] and [handleBoundary] skip an entity with a
    missing component, but a pass of [CollisionSystem.update] over two
    entities that carry a Collider and no Transform throws, and so does the
    tick of a driver that has the resolver as a plugin. *)
Theorem CollisionSystem_update_throws_without_Transform :
  (forall k this go dt, getTransform go = None -> RigidBody_update k this go dt = go)
  /\ (forall cv obj,
         getTransform obj = None \/ getRigidBody obj = None \/ getCollider obj = None ->
         handleBoundary cv obj = obj)
  /\ CollisionSystem_update [bare_a; bare_b] (1 / 60) = ([], Throws)
  /\ Game_update bare_game (1 / 60) = ([], Throws).
Proof.
  split; [|split; [|split]].
  - intros k this go dt H. unfold RigidBody_update. rewrite H. reflexivity.
  - intros cv obj H. unfold handleBoundary.
    destruct (getTransform obj); [|reflexivity].
    destruct (getRigidBody obj); [|reflexivity].
    destruct (getCollider obj); [|reflexivity].
    destruct H as [H|[H|H]]; discriminate.
  - reflexivity.
  - reflexivity.
Qed.

(** ** Game.update: the order of the phases of a tick *)

Lemma log_of_bind {A B : Type} (m : M A) (f : A -> M B) :
  log_of (bind m f)
  = log_of m ++ match outcome_of m with
                | Returns a => log_of (f a)
                | Throws => []
                end.
Proof.
  destruct m as [l [a|]]; simpl.
  - destruct (f a); reflexivity.
  - rewrite app_nil_r; reflexivity.
Qed.

Lemma bind_log_Forall {A B : Type} (P : Event -> Prop) (m : M A) (f : A -> M B) :
  Forall P (log_of m) -> (forall a, Forall P (log_of (f a))) ->
  Forall P (log_of (bind m f)).
Proof.
  intros Hm Hf. rewrite log_of_bind. apply Forall_app; split; [exact Hm|].
  destruct (outcome_of m); [apply Hf | constructor].
Qed.

Lemma foldM_log_Forall {A S : Type} (P : Event -> Prop)
      (body : A -> S -> M S) (l : list A) :
  (forall v s, Forall P (log_of (body v s))) ->
  forall s, Forall P (log_of (foldM body l s)).
Proof.
  intros Hbody. induction l as [|v l IH]; intros s; simpl.
  - constructor.
  - apply bind_log_Forall; [apply Hbody | apply IH].
Qed.

Lemma collide_log (i j : nat) (aCollider : Collider) (a b : GameObject) :
  Forall is_inspect (log_of (collide i j aCollider a b)).
Proof.
  unfold collide, read_transform.
  destruct (getCollider b); [|constructor].
  destruct (getTransform b); [|constructor].
  destruct (getTransform a); [|repeat constructor].
  simpl.
  destruct (Rlt_dec _ _); [|repeat constructor].
  destruct (getRigidBody a); [|repeat constructor].
  destruct (getRigidBody b); [|repeat constructor].
  destruct (Rgt_dec _ _); repeat constructor.
Qed.

Lemma CollisionSystem_update_log (objs : list GameObject) (dt : R) :
  Forall is_inspect (log_of (CollisionSystem_update objs dt)).
Proof.
  unfold CollisionSystem_update, for_range.
  apply foldM_log_Forall. intros i s.
  destruct (nth_error s i) as [a|]; [|constructor].
  destruct (getCollider a) as [aCollider|]; [|constructor].
  apply foldM_log_Forall. intros j s'.
  destruct (nth_error s' i) as [a'|]; [|constructor].
  destruct (nth_error s' j) as [b'|]; [|constructor].
  apply bind_log_Forall; [apply collide_log | intros; constructor].
Qed.

Lemma GameObject_update_log (i : nat) (go : GameObject) (dt : R) :
  Forall is_motion (log_of (GameObject_update i go dt)).
Proof.
  unfold GameObject_update, for_range.
  apply bind_log_Forall.
  - apply foldM_log_Forall. intros k s.
    destruct (nth_error (components s) k) as [c|]; [|constructor].
    destruct c; simpl; repeat constructor.
  - intros go'. apply foldM_log_Forall. intros p s.
    destruct p; constructor.
Qed.

(** The log of a tick: the resolver's reads, then integration and boundary
    handling. *)
Lemma Game_update_log_phases (g : Game) (dt : R) :
  exists reads moves,
    log_of (Game_update g dt) = reads ++ moves
    /\ Forall is_inspect reads /\ Forall is_motion moves.
Proof.
  unfold Game_update. rewrite log_of_bind.
  eexists; eexists. split; [reflexivity|]. split.
  - apply foldM_log_Forall. intros p s. destruct p; simpl.
    + constructor.
    + apply CollisionSystem_update_log.
  - destruct (outcome_of _) as [objs|]; [|constructor].
    apply bind_log_Forall; [|intros; constructor].
    unfold for_range. apply foldM_log_Forall. intros i s.
    destruct (nth_error s i) as [obj|]; [|constructor].
    apply bind_log_Forall; [apply GameObject_update_log|].
    intros obj'. apply bind_log_Forall; [|intros; constructor].
    destruct (boundaryEnabled g); simpl; repeat constructor.
Qed.

Lemma phases_suffix (reads moves l1 l2 : list Event) (x : Event) :
  reads ++ moves = l1 ++ x :: l2 ->
  Forall is_inspect reads -> Forall is_motion moves -> is_motion x ->
  Forall is_motion l2.
Proof.
  revert l1. induction reads as [|e reads IH]; intros l1 Heq Hr Hm Hx; simpl in Heq.
  - rewrite Heq in Hm. apply Forall_app in Hm. destruct Hm as [_ Hm].
    inversion Hm; assumption.
  - inversion Hr as [|? ? He Hr']; subst.
    destruct l1 as [|e1 l1]; simpl in Heq; injection Heq as -> Heq.
    + destruct x; simpl in *; contradiction.
    + eapply IH; eassumption.
Qed.

Lemma two_balls_log :
  log_of (Game_update two_balls_game (1 / 60))
  = [EInspect 1; EInspect 0; EIntegrate 0; EIntegrate 1].
Proof.
  unfold Game_update, two_balls_game. cbn [plugins objects foldM Plugin_update].
  rewrite (CollisionSystem_update_two ball_a ball_b ball_collider _ eq_refl).
  rewrite (collide_approaching 0 1 ball_a ball_b ball_collider ball_collider
             ball_a_transform ball_b_transform eq_refl eq_refl eq_refl
             ball_a_rigid ball_b_rigid eq_refl eq_refl).
  2: { rewrite balls_dist; unfold Contact.minDist; simpl; lra. }
  2: { rewrite balls_velAlongNormal; lra. }
  set (aT := Contact.aCorrected _ _ _ _ _ _).
  set (bT := Contact.bCorrected _ _ _ _ _ _).
  set (aR := Contact.aBounced _ _ _ _).
  set (bR := Contact.bBounced _ _ _ _).
  unfold for_range, ball_a, ball_b, setRigidBody, setTransform.
  cbn -[integrate].
  reflexivity.
Qed.

(** C1, as stated, fails: in the tick of [two_balls_game] the resolver
    reads both Transforms before any entity has integrated. *)
Lemma Game_update_integration_first_counterexample :
  ~ (forall l1 l2 i k,
        log_of (Game_update two_balls_game (1 / 60)) = l1 ++ EInspect i :: l2 ->
        ~ In (EIntegrate k) l2).
Proof.
  intros H.
  apply (H [] [EInspect 0%nat; EIntegrate 0%nat; EIntegrate 1%nat] 1%nat 0%nat).
  - exact two_balls_log.
  - simpl; auto.
Qed.

(** C1, amended. In every tick of [Game.update] the driver's plugins run
    first: every read of a Transform by the collision resolver happens
    before any entity's [RigidBody.update] of that tick, so once an entity
    has integrated the resolver reads no Transform any more in that tick
    (the resolver works on the positions the previous tick left, and the
    two phases are not interleaved). *)
Theorem Game_update_resolver_before_integration
        (g : Game) (dt : R) (l1 l2 : list Event) (k i : nat) :
  log_of (Game_update g dt) = l1 ++ EIntegrate k :: l2 ->
  ~ In (EInspect i) l2.
Proof.
  intros Hlog Hin.
  destruct (Game_update_log_phases g dt) as (reads & moves & Heq & Hr & Hm).
  rewrite Heq in Hlog.
  pose proof (phases_suffix reads moves l1 l2 (EIntegrate k) Hlog Hr Hm I) as Hl2.
  rewrite Forall_forall in Hl2. exact (Hl2 _ Hin).
Qed.

Lemma Game_update_resolver_before_integration_witness :
  ~ In (EInspect 0) [EIntegrate 1%nat].
Proof.
  apply (Game_update_resolver_before_integration two_balls_game (1 / 60)
           [EInspect 1%nat; EInspect 0%nat] [EIntegrate 1%nat] 0%nat 0%nat).
  exact two_balls_log.
Defined.

(** ** CollisionSystem.update: whole passes *)

Lemma outcome_of_bind {A B : Type} (m : M A) (f : A -> M B) :
  outcome_of (bind m f)
  = match outcome_of m with
    | Returns a => outcome_of (f a)
    | Throws => Throws
    end.
Proof.
  destruct m as [l [a|]]; simpl; [|reflexivity].
  destruct (f a); reflexivity.
Qed.

(** A loop keeps what each of its iterations keeps. *)
Lemma foldM_invariant {A S : Type} (I : S -> Prop)
      (body : A -> S -> M S) (l : list A) :
  (forall v s s', I s -> outcome_of (body v s) = Returns s' -> I s') ->
  forall s s', I s -> outcome_of (foldM body l s) = Returns s' -> I s'.
Proof.
  intros Hbody. induction l as [|v l IH]; intros s s' Hs; simpl.
  - intros H; injection H as <-; exact Hs.
  - rewrite outcome_of_bind.
    destruct (outcome_of (body v s)) as [s1|] eqn:E; [|discriminate].
    apply IH. eapply Hbody; eassumption.
Qed.

(** A loop returns when each of its iterations does. *)
Lemma foldM_returns {A S : Type} (I : S -> Prop)
      (body : A -> S -> M S) (l : list A) :
  (forall v s, I s -> exists s', outcome_of (body v s) = Returns s' /\ I s') ->
  forall s, I s -> exists s', outcome_of (foldM body l s) = Returns s' /\ I s'.
Proof.
  intros Hbody. induction l as [|v l IH]; intros s Hs; simpl.
  - exists s; split; [reflexivity | exact Hs].
  - rewrite outcome_of_bind.
    destruct (Hbody v s Hs) as (s1 & E & Hs1). rewrite E. apply IH; exact Hs1.
Qed.

Lemma nth_error_set_nth_lt {A : Type} (l : list A) (k : nat) (v : A) :
  (k < length l)%nat -> nth_error (set_nth k v l) k = Some v.
Proof.
  intros Hk. destruct (nth_error l k) as [w|] eqn:E.
  - eapply nth_error_set_nth; exact E.
  - apply nth_error_None in E. lia.
Qed.

(** A pair with a side that has no RigidBody comes out as it went in. *)
Lemma collide_frame (i j : nat) (aCollider : Collider) (a b a' b' : GameObject) :
  outcome_of (collide i j aCollider a b) = Returns (a', b') ->
  getRigidBody a = None \/ getRigidBody b = None ->
  a' = a /\ b' = b.
Proof.
  unfold collide, read_transform. intros H Hg.
  destruct (getCollider b); [|injection H as <- <-; auto].
  destruct (getTransform b); [|discriminate].
  destruct (getTransform a); [|discriminate].
  simpl in H.
  destruct (Rlt_dec _ _); [|injection H as <- <-; auto].
  destruct (getRigidBody a); [|injection H as <- <-; auto].
  destruct (getRigidBody b); [|injection H as <- <-; auto].
  destruct Hg; discriminate.
Qed.

(** X1. Frame of a pass: in any scene, an entity without a RigidBody is left
    exactly as it was by a resolver pass that returns. *)
Theorem CollisionSystem_update_ghost_frame (objs objs' : list GameObject) (dt : R) :
  outcome_of (CollisionSystem_update objs dt) = Returns objs' ->
  forall k go,
    nth_error objs k = Some go -> getRigidBody go = None ->
    nth_error objs' k = Some go.
Proof.
  set (I := fun s : list GameObject =>
              forall k go, nth_error objs k = Some go -> getRigidBody go = None ->
                           nth_error s k = Some go).
  intros H. change (I objs').
  unfold CollisionSystem_update, for_range in H.
  revert H. apply foldM_invariant; [|intros k go Hk _; exact Hk].
  intros i s s' Hs.
  destruct (nth_error s i) as [a0|]; [|intros E; injection E as <-; exact Hs].
  destruct (getCollider a0) as [aCollider|]; [|intros E; injection E as <-; exact Hs].
  unfold for_range. apply foldM_invariant; [|exact Hs].
  clear s s' Hs a0. intros j s s' Hs.
  destruct (nth_error s i) as [a|] eqn:Ea; [|intros E; injection E as <-; exact Hs].
  destruct (nth_error s j) as [b|] eqn:Eb; [|intros E; injection E as <-; exact Hs].
  rewrite outcome_of_bind.
  destruct (outcome_of (collide i j aCollider a b)) as [[a' b']|] eqn:Ec; [|discriminate].
  simpl. intros E; injection E as <-.
  intros k go Hk Hg. specialize (Hs k go Hk Hg).
  assert (Hi : (i < length s)%nat) by (apply nth_error_Some; congruence).
  assert (Hj : (j < length s)%nat) by (apply nth_error_Some; congruence).
  destruct (Nat.eq_dec j k) as [->|Hjk].
  - rewrite nth_error_set_nth_lt by (rewrite length_set_nth; exact Hj).
    assert (b = go) by congruence; subst b.
    destruct (collide_frame _ _ _ _ _ _ _ Ec (or_intror Hg)) as [_ ->]. reflexivity.
  - rewrite nth_error_set_nth_other by exact Hjk.
    destruct (Nat.eq_dec i k) as [->|Hik].
    + rewrite nth_error_set_nth_lt by exact Hi.
      assert (a = go) by congruence; subst a.
      destruct (collide_frame _ _ _ _ _ _ _ Ec (or_introl Hg)) as [-> _]. reflexivity.
    + rewrite nth_error_set_nth_other by exact Hik. exact Hs.
Qed.

Lemma collide_returns (i j : nat) (aCollider : Collider) (a b : GameObject) :
  getTransform a <> None -> placed b ->
  exists a' b',
    outcome_of (collide i j aCollider a b) = Returns (a', b')
    /\ getCollider a' = getCollider a /\ getCollider b' = getCollider b
    /\ getTransform a' <> None /\ placed b'.
Proof.
  unfold collide, read_transform, placed. intros Ha Hb.
  destruct (getCollider b) as [bCollider|] eqn:EbC.
  2: { exists a, b. rewrite EbC. repeat split; auto. }
  destruct (getTransform b) as [tb|] eqn:Etb; [|exfalso; apply Hb; congruence].
  destruct (getTransform a) as [ta|] eqn:Eta; [|contradiction].
  simpl.
  assert (Hsame : exists a' b', Returns (a, b) = Returns (a', b')
            /\ getCollider a' = getCollider a /\ getCollider b' = Some bCollider
            /\ getTransform a' <> None
            /\ (getCollider b' <> None -> getTransform b' <> None)).
  { exists a, b. rewrite Eta, Etb, EbC. repeat split; congruence. }
  destruct (Rlt_dec _ _); [|exact Hsame].
  destruct (getRigidBody a) as [ra|] eqn:Era; [|exact Hsame].
  destruct (getRigidBody b) as [rb|] eqn:Erb; [|exact Hsame].
  destruct (Rgt_dec _ _); do 2 eexists; (split; [reflexivity|]);
    autorewrite with lookup; rewrite ?Eta, ?Etb, ?EbC; repeat split; congruence.
Qed.

Lemma Forall_set_nth {A : Type} (P : A -> Prop) (l : list A) (k : nat) (v : A) :
  Forall P l -> P v -> Forall P (set_nth k v l).
Proof.
  intros Hl Hv. revert k. induction Hl as [|a l Ha Hl IH]; intros [|k]; simpl;
    constructor; auto.
Qed.

(** X2. Totality of a pass: when every entity that carries a Collider also
    carries a Transform, [CollisionSystem.update] returns, with a scene of
    the same length. *)
Theorem CollisionSystem_update_returns (objs : list GameObject) (dt : R) :
  Forall placed objs ->
  exists objs',
    outcome_of (CollisionSystem_update objs dt) = Returns objs'
    /\ Forall placed objs' /\ length objs' = length objs.
Proof.
  intros Hobjs.
  set (I := fun s : list GameObject => Forall placed s /\ length s = length objs).
  assert (H : exists objs', outcome_of (CollisionSystem_update objs dt) = Returns objs'
                            /\ I objs').
  { unfold CollisionSystem_update, for_range.
    apply foldM_returns; [|split; [exact Hobjs | reflexivity]].
    intros i s Hs.
    destruct (nth_error s i) as [a0|] eqn:Ea0; [|exists s; split; [reflexivity | exact Hs]].
    destruct (getCollider a0) as [aCollider|] eqn:Ec0;
      [|exists s; split; [reflexivity | exact Hs]].
    set (J := fun s' : list GameObject =>
                I s' /\ exists a, nth_error s' i = Some a /\ getCollider a <> None).
    assert (HJ : exists s', outcome_of
                   (for_range (S i) (length s)
                      (fun j objs0 =>
                         match nth_error objs0 i, nth_error objs0 j with
                         | Some a, Some b =>
                             ab <- collide i j aCollider a b ;;
                             ret (set_nth j (snd ab) (set_nth i (fst ab) objs0))
                         | _, _ => ret objs0
                         end) s) = Returns s' /\ J s').
    { unfold for_range. apply foldM_returns.
      2: { split; [exact Hs|]. exists a0. split; [exact Ea0 | congruence]. }
      clear s Hs a0 Ea0 Ec0. intros j s [[Hpl Hlen] (a & Ea & HaC)].
      rewrite Ea.
      destruct (nth_error s j) as [b|] eqn:Eb.
      2: { exists s. split; [reflexivity|]. split; [split; assumption|].
           exists a; auto. }
      rewrite Forall_forall in Hpl.
      assert (HaT : getTransform a <> None)
        by (apply (Hpl a); [eapply nth_error_In; exact Ea | exact HaC]).
      assert (Hb : placed b) by (apply (Hpl b); eapply nth_error_In; exact Eb).
      destruct (collide_returns i j aCollider a b HaT Hb)
        as (a' & b' & Ec & HaC' & HbC' & HaT' & Hb').
      rewrite outcome_of_bind, Ec. simpl.
      eexists; split; [reflexivity|].
      assert (Ha' : placed a') by (intros _; exact HaT').
      assert (Hi : (i < length s)%nat) by (apply nth_error_Some; congruence).
      split; [split|].
      - apply Forall_set_nth; [apply Forall_set_nth|]; try assumption.
        apply Forall_forall; exact Hpl.
      - rewrite !length_set_nth; exact Hlen.
      - destruct (Nat.eq_dec j i) as [->|Hji].
        + exists b'. split; [apply nth_error_set_nth_lt; rewrite length_set_nth; exact Hi|].
          rewrite HbC'. assert (b = a) by congruence. subst b. exact HaC.
        + exists a'. split; [|rewrite HaC'; exact HaC].
          rewrite nth_error_set_nth_other by exact Hji.
          apply nth_error_set_nth_lt; exact Hi. }
    destruct HJ as (s' & Es' & Hs' & _). exists s'. split; assumption. }
  destruct H as (objs' & E & Hpl & Hlen). exists objs'. auto.
Qed.

(** * Further properties of the code *)

(** ** The resolver on a pair, continued *)

(** What the step of an overlapping pair of two bodies returns, in one
    statement for both branches of the impulse test. *)
Lemma collide_result (i j : nat) (a b : GameObject) (aCollider bCollider : Collider)
      (aTransform bTransform : Transform) (aRigid bRigid : RigidBody) :
  getCollider a = Some aCollider -> getCollider b = Some bCollider ->
  getTransform a = Some aTransform -> getTransform b = Some bTransform ->
  getRigidBody a = Some aRigid -> getRigidBody b = Some bRigid ->
  Contact.dist aTransform bTransform < radius aCollider + radius bCollider ->
  exists a' b' aRigid' bRigid',
    outcome_of (collide i j aCollider a b) = Returns (a', b')
    /\ getCollider a' = Some aCollider /\ getCollider b' = Some bCollider
    /\ getTransform a'
       = Some (Contact.aCorrected aCollider bCollider aTransform bTransform aRigid bRigid)
    /\ getTransform b'
       = Some (Contact.bCorrected aCollider bCollider aTransform bTransform aRigid bRigid)
    /\ getRigidBody a' = Some aRigid' /\ getRigidBody b' = Some bRigid'
    /\ ((Contact.velAlongNormal aTransform bTransform aRigid bRigid > 0
         /\ aRigid' = aRigid /\ bRigid' = bRigid)
        \/ (Contact.velAlongNormal aTransform bTransform aRigid bRigid <= 0
            /\ aRigid' = Contact.aBounced aTransform bTransform aRigid bRigid
            /\ bRigid' = Contact.bBounced aTransform bTransform aRigid bRigid)).
Proof.
  intros HaC HbC HaT HbT HaR HbR Hlt.
  destruct (Rle_or_lt (Contact.velAlongNormal aTransform bTransform aRigid bRigid) 0)
    as [Happ|Hsep].
  - rewrite (collide_approaching i j a b aCollider bCollider aTransform bTransform
               HbC HaT HbT aRigid bRigid HaR HbR Hlt Happ).
    do 2 eexists.
    exists (Contact.aBounced aTransform bTransform aRigid bRigid),
           (Contact.bBounced aTransform bTransform aRigid bRigid).
    simpl. split; [reflexivity|].
    autorewrite with lookup. rewrite HaC, HbC, HaT, HbT, HaR, HbR.
    repeat (split; [reflexivity|]). right. auto.
  - rewrite (collide_separating i j a b aCollider bCollider aTransform bTransform
               HbC HaT HbT aRigid bRigid HaR HbR Hlt Hsep).
    do 2 eexists. exists aRigid, bRigid.
    simpl. split; [reflexivity|].
    autorewrite with lookup. rewrite HaC, HbC, HaT, HbT, HaR, HbR.
    repeat (split; [reflexivity|]). left. auto.
Qed.

Lemma hypot_scale (dx dy k : R) :
  0 <= k -> hypot (dx * k) (dy * k) = k * hypot dx dy.
Proof.
  intros Hk. unfold hypot.
  replace (dx * k * (dx * k) + dy * k * (dy * k))
    with (k * k * (dx * dx + dy * dy)) by ring.
  rewrite sqrt_mult by nra. rewrite sqrt_square by exact Hk. reflexivity.
Qed.

Section Corrected.

Variables (aCollider bCollider : Collider).
Variables (aTransform bTransform : Transform).
Variables (aRigid bRigid : RigidBody).

Hypothesis HmA : 0 < mass aRigid.
Hypothesis HmB : 0 < mass bRigid.

Let aT' := Contact.aCorrected aCollider bCollider aTransform bTransform aRigid bRigid.
Let bT' := Contact.bCorrected aCollider bCollider aTransform bTransform aRigid bRigid.

(** The correction stretches the vector between the centres by
    [minDist / dist]. *)
Lemma corrected_delta :
  0 < Contact.dist aTransform bTransform ->
  Contact.dx aT' bT'
  = Contact.dx aTransform bTransform
    * (Contact.minDist aCollider bCollider / Contact.dist aTransform bTransform)
  /\ Contact.dy aT' bT'
     = Contact.dy aTransform bTransform
       * (Contact.minDist aCollider bCollider / Contact.dist aTransform bTransform).
Proof.
  intros Hd. unfold aT', bT', Contact.aCorrected, Contact.bCorrected,
    Contact.correctionA, Contact.correctionB, Contact.totalMass, Contact.overlap,
    Contact.nx, Contact.ny.
  rewrite !div_or_zero_pos by exact Hd.
  remember (Contact.dist aTransform bTransform) as d eqn:Ed.
  remember (Contact.minDist aCollider bCollider) as m eqn:Em.
  unfold Contact.dx, Contact.dy. simpl.
  split; field; split; lra.
Qed.

Lemma corrected_dist :
  0 < Contact.dist aTransform bTransform ->
  Contact.dist aTransform bTransform < Contact.minDist aCollider bCollider ->
  Contact.dist aT' bT' = Contact.minDist aCollider bCollider.
Proof.
  intros Hd Hlt. unfold Contact.dist at 1.
  destruct (corrected_delta Hd) as [-> ->].
  set (d := Contact.dist aTransform bTransform) in *.
  assert (Hk : 0 <= Contact.minDist aCollider bCollider / d).
  { apply Rlt_le. apply Rdiv_lt_0_compat; lra. }
  rewrite hypot_scale by exact Hk.
  fold (Contact.dist aTransform bTransform). fold d. field. lra.
Qed.

Lemma corrected_normal :
  0 < Contact.dist aTransform bTransform ->
  Contact.dist aTransform bTransform < Contact.minDist aCollider bCollider ->
  Contact.nx aT' bT' = Contact.nx aTransform bTransform
  /\ Contact.ny aT' bT' = Contact.ny aTransform bTransform.
Proof.
  intros Hd Hlt. unfold Contact.nx, Contact.ny.
  rewrite (corrected_dist Hd Hlt).
  destruct (corrected_delta Hd) as [-> ->].
  rewrite !div_or_zero_pos by lra.
  split; field; split; lra.
Qed.

(** The mass-weighted mean of the two centres does not move. *)
Lemma corrected_centre_of_mass :
  mass aRigid * Vector2.x (position aT') + mass bRigid * Vector2.x (position bT')
  = mass aRigid * Vector2.x (position aTransform)
    + mass bRigid * Vector2.x (position bTransform)
  /\ mass aRigid * Vector2.y (position aT') + mass bRigid * Vector2.y (position bT')
     = mass aRigid * Vector2.y (position aTransform)
       + mass bRigid * Vector2.y (position bTransform).
Proof.
  unfold aT', bT', Contact.aCorrected, Contact.bCorrected,
    Contact.correctionA, Contact.correctionB, Contact.totalMass. simpl.
  split; field; lra.
Qed.

End Corrected.

(** X3. After the positional correction of an overlapping pair of bodies
    with distinct centres, the two circles touch: the distance of the
    centres is exactly [radiusA + radiusB], and the normal is the one the
    pair had. *)
Theorem collide_leaves_tangent
        (i j : nat) (a b : GameObject) (aCollider bCollider : Collider)
        (aTransform bTransform : Transform) (aRigid bRigid : RigidBody) :
  getCollider a = Some aCollider -> getCollider b = Some bCollider ->
  getTransform a = Some aTransform -> getTransform b = Some bTransform ->
  getRigidBody a = Some aRigid -> getRigidBody b = Some bRigid ->
  0 < mass aRigid -> 0 < mass bRigid ->
  0 < Contact.dist aTransform bTransform ->
  Contact.dist aTransform bTransform < radius aCollider + radius bCollider ->
  exists a' b' aTransform' bTransform',
    outcome_of (collide i j aCollider a b) = Returns (a', b')
    /\ getTransform a' = Some aTransform'
    /\ getTransform b' = Some bTransform'
    /\ Contact.dist aTransform' bTransform' = radius aCollider + radius bCollider
    /\ Contact.nx aTransform' bTransform' = Contact.nx aTransform bTransform
    /\ Contact.ny aTransform' bTransform' = Contact.ny aTransform bTransform.
Proof.
  intros HaC HbC HaT HbT HaR HbR HmA HmB Hd Hlt.
  destruct (collide_result i j a b aCollider bCollider aTransform bTransform
              aRigid bRigid HaC HbC HaT HbT HaR HbR Hlt)
    as (a' & b' & ra' & rb' & Hout & _ & _ & HaT' & HbT' & _).
  exists a', b'. do 2 eexists.
  split; [exact Hout|]. split; [exact HaT'|]. split; [exact HbT'|].
  split; [exact (corrected_dist aCollider bCollider aTransform bTransform
                   aRigid bRigid HmA HmB Hd Hlt)|].
  exact (corrected_normal aCollider bCollider aTransform bTransform
           aRigid bRigid HmA HmB Hd Hlt).
Qed.

Lemma collide_leaves_tangent_witness :
  exists a' b' aTransform' bTransform',
    outcome_of (collide 0 1 ball_collider ball_a ball_b) = Returns (a', b')
    /\ getTransform a' = Some aTransform'
    /\ getTransform b' = Some bTransform'
    /\ Contact.dist aTransform' bTransform' = radius ball_collider + radius ball_collider
    /\ Contact.nx aTransform' bTransform' = Contact.nx ball_a_transform ball_b_transform
    /\ Contact.ny aTransform' bTransform' = Contact.ny ball_a_transform ball_b_transform.
Proof.
  apply (collide_leaves_tangent 0 1 ball_a ball_b ball_collider ball_collider
           ball_a_transform ball_b_transform ball_a_rigid ball_b_rigid);
    try reflexivity; try apply new_RigidBody_mass_pos;
    rewrite balls_dist; simpl; lra.
Defined.

(** X4. The positional correction of an overlapping pair of bodies keeps
    their centre of mass where it was:
    [massA * posA + massB * posB] is the same vector before and after. *)
Theorem collide_centre_of_mass
        (i j : nat) (a b : GameObject) (aCollider bCollider : Collider)
        (aTransform bTransform : Transform) (aRigid bRigid : RigidBody) :
  getCollider a = Some aCollider -> getCollider b = Some bCollider ->
  getTransform a = Some aTransform -> getTransform b = Some bTransform ->
  getRigidBody a = Some aRigid -> getRigidBody b = Some bRigid ->
  0 < mass aRigid -> 0 < mass bRigid ->
  Contact.dist aTransform bTransform < radius aCollider + radius bCollider ->
  exists a' b' aTransform' bTransform',
    outcome_of (collide i j aCollider a b) = Returns (a', b')
    /\ getTransform a' = Some aTransform'
    /\ getTransform b' = Some bTransform'
    /\ mass aRigid * Vector2.x (position aTransform')
       + mass bRigid * Vector2.x (position bTransform')
       = mass aRigid * Vector2.x (position aTransform)
         + mass bRigid * Vector2.x (position bTransform)
    /\ mass aRigid * Vector2.y (position aTransform')
       + mass bRigid * Vector2.y (position bTransform')
       = mass aRigid * Vector2.y (position aTransform)
         + mass bRigid * Vector2.y (position bTransform).
Proof.
  intros HaC HbC HaT HbT HaR HbR HmA HmB Hlt.
  destruct (collide_result i j a b aCollider bCollider aTransform bTransform
              aRigid bRigid HaC HbC HaT HbT HaR HbR Hlt)
    as (a' & b' & ra' & rb' & Hout & _ & _ & HaT' & HbT' & _).
  exists a', b'. do 2 eexists.
  split; [exact Hout|]. split; [exact HaT'|]. split; [exact HbT'|].
  exact (corrected_centre_of_mass aCollider bCollider aTransform bTransform
           aRigid bRigid HmA HmB).
Qed.

Lemma collide_centre_of_mass_witness :
  exists a' b' aTransform' bTransform',
    outcome_of (collide 0 1 ball_collider ball_a ball_b) = Returns (a', b')
    /\ getTransform a' = Some aTransform'
    /\ getTransform b' = Some bTransform'
    /\ mass ball_a_rigid * Vector2.x (position aTransform')
       + mass ball_b_rigid * Vector2.x (position bTransform')
       = mass ball_a_rigid * Vector2.x (position ball_a_transform)
         + mass ball_b_rigid * Vector2.x (position ball_b_transform)
    /\ mass ball_a_rigid * Vector2.y (position aTransform')
       + mass ball_b_rigid * Vector2.y (position bTransform')
       = mass ball_a_rigid * Vector2.y (position ball_a_transform)
         + mass ball_b_rigid * Vector2.y (position ball_b_transform).
Proof.
  apply (collide_centre_of_mass 0 1 ball_a ball_b ball_collider ball_collider
           ball_a_transform ball_b_transform ball_a_rigid ball_b_rigid);
    try reflexivity; try apply new_RigidBody_mass_pos.
  rewrite balls_dist; simpl; lra.
Defined.

(** The energy balance of an impulse [jj] along [(nx, ny)]. *)
Lemma impulse_energy (mA mB vax vay vbx vby nx ny jj : R) :
  mA <> 0 -> mB <> 0 ->
  mA * ((vax - jj * nx / mA) * (vax - jj * nx / mA)
        + (vay - jj * ny / mA) * (vay - jj * ny / mA)) / 2
  + mB * ((vbx + jj * nx / mB) * (vbx + jj * nx / mB)
          + (vby + jj * ny / mB) * (vby + jj * ny / mB)) / 2
  = mA * (vax * vax + vay * vay) / 2 + mB * (vbx * vbx + vby * vby) / 2
    + jj * ((vbx - vax) * nx + (vby - vay) * ny)
    + jj * jj * (nx * nx + ny * ny) * (1 / mA + 1 / mB) / 2.
Proof. intros HA HB. field. split; assumption. Qed.

(** The energy an impulse step takes out of a pair:
    [(1 - e^2) * velAlongNormal^2 / (2 * (1 / massA + 1 / massB))]. *)
Lemma bounced_energy (aTransform bTransform : Transform) (aRigid bRigid : RigidBody) :
  0 < mass aRigid -> 0 < mass bRigid ->
  kinetic_energy (Contact.aBounced aTransform bTransform aRigid bRigid)
  + kinetic_energy (Contact.bBounced aTransform bTransform aRigid bRigid)
  = kinetic_energy aRigid + kinetic_energy bRigid
    - (1 - Contact.e aRigid bRigid * Contact.e aRigid bRigid)
      * (Contact.velAlongNormal aTransform bTransform aRigid bRigid
         * Contact.velAlongNormal aTransform bTransform aRigid bRigid)
      / (2 * (1 / mass aRigid + 1 / mass bRigid)).
Proof.
  intros HmA HmB.
  unfold kinetic_energy, Contact.aBounced, Contact.bBounced. simpl.
  rewrite impulse_energy by lra.
  fold (Contact.relVelX aRigid bRigid). fold (Contact.relVelY aRigid bRigid).
  fold (Contact.velAlongNormal aTransform bTransform aRigid bRigid).
  set (van := Contact.velAlongNormal aTransform bTransform aRigid bRigid).
  set (e := Contact.e aRigid bRigid).
  assert (Hj : Contact.j aTransform bTransform aRigid bRigid
               = - (1 + e) * van / (1 / mass aRigid + 1 / mass bRigid)) by reflexivity.
  set (jj := Contact.j aTransform bTransform aRigid bRigid) in *.
  set (mA := mass aRigid) in *. set (mB := mass bRigid) in *.
  assert (HS : 0 < 1 / mA + 1 / mB).
  { unfold Rdiv. rewrite !Rmult_1_l.
    pose proof (Rinv_0_lt_compat mA HmA). pose proof (Rinv_0_lt_compat mB HmB). lra. }
  set (S := 1 / mA + 1 / mB) in *.
  destruct (Req_dec (Contact.dist aTransform bTransform) 0) as [Hz|Hnz].
  - destruct (normal_degenerate aTransform bTransform Hz) as [Hnx Hny].
    assert (Hvan : van = 0).
    { unfold van, Contact.velAlongNormal. rewrite Hnx, Hny. ring. }
    rewrite Hnx, Hny, Hvan. field. lra.
  - assert (Hpos : 0 < Contact.dist aTransform bTransform).
    { pose proof (hypot_nonneg (Contact.dx aTransform bTransform)
                               (Contact.dy aTransform bTransform)) as Hge.
      fold (Contact.dist aTransform bTransform) in Hge. lra. }
    rewrite (normal_unit aTransform bTransform Hpos).
    rewrite Hj. field. lra.
Qed.

(** X5. A collision never adds kinetic energy: for an overlapping pair of
    bodies of positive mass whose restitutions lie in [0, 1], the sum of
    [m * |v|^2 / 2] after the pair's step is at most the sum before, and
    equal to it when both restitutions are 1. *)
Theorem collide_kinetic_energy
        (i j : nat) (a b : GameObject) (aCollider bCollider : Collider)
        (aTransform bTransform : Transform) (aRigid bRigid : RigidBody) :
  getCollider a = Some aCollider -> getCollider b = Some bCollider ->
  getTransform a = Some aTransform -> getTransform b = Some bTransform ->
  getRigidBody a = Some aRigid -> getRigidBody b = Some bRigid ->
  0 < mass aRigid -> 0 < mass bRigid ->
  0 <= restitution aRigid <= 1 -> 0 <= restitution bRigid <= 1 ->
  Contact.dist aTransform bTransform < radius aCollider + radius bCollider ->
  exists a' b' aRigid' bRigid',
    outcome_of (collide i j aCollider a b) = Returns (a', b')
    /\ getRigidBody a' = Some aRigid'
    /\ getRigidBody b' = Some bRigid'
    /\ kinetic_energy aRigid' + kinetic_energy bRigid'
       <= kinetic_energy aRigid + kinetic_energy bRigid
    /\ (restitution aRigid = 1 -> restitution bRigid = 1 ->
        kinetic_energy aRigid' + kinetic_energy bRigid'
        = kinetic_energy aRigid + kinetic_energy bRigid).
Proof.
  intros HaC HbC HaT HbT HaR HbR HmA HmB HeA HeB Hlt.
  destruct (collide_result i j a b aCollider bCollider aTransform bTransform
              aRigid bRigid HaC HbC HaT HbT HaR HbR Hlt)
    as (a' & b' & ra' & rb' & Hout & _ & _ & _ & _ & HaR' & HbR' & Hcase).
  exists a', b', ra', rb'.
  split; [exact Hout|]. split; [exact HaR'|]. split; [exact HbR'|].
  destruct Hcase as [(_ & -> & ->)|(_ & -> & ->)].
  - split; [lra | reflexivity].
  - rewrite (bounced_energy aTransform bTransform aRigid bRigid HmA HmB).
    set (van := Contact.velAlongNormal aTransform bTransform aRigid bRigid).
    assert (He : 0 <= Contact.e aRigid bRigid <= 1).
    { unfold Contact.e, Rmin. destruct (Rle_dec _ _); lra. }
    set (e := Contact.e aRigid bRigid) in *.
    assert (HS : 0 < 2 * (1 / mass aRigid + 1 / mass bRigid)).
    { unfold Rdiv. rewrite !Rmult_1_l.
      pose proof (Rinv_0_lt_compat _ HmA). pose proof (Rinv_0_lt_compat _ HmB). lra. }
    split.
    + assert (0 <= (1 - e * e) * (van * van) / (2 * (1 / mass aRigid + 1 / mass bRigid))).
      { apply Rmult_le_pos; [|apply Rlt_le, Rinv_0_lt_compat; exact HS].
        apply Rmult_le_pos; nra. }
      lra.
    + intros HA HB.
      assert (e = 1).
      { unfold e, Contact.e, Rmin. rewrite HA, HB. destruct (Rle_dec 1 1); reflexivity. }
      replace (1 - e * e) with 0 by (subst e; nra).
      unfold Rdiv. rewrite !Rmult_0_l. lra.
Qed.

Lemma collide_kinetic_energy_witness :
  exists a' b' aRigid' bRigid',
    outcome_of (collide 0 1 ball_collider ball_a ball_b) = Returns (a', b')
    /\ getRigidBody a' = Some aRigid'
    /\ getRigidBody b' = Some bRigid'
    /\ kinetic_energy aRigid' + kinetic_energy bRigid'
       <= kinetic_energy ball_a_rigid + kinetic_energy ball_b_rigid
    /\ (restitution ball_a_rigid = 1 -> restitution ball_b_rigid = 1 ->
        kinetic_energy aRigid' + kinetic_energy bRigid'
        = kinetic_energy ball_a_rigid + kinetic_energy ball_b_rigid).
Proof.
  apply (collide_kinetic_energy 0 1 ball_a ball_b ball_collider ball_collider
           ball_a_transform ball_b_transform ball_a_rigid ball_b_rigid);
    try reflexivity; try apply new_RigidBody_mass_pos;
    try (simpl; lra).
  rewrite balls_dist; simpl; lra.
Defined.

(** ** The resolver on a scene, continued *)

Lemma foldM_outcome_id {A S : Type} (body : A -> S -> M S) (l : list A) (s : S) :
  (forall v, In v l -> outcome_of (body v s) = Returns s) ->
  outcome_of (foldM body l s) = Returns s.
Proof.
  induction l as [|v l IH]; intros H; simpl; [reflexivity|].
  rewrite outcome_of_bind, (H v (or_introl eq_refl)).
  apply IH. intros w Hw. apply H. right; exact Hw.
Qed.

Lemma foldM_id {A S : Type} (body : A -> S -> M S) (l : list A) (s : S) :
  (forall v, In v l -> body v s = ret s) ->
  foldM body l s = ret s.
Proof.
  induction l as [|v l IH]; intros H; simpl; [reflexivity|].
  rewrite (H v (or_introl eq_refl)). simpl.
  rewrite IH by (intros w Hw; apply H; right; exact Hw). reflexivity.
Qed.

Lemma foldM_app {A S : Type} (body : A -> S -> M S) (l1 l2 : list A) (s : S) :
  foldM body (l1 ++ l2) s = (s' <- foldM body l1 s ;; foldM body l2 s').
Proof.
  revert s. induction l1 as [|v l1 IH]; intros s; simpl.
  - destruct (foldM body l2 s) as [l r]; reflexivity.
  - destruct (body v s) as [lg [s1|]]; simpl; [|reflexivity].
    rewrite IH.
    destruct (foldM body l1 s1) as [lg1 [s2|]]; simpl.
    + destruct (foldM body l2 s2) as [lg2 r]. rewrite app_assoc. reflexivity.
    + reflexivity.
Qed.

Lemma set_nth_id {A : Type} (l : list A) (k : nat) (v : A) :
  nth_error l k = Some v -> set_nth k v l = l.
Proof.
  revert k; induction l as [|a l IH]; intros [|k]; simpl; try discriminate.
  - intros H; injection H as ->; reflexivity.
  - intros H; rewrite IH; auto.
Qed.

(** X7. A resolver pass over a scene in which every Collider comes with a
    Transform and no two colliders overlap returns the scene as it was. *)
Theorem CollisionSystem_update_clear (objs : list GameObject) (dt : R) :
  Forall placed objs -> clear_of_overlaps objs ->
  outcome_of (CollisionSystem_update objs dt) = Returns objs.
Proof.
  intros Hpl Hclear. rewrite Forall_forall in Hpl.
  unfold CollisionSystem_update, for_range.
  apply foldM_outcome_id. intros i _.
  destruct (nth_error objs i) as [a|] eqn:Ea; [|reflexivity].
  destruct (getCollider a) as [aCollider|] eqn:EaC; [|reflexivity].
  apply foldM_outcome_id. intros j Hj. apply in_seq in Hj.
  rewrite Ea.
  destruct (nth_error objs j) as [b|] eqn:Eb; [|reflexivity].
  rewrite outcome_of_bind.
  assert (Hsame : set_nth j b (set_nth i a objs) = objs).
  { rewrite (set_nth_id objs i a Ea). apply set_nth_id; exact Eb. }
  destruct (getCollider b) as [bCollider|] eqn:EbC.
  2: { unfold collide. rewrite EbC. simpl. rewrite Hsame. reflexivity. }
  destruct (getTransform a) as [aTransform|] eqn:EaT.
  2: { exfalso. apply (Hpl a); [eapply nth_error_In; exact Ea | congruence | exact EaT]. }
  destruct (getTransform b) as [bTransform|] eqn:EbT.
  2: { exfalso. apply (Hpl b); [eapply nth_error_In; exact Eb | congruence | exact EbT]. }
  rewrite (collide_apart i j a b aCollider bCollider aTransform bTransform EbC EaT EbT).
  - simpl. rewrite Hsame. reflexivity.
  - apply (Hclear i j a b); try assumption. lia.
Qed.

Lemma far_balls_dist :
  Contact.dist ball_a_transform (new_Transform 100 0 0 0 1) = 100.
Proof.
  unfold Contact.dist, Contact.dx, Contact.dy. simpl.
  replace (100 - 0) with 100 by lra. replace (0 - 0) with 0 by lra.
  apply hypot_axis; lra.
Qed.

Lemma far_balls_clear : clear_of_overlaps [ball_a; ball_far].
Proof.
  intros i j a b ac bc ta tb Hij Ha Hb HaC HbC HaT HbT.
  assert (Hi : (i < 2)%nat)
    by (apply (nth_error_Some [ball_a; ball_far]); congruence).
  assert (Hj : (j < 2)%nat)
    by (apply (nth_error_Some [ball_a; ball_far]); congruence).
  assert (i = 0%nat) by lia. assert (j = 1%nat) by lia. subst i j.
  simpl in Ha, Hb. injection Ha as <-. injection Hb as <-.
  injection HaC as <-. injection HbC as <-. injection HaT as <-. injection HbT as <-.
  rewrite far_balls_dist. simpl. lra.
Qed.

Lemma far_balls_placed : Forall placed [ball_a; ball_far].
Proof. repeat constructor; intros _; discriminate. Qed.

Lemma CollisionSystem_update_clear_witness :
  outcome_of (CollisionSystem_update [ball_a; ball_far] (1 / 60))
  = Returns [ball_a; ball_far].
Proof.
  apply (CollisionSystem_update_clear [ball_a; ball_far] (1 / 60)).
  - exact far_balls_placed.
  - exact far_balls_clear.
Defined.

(** Witnesses of the two statements about whole passes. *)
Lemma CollisionSystem_update_returns_witness :
  exists objs',
    outcome_of (CollisionSystem_update [ball_a; ball_far] (1 / 60)) = Returns objs'
    /\ Forall placed objs' /\ length objs' = length [ball_a; ball_far].
Proof.
  apply (CollisionSystem_update_returns [ball_a; ball_far] (1 / 60)).
  exact far_balls_placed.
Defined.

Lemma ghost_pass :
  outcome_of (CollisionSystem_update [ghost; ball_b] (1 / 60)) = Returns [ghost; ball_b].
Proof.
  rewrite (CollisionSystem_update_two ghost ball_b ball_collider _ eq_refl).
  rewrite (collide_ghost 0 1 ghost ball_b ball_collider ball_collider
             ball_a_transform ball_b_transform eq_refl eq_refl eq_refl
             (or_introl eq_refl)).
  reflexivity.
Qed.

Lemma CollisionSystem_update_ghost_frame_witness :
  nth_error [ghost; ball_b] 0 = Some ghost.
Proof.
  apply (CollisionSystem_update_ghost_frame [ghost; ball_b] [ghost; ball_b] (1 / 60)
           ghost_pass 0%nat ghost eq_refl eq_refl).
Defined.

(** ** GameObject.update *)

Lemma entity_plugins_clean (ps : list Plugin) (go : GameObject) :
  ~ In CollisionSystem ps ->
  foldM (fun p go => match p with
                     | BasePlugin => ret go
                     | CollisionSystem => throw
                     end) ps go = ret go.
Proof.
  intros H. apply foldM_id. intros p Hp.
  destruct p; [reflexivity | contradiction].
Qed.

Lemma entity_plugins_throw (ps : list Plugin) (go : GameObject) :
  In CollisionSystem ps ->
  foldM (fun p go => match p with
                     | BasePlugin => ret go
                     | CollisionSystem => throw
                     end) ps go = throw.
Proof.
  induction ps as [|p ps IH]; intros H; [contradiction|].
  simpl. destruct p; simpl.
  - destruct H as [H|H]; [discriminate|]. rewrite (IH H). reflexivity.
  - reflexivity.
Qed.

Lemma RigidBody_update_plugins (k : nat) (this : RigidBody) (go : GameObject) (dt : R) :
  go_plugins (RigidBody_update k this go dt) = go_plugins go.
Proof.
  unfold RigidBody_update. destruct (getTransform go); [|reflexivity].
  destruct (integrate this _ dt); reflexivity.
Qed.

(** The loop over the components never throws and leaves the plugins. *)
Lemma components_loop_returns (i : nat) (dt : R) (l : list nat) (go : GameObject) :
  exists go',
    outcome_of
      (foldM (fun k go =>
                match nth_error (components go) k with
                | Some c => Component_update i k c go dt
                | None => ret go
                end) l go) = Returns go'
    /\ go_plugins go' = go_plugins go.
Proof.
  apply (foldM_returns (fun s => go_plugins s = go_plugins go)); [|reflexivity].
  intros k s Hs.
  destruct (nth_error (components s) k) as [c|]; [|exists s; auto].
  destruct c; simpl; try (exists s; auto; fail).
  eexists; split; [reflexivity|]. rewrite RigidBody_update_plugins; exact Hs.
Qed.

Lemma findRigidBody_none (cs : list Component) (k : nat) (c : Component) :
  findRigidBody cs = None -> nth_error cs k = Some c ->
  forall rb, c <> CRigidBody rb.
Proof.
  revert k. induction cs as [|c0 cs IH]; intros [|k] Hnone Hk rb; simpl in *;
    try discriminate.
  - injection Hk as <-. destruct c0; discriminate.
  - destruct c0; try discriminate; eapply IH; eassumption.
Qed.

(** Without a RigidBody, a SpriteRenderer or a resolver of its own, an
    entity is returned as it was. *)
Lemma GameObject_update_static (i : nat) (go : GameObject) (dt : R) :
  getRigidBody go = None -> ~ In CollisionSystem (go_plugins go) ->
  GameObject_update i go dt = ([], Returns go).
Proof.
  intros Hrb Hpl. unfold GameObject_update, for_range.
  rewrite foldM_id.
  - simpl. rewrite (entity_plugins_clean _ go Hpl). reflexivity.
  - intros k _. destruct (nth_error (components go) k) as [c|] eqn:Ek; [|reflexivity].
    pose proof (findRigidBody_none _ _ _ Hrb Ek) as Hc.
    destruct c; try reflexivity. exfalso; eapply Hc; reflexivity.
Qed.

Lemma nth_error_storeTransform_kind (t' : Transform) (cs : list Component)
      (k : nat) (rb : RigidBody) :
  nth_error (storeTransform t' cs) k = Some (CRigidBody rb) ->
  nth_error cs k = Some (CRigidBody rb).
Proof.
  revert k; induction cs as [|c cs IH]; intros [|k]; simpl; try discriminate.
  - destruct c; simpl; intros H; try discriminate; exact H.
  - destruct c; simpl; intros H; auto.
Qed.

(** For an entity without a SpriteRenderer whose only RigidBody sits at
    index [length pre] of its components and which has no resolver of its
    own, [GameObject.update] is one call of [RigidBody.update]. *)
Lemma GameObject_update_single_body
        (i : nat) (go : GameObject) (pre post : list Component)
        (this : RigidBody) (dt : R) :
  components go = pre ++ CRigidBody this :: post ->
  findRigidBody pre = None -> findRigidBody post = None ->
  ~ In CollisionSystem (go_plugins go) ->
  GameObject_update i go dt
  = ([EIntegrate i], Returns (RigidBody_update (length pre) this go dt)).
Proof.
  intros Hcs Hpre Hpost Hpl.
  set (k := length pre).
  assert (Hk : nth_error (components go) k = Some (CRigidBody this)).
  { rewrite Hcs. unfold k. rewrite nth_error_app2 by lia.
    rewrite Nat.sub_diag. reflexivity. }
  assert (Hother : forall v c, v <> k -> nth_error (components go) v = Some c ->
                               forall rb, c <> CRigidBody rb).
  { intros v c Hv Hc rb. rewrite Hcs in Hc.
    destruct (Nat.lt_ge_cases v k) as [Hlt|Hge].
    - rewrite nth_error_app1 in Hc by exact Hlt.
      exact (findRigidBody_none _ _ _ Hpre Hc rb).
    - rewrite nth_error_app2 in Hc by exact Hge. fold k in Hc.
      destruct (v - k)%nat as [|m] eqn:Em; [lia|]. simpl in Hc.
      exact (findRigidBody_none _ _ _ Hpost Hc rb). }
  unfold GameObject_update, for_range.
  rewrite Nat.sub_0_r.
  replace (length (components go)) with (k + S (length post))%nat
    by (rewrite Hcs, length_app; reflexivity).
  rewrite seq_app, foldM_app. simpl seq.
  rewrite foldM_id.
  2: { intros v Hv. apply in_seq in Hv.
       destruct (nth_error (components go) v) as [c|] eqn:Ev; [|reflexivity].
       assert (Hne : v <> k) by lia.
       pose proof (Hother v c Hne Ev) as Hc.
       destruct c; try reflexivity. exfalso; eapply Hc; reflexivity. }
  simpl. rewrite Hk. simpl.
  set (go1 := RigidBody_update k this go dt).
  rewrite foldM_id.
  - simpl. unfold go1 at 1. rewrite RigidBody_update_plugins.
    rewrite (entity_plugins_clean _ go1 Hpl). reflexivity.
  - intros v Hv. apply in_seq in Hv.
    destruct (nth_error (components go1) v) as [c|] eqn:Ev; [|reflexivity].
    destruct c as [| rb | |]; try reflexivity.
    exfalso. assert (Hne : v <> k) by lia.
    unfold go1, RigidBody_update in Ev.
    destruct (getTransform go) as [t|].
    + destruct (integrate this t dt) as [this' t']. simpl in Ev.
      rewrite nth_error_set_nth_other in Ev by lia.
      apply nth_error_storeTransform_kind in Ev.
      exact (Hother v _ Hne Ev rb eq_refl).
    + exact (Hother v _ Hne Ev rb eq_refl).
Qed.

(** ** Game.update without a resolver *)

Lemma driver_plugins_clean (ps : list Plugin) (objs : list GameObject) (dt : R) :
  ~ In CollisionSystem ps ->
  foldM (fun p objs => Plugin_update p objs dt) ps objs = ret objs.
Proof.
  intros H. apply foldM_id. intros p Hp.
  destruct p; [reflexivity | contradiction].
Qed.

(** The [forEach] over the objects, from index [m] on: every object is
    replaced by its own update (and clamp), the others are not looked at. *)
Lemma objects_loop_pointwise (g : Game) (dt : R) (len : nat) :
  forall (m : nat) (s s' : list GameObject),
    outcome_of
      (foldM (fun i objs =>
                match nth_error objs i with
                | None => ret objs
                | Some obj =>
                    obj <- GameObject_update i obj dt ;;
                    obj <- (if boundaryEnabled g
                            then tell [EBoundary i] ;;;
                                 ret (handleBoundary (canvas g) obj)
                            else ret obj) ;;
                    ret (set_nth i obj objs)
                end) (seq m len) s) = Returns s' ->
    length s' = length s
    /\ (forall k, (k < m)%nat -> nth_error s' k = nth_error s k)
    /\ (forall k obj,
           (m <= k < m + len)%nat -> nth_error s k = Some obj ->
           exists obj1,
             outcome_of (GameObject_update k obj dt) = Returns obj1
             /\ nth_error s' k
                = Some (if boundaryEnabled g
                        then handleBoundary (canvas g) obj1 else obj1)).
Proof.
  induction len as [|len IH]; intros m s s' H; simpl in H.
  - injection H as <-. split; [reflexivity|]. split; [reflexivity|].
    intros k obj Hk; lia.
  - rewrite outcome_of_bind in H.
    destruct (nth_error s m) as [obj0|] eqn:Em.
    + rewrite outcome_of_bind in H.
      destruct (outcome_of (GameObject_update m obj0 dt)) as [obj1|] eqn:Eu;
        [|discriminate].
      set (obj2 := if boundaryEnabled g then handleBoundary (canvas g) obj1 else obj1).
      cbv beta iota in H.
      match type of H with
      | match ?X with _ => _ end = _ =>
          assert (Hstep : X = Returns (set_nth m obj2 s))
            by (unfold obj2; destruct (boundaryEnabled g); reflexivity);
          rewrite Hstep in H
      end.
      destruct (IH (S m) _ _ H) as (Hlen & Hlow & Hrange).
      rewrite length_set_nth in Hlen.
      assert (Hm : (m < length s)%nat) by (apply nth_error_Some; congruence).
      split; [exact Hlen|]. split.
      * intros k Hk. rewrite Hlow by lia. apply nth_error_set_nth_other; lia.
      * intros k obj Hk Hobj.
        destruct (Nat.eq_dec k m) as [->|Hne].
        -- assert (obj = obj0) by congruence; subst obj.
           exists obj1. split; [exact Eu|].
           rewrite Hlow by lia. apply nth_error_set_nth_lt; exact Hm.
        -- apply Hrange; [lia|]. rewrite nth_error_set_nth_other by lia. exact Hobj.
    + simpl in H. destruct (IH (S m) _ _ H) as (Hlen & Hlow & Hrange).
      split; [exact Hlen|]. split.
      * intros k Hk. apply Hlow; lia.
      * intros k obj Hk Hobj.
        destruct (Nat.eq_dec k m) as [->|Hne]; [congruence|].
        apply Hrange; [lia | exact Hobj].
Qed.

(** X11. Without a resolver among the driver's plugins, a tick acts on
    every object on its own: the object at index [k] after the tick is the
    update of the object that was at index [k] (boundary-clamped when
    boundaries are enabled), whatever the other objects are, and the list
    keeps its length. *)
Theorem Game_update_pointwise (g g' : Game) (dt : R) :
  ~ In CollisionSystem (plugins g) ->
  outcome_of (Game_update g dt) = Returns g' ->
  length (objects g') = length (objects g)
  /\ forall k obj,
      nth_error (objects g) k = Some obj ->
      exists obj1,
        outcome_of (GameObject_update k obj dt) = Returns obj1
        /\ nth_error (objects g') k
           = Some (if boundaryEnabled g
                   then handleBoundary (canvas g) obj1 else obj1).
Proof.
  intros Hpl H. unfold Game_update in H.
  rewrite (driver_plugins_clean _ _ dt Hpl) in H.
  rewrite outcome_of_bind in H.
  change (outcome_of (ret (objects g))) with (Returns (objects g)) in H.
  cbv beta iota in H. rewrite outcome_of_bind in H. unfold for_range in H. rewrite Nat.sub_0_r in H.
  destruct (outcome_of (foldM _ (seq 0 (length (objects g))) (objects g)))
    as [objs'|] eqn:Eloop; [|discriminate].
  simpl in H. injection H as <-. simpl.
  destruct (objects_loop_pointwise g dt _ _ _ _ Eloop) as (Hlen & _ & Hrange).
  split; [exact Hlen|].
  intros k obj Hk. apply Hrange; [|exact Hk].
  assert ((k < length (objects g))%nat) by (apply nth_error_Some; congruence). lia.
Qed.

Lemma quiet_game_tick :
  outcome_of (Game_update quiet_game (1 / 60))
  = Returns (mkGame (mkCanvas 800 600)
               [ghost; RigidBody_update 2 ball_a_rigid drawn_ball (1 / 60)]
               [BasePlugin] false).
Proof. reflexivity. Qed.

Lemma Game_update_pointwise_witness :
  length [ghost; RigidBody_update 2 ball_a_rigid drawn_ball (1 / 60)]
  = length (objects quiet_game)
  /\ forall k obj,
      nth_error (objects quiet_game) k = Some obj ->
      exists obj1,
        outcome_of (GameObject_update k obj (1 / 60)) = Returns obj1
        /\ nth_error [ghost; RigidBody_update 2 ball_a_rigid drawn_ball (1 / 60)] k
           = Some (if boundaryEnabled quiet_game
                   then handleBoundary (canvas quiet_game) obj1 else obj1).
Proof.
  apply (Game_update_pointwise quiet_game
           (mkGame (mkCanvas 800 600)
              [ghost; RigidBody_update 2 ball_a_rigid drawn_ball (1 / 60)]
              [BasePlugin] false) (1 / 60)).
  - simpl. intros [H|H]; [discriminate | exact H].
  - exact quiet_game_tick.
Defined.

(** ** RigidBody: construction and repeated ticks *)

(** The constructor's mass clamp: a non-positive [mass] option becomes
    1, a positive one is kept, so a constructed body always has a positive
    mass. *)
Lemma new_RigidBody_mass (vel : Vector2.t) (av g fr re m bu : R) :
  0 < mass (new_RigidBody vel av g fr re m bu)
  /\ (m <= 0 -> mass (new_RigidBody vel av g fr re m bu) = 1)
  /\ (0 < m -> mass (new_RigidBody vel av g fr re m bu) = m).
Proof.
  simpl. destruct (Rle_dec m 0); repeat split; intros; lra.
Qed.

Lemma ticks_S (n : nat) (this : RigidBody) (t : Transform) (dt : R) :
  ticks (S n) this t dt
  = ticks n (fst (integrate this t dt)) (snd (integrate this t dt)) dt.
Proof. reflexivity. Qed.

Lemma ticks_coefficients (n : nat) (dt : R) :
  forall this t,
    gravity (fst (ticks n this t dt)) = gravity this
    /\ buoyancy (fst (ticks n this t dt)) = buoyancy this
    /\ friction (fst (ticks n this t dt)) = friction this
    /\ restitution (fst (ticks n this t dt)) = restitution this
    /\ mass (fst (ticks n this t dt)) = mass this
    /\ angularVelocity (fst (ticks n this t dt)) = angularVelocity this.
Proof.
  induction n as [|n IH]; intros this t; [simpl; repeat split|].
  rewrite ticks_S.
  apply (IH (fst (integrate this t dt)) (snd (integrate this t dt))).
Qed.

Lemma ticks_velocity_x (n : nat) (dt : R) :
  forall this t,
    Vector2.x (velocity (fst (ticks n this t dt)))
    = Vector2.x (velocity this) * (1 - friction this) ^ n.
Proof.
  induction n as [|n IH]; intros this t; [simpl; ring|].
  rewrite ticks_S, IH. simpl. ring.
Qed.

Lemma ticks_velocity_y (n : nat) (dt : R) :
  forall this t,
    friction this <> 0 ->
    Vector2.y (velocity (fst (ticks n this t dt)))
    = terminal_velocity this dt
      + (Vector2.y (velocity this) - terminal_velocity this dt)
        * (1 - friction this) ^ n.
Proof.
  induction n as [|n IH]; intros this t Hf; [simpl; ring|].
  rewrite ticks_S, IH by exact Hf.
  unfold terminal_velocity. simpl. field. exact Hf.
Qed.

Lemma ticks_angle (n : nat) (dt : R) :
  forall this t,
    angle (snd (ticks n this t dt)) = angle t + INR n * (angularVelocity this * dt).
Proof.
  induction n as [|n IH]; intros this t.
  - simpl. ring.
  - rewrite ticks_S, IH, S_INR. simpl. ring.
Qed.

(** X12. The velocity after [n] ticks in closed form, for a friction other
    than 0: [velocity.x] is the initial one times [(1 - friction)^n], and
    [velocity.y] approaches the terminal velocity
    [(gravity - buoyancy) * dt * (1 - friction) / friction] geometrically:
    its distance to it is the initial distance times [(1 - friction)^n]. *)
Theorem ticks_velocity (n : nat) (this : RigidBody) (t : Transform) (dt : R) :
  friction this <> 0 ->
  Vector2.x (velocity (fst (ticks n this t dt)))
  = Vector2.x (velocity this) * (1 - friction this) ^ n
  /\ Vector2.y (velocity (fst (ticks n this t dt))) - terminal_velocity this dt
     = (Vector2.y (velocity this) - terminal_velocity this dt)
       * (1 - friction this) ^ n.
Proof.
  intros Hf. split; [apply ticks_velocity_x|].
  rewrite ticks_velocity_y by exact Hf. ring.
Qed.

Lemma ticks_velocity_witness :
  Vector2.x (velocity (fst (ticks 3 default_RigidBody ball_a_transform (1 / 60))))
  = Vector2.x (velocity default_RigidBody) * (1 - friction default_RigidBody) ^ 3
  /\ Vector2.y (velocity (fst (ticks 3 default_RigidBody ball_a_transform (1 / 60))))
     - terminal_velocity default_RigidBody (1 / 60)
     = (Vector2.y (velocity default_RigidBody)
        - terminal_velocity default_RigidBody (1 / 60))
       * (1 - friction default_RigidBody) ^ 3.
Proof.
  apply (ticks_velocity 3 default_RigidBody ball_a_transform (1 / 60)).
  simpl. lra.
Defined.



(** Rotation is never damped in this revision: after [n] ticks the
    angular velocity is the initial one and the angle has grown by
    [n * angularVelocity * dt], whatever the friction. *)
Lemma ticks_rotation (n : nat) (this : RigidBody) (t : Transform) (dt : R) :
  angularVelocity (fst (ticks n this t dt)) = angularVelocity this
  /\ angle (snd (ticks n this t dt)) = angle t + INR n * (angularVelocity this * dt).
Proof.
  split; [apply ticks_coefficients | apply ticks_angle].
Qed.

(** ** Game.handleBoundary, continued *)

Lemma getCollider_handleBoundary (cv : Canvas) (obj : GameObject) :
  getCollider (handleBoundary cv obj) = getCollider obj.
Proof.
  unfold handleBoundary.
  destruct (getTransform obj); [|reflexivity].
  destruct (getRigidBody obj); [|reflexivity].
  destruct (getCollider obj) eqn:E; [|exact E].
  do 2 destruct (boundary_axis _ _ _ _).
  autorewrite with lookup. exact E.
Qed.

Lemma boundary_axis_inside_range (p v r hi : R) :
  2 * r <= hi ->
  r <= fst (boundary_axis p v r hi) <= hi - r.
Proof.
  intros H. unfold boundary_axis.
  destruct (Rlt_dec (p - r) 0); [simpl; lra|].
  destruct (Rgt_dec (p + r) hi); simpl; lra.
Qed.

Lemma boundary_axis_speed (p v r hi : R) :
  Rabs (snd (boundary_axis p v r hi)) = Rabs v.
Proof.
  unfold boundary_axis.
  destruct (Rlt_dec (p - r) 0); [simpl; apply Rabs_Rabsolu|].
  destruct (Rgt_dec (p + r) hi); simpl; [|reflexivity].
  rewrite Rabs_Ropp. apply Rabs_Rabsolu.
Qed.

Lemma boundary_axis_idempotent (p v r hi : R) :
  2 * r <= hi ->
  boundary_axis (fst (boundary_axis p v r hi)) (snd (boundary_axis p v r hi)) r hi
  = boundary_axis p v r hi.
Proof.
  intros H. pose proof (boundary_axis_inside_range p v r hi H) as Hin.
  destruct (boundary_axis p v r hi) as [p' v']. simpl in *.
  apply boundary_axis_inside; lra.
Qed.

(** X14. Boundary handling puts the circle inside the canvas: for an entity
    with Transform, RigidBody and Collider of radius [r] on a canvas at
    least [2 * r] wide and high, after [handleBoundary] the centre lies in
    [[r, width - r]] by [[r, height - r]]. *)
Theorem handleBoundary_contains (cv : Canvas) (obj : GameObject)
        (t : Transform) (rb : RigidBody) (col : Collider) :
  getTransform obj = Some t -> getRigidBody obj = Some rb ->
  getCollider obj = Some col ->
  2 * radius col <= width cv -> 2 * radius col <= height cv ->
  exists t',
    getTransform (handleBoundary cv obj) = Some t'
    /\ radius col <= Vector2.x (position t') <= width cv - radius col
    /\ radius col <= Vector2.y (position t') <= height cv - radius col.
Proof.
  intros Ht Hrb Hc Hw Hh.
  destruct (handleBoundary_result cv obj t rb col Ht Hrb Hc) as [Ht' _].
  eexists. split; [exact Ht'|]. simpl.
  split; apply boundary_axis_inside_range; assumption.
Qed.

Lemma handleBoundary_contains_witness :
  exists t',
    getTransform (handleBoundary (mkCanvas 800 600) stray_ball) = Some t'
    /\ 10 <= Vector2.x (position t') <= 800 - 10
    /\ 10 <= Vector2.y (position t') <= 600 - 10.
Proof.
  apply (handleBoundary_contains (mkCanvas 800 600) stray_ball
           (new_Transform (-3) (-7) 0 0 1) ball_b_rigid ball_collider);
    try reflexivity; simpl; lra.
Defined.

(** X15. Boundary handling never changes a speed: on both axes the
    magnitude of the velocity after [handleBoundary] is the one before
    (walls reflect without loss; restitution is not applied), and mass,
    restitution, friction and gravity are left alone. *)
Theorem handleBoundary_keeps_speed (cv : Canvas) (obj : GameObject)
        (t : Transform) (rb : RigidBody) (col : Collider) :
  getTransform obj = Some t -> getRigidBody obj = Some rb ->
  getCollider obj = Some col ->
  exists rb',
    getRigidBody (handleBoundary cv obj) = Some rb'
    /\ Rabs (Vector2.x (velocity rb')) = Rabs (Vector2.x (velocity rb))
    /\ Rabs (Vector2.y (velocity rb')) = Rabs (Vector2.y (velocity rb))
    /\ mass rb' = mass rb /\ restitution rb' = restitution rb
    /\ friction rb' = friction rb /\ gravity rb' = gravity rb.
Proof.
  intros Ht Hrb Hc.
  destruct (handleBoundary_result cv obj t rb col Ht Hrb Hc) as [_ Hrb'].
  eexists. split; [exact Hrb'|]. simpl.
  split; [apply boundary_axis_speed|]. split; [apply boundary_axis_speed|].
  repeat split.
Qed.

Lemma handleBoundary_keeps_speed_witness :
  exists rb',
    getRigidBody (handleBoundary (mkCanvas 800 600) stray_ball) = Some rb'
    /\ Rabs (Vector2.x (velocity rb')) = Rabs (Vector2.x (velocity ball_b_rigid))
    /\ Rabs (Vector2.y (velocity rb')) = Rabs (Vector2.y (velocity ball_b_rigid))
    /\ mass rb' = mass ball_b_rigid /\ restitution rb' = restitution ball_b_rigid
    /\ friction rb' = friction ball_b_rigid /\ gravity rb' = gravity ball_b_rigid.
Proof.
  apply (handleBoundary_keeps_speed (mkCanvas 800 600) stray_ball
           (new_Transform (-3) (-7) 0 0 1) ball_b_rigid ball_collider);
    reflexivity.
Defined.

(** X16. On a canvas that fits the collider, boundary handling is
    idempotent: clamping a clamped entity changes nothing. *)
Theorem handleBoundary_idempotent (cv : Canvas) (obj : GameObject) (col : Collider) :
  getCollider obj = Some col ->
  2 * radius col <= width cv -> 2 * radius col <= height cv ->
  handleBoundary cv (handleBoundary cv obj) = handleBoundary cv obj.
Proof.
  intros Hc Hw Hh.
  destruct (getTransform obj) as [t|] eqn:Ht.
  2: { unfold handleBoundary at 2. rewrite Ht.
       unfold handleBoundary. rewrite Ht. reflexivity. }
  destruct (getRigidBody obj) as [rb|] eqn:Hrb.
  2: { unfold handleBoundary at 2. rewrite Ht, Hrb.
       unfold handleBoundary. rewrite Ht, Hrb. reflexivity. }
  destruct (handleBoundary_result cv obj t rb col Ht Hrb Hc) as [Ht' Hrb'].
  pose proof (getCollider_handleBoundary cv obj) as Hc'. rewrite Hc in Hc'.
  set (obj' := handleBoundary cv obj) in *.
  unfold handleBoundary at 1. rewrite Ht', Hrb', Hc'. simpl.
  rewrite !boundary_axis_idempotent by assumption.
  destruct (boundary_axis (Vector2.x (position t)) (Vector2.x (velocity rb))
              (radius col) (width cv)) as [px vx] eqn:Ex.
  destruct (boundary_axis (Vector2.y (position t)) (Vector2.y (velocity rb))
              (radius col) (height cv)) as [py vy] eqn:Ey.
  simpl in *.
  replace (with_position (vec2 px py) (with_position (vec2 px py) t))
    with (with_position (vec2 px py) t) by reflexivity.
  replace (with_velocity (vec2 vx vy) (with_velocity (vec2 vx vy) rb))
    with (with_velocity (vec2 vx vy) rb) by reflexivity.
  rewrite (setTransform_same obj' _ Ht').
  apply (setRigidBody_same obj' _ Hrb').
Qed.

Lemma handleBoundary_idempotent_witness :
  handleBoundary (mkCanvas 800 600) (handleBoundary (mkCanvas 800 600) stray_ball)
  = handleBoundary (mkCanvas 800 600) stray_ball.
Proof.
  apply (handleBoundary_idempotent (mkCanvas 800 600) stray_ball ball_collider);
    [reflexivity | simpl; lra | simpl; lra].
Defined.

(** ** Components of an entity *)

Lemma findTransform_app (l1 l2 : list Component) :
  findTransform (l1 ++ l2)
  = match findTransform l1 with Some t => Some t | None => findTransform l2 end.
Proof. induction l1 as [|c l1 IH]; simpl; [reflexivity|]. destruct c; auto. Qed.

Lemma findRigidBody_app (l1 l2 : list Component) :
  findRigidBody (l1 ++ l2)
  = match findRigidBody l1 with Some rb => Some rb | None => findRigidBody l2 end.
Proof. induction l1 as [|c l1 IH]; simpl; [reflexivity|]. destruct c; auto. Qed.

Lemma findCollider_app (l1 l2 : list Component) :
  findCollider (l1 ++ l2)
  = match findCollider l1 with Some c => Some c | None => findCollider l2 end.
Proof. induction l1 as [|c l1 IH]; simpl; [reflexivity|]. destruct c; auto. Qed.

(** X17. [getComponent] after [addComponent]: the first component of a
    type wins.  Adding a component to an entity that has none of its type
    makes it the one found; adding a second one of the same type leaves
    [getComponent] on the old one; lookups of the other types are not
    affected. *)
Theorem addComponent_getComponent (go : GameObject) :
  (forall t, getTransform (addComponent (CTransform t) go)
             = match getTransform go with Some t0 => Some t0 | None => Some t end)
  /\ (forall rb, getRigidBody (addComponent (CRigidBody rb) go)
                 = match getRigidBody go with Some rb0 => Some rb0 | None => Some rb end)
  /\ (forall c, getCollider (addComponent (CCollider c) go)
                = match getCollider go with Some c0 => Some c0 | None => Some c end)
  /\ (forall comp, (forall t, comp <> CTransform t) ->
                   getTransform (addComponent comp go) = getTransform go)
  /\ (forall comp, (forall rb, comp <> CRigidBody rb) ->
                   getRigidBody (addComponent comp go) = getRigidBody go)
  /\ (forall comp, (forall c, comp <> CCollider c) ->
                   getCollider (addComponent comp go) = getCollider go).
Proof.
  unfold getTransform, getRigidBody, getCollider, addComponent; simpl.
  repeat split; intros.
  - rewrite findTransform_app. destruct (findTransform (components go)); reflexivity.
  - rewrite findRigidBody_app. destruct (findRigidBody (components go)); reflexivity.
  - rewrite findCollider_app. destruct (findCollider (components go)); reflexivity.
  - rewrite findTransform_app. destruct (findTransform (components go)); [reflexivity|].
    destruct comp; try reflexivity. exfalso; eapply H; reflexivity.
  - rewrite findRigidBody_app. destruct (findRigidBody (components go)); [reflexivity|].
    destruct comp; try reflexivity. exfalso; eapply H; reflexivity.
  - rewrite findCollider_app. destruct (findCollider (components go)); [reflexivity|].
    destruct comp; try reflexivity. exfalso; eapply H; reflexivity.
Qed.

Lemma skipn_nth_error {A : Type} (l : list A) (m : nat) (c : A) :
  nth_error l m = Some c -> skipn m l = c :: skipn (S m) l.
Proof.
  revert m. induction l as [|a l IH]; intros [|m]; simpl; try discriminate.
  - intros H; injection H as ->; reflexivity.
  - intros H. rewrite (IH m H). reflexivity.
Qed.

Lemma is_rigid_storeTransform (t' : Transform) (cs : list Component) (k : nat) :
  option_map is_rigid (nth_error (storeTransform t' cs) k)
  = option_map is_rigid (nth_error cs k).
Proof.
  revert k. induction cs as [|c cs IH]; intros [|k]; simpl; try reflexivity.
  - destruct c; reflexivity.
  - destruct c; simpl; auto.
Qed.

Lemma is_rigid_set_nth (cs : list Component) (k v : nat) (c c' : Component) :
  nth_error cs k = Some c -> is_rigid c' = is_rigid c ->
  option_map is_rigid (nth_error (set_nth k c' cs) v)
  = option_map is_rigid (nth_error cs v).
Proof.
  intros Hk Hc. destruct (Nat.eq_dec k v) as [<-|Hne].
  - rewrite (nth_error_set_nth cs k c' c Hk), Hk. simpl. rewrite Hc. reflexivity.
  - rewrite nth_error_set_nth_other by exact Hne. reflexivity.
Qed.

(** [RigidBody.update] leaves every slot of the component list with a
    component of the kind it had. *)
Lemma is_rigid_RigidBody_update (k v : nat) (this : RigidBody) (go : GameObject) (dt : R) :
  nth_error (components go) k = Some (CRigidBody this) ->
  option_map is_rigid (nth_error (components (RigidBody_update k this go dt)) v)
  = option_map is_rigid (nth_error (components go) v).
Proof.
  intros Hk. unfold RigidBody_update.
  destruct (getTransform go) as [t|]; [|reflexivity].
  destruct (integrate this t dt) as [this' t']. simpl.
  rewrite (is_rigid_set_nth _ k v (CRigidBody this) (CRigidBody this')).
  - apply is_rigid_storeTransform.
  - apply nth_error_storeTransform_rigid; exact Hk.
  - reflexivity.
Qed.

Lemma components_loop_log (i : nat) (dt : R) (cs : list Component) (len : nat) :
  forall (m : nat) (s : GameObject),
    (forall v, option_map is_rigid (nth_error (components s) v)
               = option_map is_rigid (nth_error cs v)) ->
    log_of
      (foldM (fun k go =>
                match nth_error (components go) k with
                | Some c => Component_update i k c go dt
                | None => ret go
                end) (seq m len) s)
    = repeat (EIntegrate i) (length (filter is_rigid (firstn len (skipn m cs)))).
Proof.
  induction len as [|len IH]; intros m s Hkind; [reflexivity|].
  simpl seq. simpl foldM. rewrite log_of_bind.
  pose proof (Hkind m) as Hm.
  destruct (nth_error cs m) as [c0|] eqn:Ec0.
  - rewrite (skipn_nth_error cs m c0 Ec0). simpl firstn. simpl filter.
    destruct (nth_error (components s) m) as [c|] eqn:Ec; [|discriminate].
    simpl in Hm. injection Hm as Hm.
    destruct c; simpl in Hm; rewrite <- Hm; simpl;
      try (apply IH; exact Hkind).
    f_equal. apply IH. intros v.
    rewrite is_rigid_RigidBody_update by exact Ec. apply Hkind.
  - assert (Hnil : skipn m cs = []).
    { apply skipn_all2. apply nth_error_None. exact Ec0. }
    rewrite Hnil in *. rewrite firstn_nil.
    destruct (nth_error (components s) m) as [c|] eqn:Ec; [discriminate|].
    simpl.
    specialize (IH (S m) s Hkind).
    assert (Hnil' : skipn (S m) cs = []).
    { apply skipn_all2. apply nth_error_None in Ec0. lia. }
    rewrite Hnil', firstn_nil in IH. exact IH.
Qed.

Lemma entity_plugins_log (ps : list Plugin) (go : GameObject) :
  log_of (foldM (fun p go => match p with
                             | BasePlugin => ret go
                             | CollisionSystem => throw
                             end) ps go) = [].
Proof.
  revert go. induction ps as [|p ps IH]; intros go; [reflexivity|].
  simpl foldM. rewrite log_of_bind. destruct p; simpl; [apply IH | reflexivity].
Qed.

(** For an entity without a SpriteRenderer, [GameObject.update] calls
    [RigidBody.update] once for every RigidBody component. *)
Lemma GameObject_update_integrations (i : nat) (go : GameObject) (dt : R) :
  log_of (GameObject_update i go dt)
  = repeat (EIntegrate i) (length (filter is_rigid (components go))).
Proof.
  unfold GameObject_update, for_range. rewrite log_of_bind, Nat.sub_0_r.
  rewrite (components_loop_log i dt (components go)) by reflexivity.
  simpl skipn. rewrite firstn_all.
  match goal with
  | |- context [match ?o with Returns _ => _ | Throws => _ end] => destruct o as [go'|]
  end.
  - rewrite entity_plugins_log. apply app_nil_r.
  - apply app_nil_r.
Qed.

(** ** SpriteRenderer.update *)

Section SpriteAdvance.

Variables (fd fc : R) (lp : bool).

Lemma advance_advanced (fuel : nat) :
  1 < fc ->
  forall acc cf acc' cf',
    SpriteRenderer.advance fuel fd fc lp acc cf = Some (acc', cf') ->
    advanced fd fc acc cf acc' cf'.
Proof.
  intros Hfc. induction fuel as [|fuel IH]; intros acc cf acc' cf'; simpl;
    destruct (Rge_dec acc fd) as [Hge|Hlt]; try discriminate.
  - intros H; injection H as <- <-.
    unfold advanced. repeat split; try lra. exists 0%nat. simpl. ring.
  - set (cf1 := if Rge_dec (cf + 1) fc then if lp then 0 else fc - 1 else cf + 1).
    intros Hrun. destruct (IH _ _ _ _ Hrun) as (Hlt' & (k & Hk) & Hpos & Hframe).
    unfold advanced. split; [exact Hlt'|]. split; [|split].
    + exists (S k). rewrite S_INR. lra.
    + intros _. apply Hpos. lra.
    + intros Hcf. apply Hframe. unfold cf1.
      destruct (Rge_dec (cf + 1) fc); [destruct lp|]; lra.
  - intros H; injection H as <- <-.
    unfold advanced. repeat split; try lra. exists 0%nat. simpl. ring.
Qed.

Lemma advance_hangs (fuel : nat) :
  fd < 0 -> forall acc cf, acc >= fd ->
  SpriteRenderer.advance fuel fd fc lp acc cf = None.
Proof.
  intros Hfd. induction fuel as [|fuel IH]; intros acc cf Hacc; simpl;
    destruct (Rge_dec acc fd); try reflexivity; try contradiction.
  apply IH. lra.
Qed.

Lemma advance_last_frame (fuel : nat) :
  lp = false -> forall acc acc' cf',
  SpriteRenderer.advance fuel fd fc lp acc (fc - 1) = Some (acc', cf') ->
  cf' = fc - 1.
Proof.
  intros Hlp. induction fuel as [|fuel IH]; intros acc acc' cf'; simpl;
    destruct (Rge_dec acc fd); try discriminate;
    try (intros H; injection H as _ <-; reflexivity).
  replace (if lp then 0 else fc - 1) with (fc - 1) by (rewrite Hlp; reflexivity).
  destruct (Rge_dec (fc - 1 + 1) fc); [apply IH | lra].
Qed.

End SpriteAdvance.

(** X19. Every update of a loaded sheet of more than one frame, with a
    [frameSpeed] other than 0, that leaves its loop leaves this: the sheet
    and its speed as they were, the accumulator below one frame duration
    [1 / frameSpeed] (and not negative if [accumulator + dt] was not), the
    time taken out of it a whole number of frame durations, and a frame
    index that was inside [[0, frameCount)] still inside. *)
Theorem SpriteRenderer_update_advances
        (fuel : nat) (this this' : SpriteRenderer.t) (dt : R) :
  SpriteRenderer.frameSpeed this <> 0 ->
  1 < SpriteRenderer.frameCount this ->
  SpriteRenderer.loaded this = true ->
  SpriteRenderer.update fuel this dt = Some this' ->
  SpriteRenderer.frameCount this' = SpriteRenderer.frameCount this
  /\ SpriteRenderer.frameSpeed this' = SpriteRenderer.frameSpeed this
  /\ SpriteRenderer.loop this' = SpriteRenderer.loop this
  /\ SpriteRenderer.loaded this' = SpriteRenderer.loaded this
  /\ advanced (1 / SpriteRenderer.frameSpeed this) (SpriteRenderer.frameCount this)
       (SpriteRenderer.accumulator this + dt) (SpriteRenderer.currentFrame this)
       (SpriteRenderer.accumulator this') (SpriteRenderer.currentFrame this').
Proof.
  intros Hs Hc Hl. unfold SpriteRenderer.update.
  destruct (Rgt_dec (SpriteRenderer.frameCount this) 1); [|lra].
  rewrite Hl. destruct (Req_dec_T (SpriteRenderer.frameSpeed this) 0); [contradiction|].
  destruct (SpriteRenderer.advance _ _ _ _ _ _) as [[acc' cf']|] eqn:Erun;
    [|discriminate].
  intros H; injection H as <-. simpl.
  repeat (split; [reflexivity|]).
  eapply advance_advanced; [exact Hc | exact Erun].
Qed.

Lemma walk_sprite_update :
  SpriteRenderer.update 3 walk_sprite (1 / 4)
  = Some (SpriteRenderer.mk 4 10 true 2 (1 / 4 - 1 / 10 - 1 / 10) true).
Proof.
  unfold SpriteRenderer.update, walk_sprite. simpl.
  destruct (Rgt_dec 4 1); [|lra].
  destruct (Req_dec_T 10 0); [lra|].
  destruct (Rge_dec (0 + 1 / 4) (1 / 10)); [|lra].
  destruct (Rge_dec (0 + 1) 4); [lra|].
  destruct (Rge_dec (0 + 1 / 4 - 1 / 10) (1 / 10)); [|lra].
  destruct (Rge_dec (0 + 1 + 1) 4); [lra|].
  destruct (Rge_dec (0 + 1 / 4 - 1 / 10 - 1 / 10) (1 / 10)); [lra|].
  f_equal. f_equal; lra.
Qed.

Lemma SpriteRenderer_update_advances_witness :
  SpriteRenderer.frameCount (SpriteRenderer.mk 4 10 true 2 (1 / 4 - 1 / 10 - 1 / 10) true)
  = SpriteRenderer.frameCount walk_sprite
  /\ SpriteRenderer.frameSpeed (SpriteRenderer.mk 4 10 true 2 (1 / 4 - 1 / 10 - 1 / 10) true)
     = SpriteRenderer.frameSpeed walk_sprite
  /\ SpriteRenderer.loop (SpriteRenderer.mk 4 10 true 2 (1 / 4 - 1 / 10 - 1 / 10) true)
     = SpriteRenderer.loop walk_sprite
  /\ SpriteRenderer.loaded (SpriteRenderer.mk 4 10 true 2 (1 / 4 - 1 / 10 - 1 / 10) true)
     = SpriteRenderer.loaded walk_sprite
  /\ advanced (1 / SpriteRenderer.frameSpeed walk_sprite)
       (SpriteRenderer.frameCount walk_sprite)
       (SpriteRenderer.accumulator walk_sprite + 1 / 4)
       (SpriteRenderer.currentFrame walk_sprite)
       (SpriteRenderer.accumulator
          (SpriteRenderer.mk 4 10 true 2 (1 / 4 - 1 / 10 - 1 / 10) true))
       (SpriteRenderer.currentFrame
          (SpriteRenderer.mk 4 10 true 2 (1 / 4 - 1 / 10 - 1 / 10) true)).
Proof.
  apply (SpriteRenderer_update_advances 3 walk_sprite
           (SpriteRenderer.mk 4 10 true 2 (1 / 4 - 1 / 10 - 1 / 10) true) (1 / 4)).
  - simpl; lra.
  - simpl; lra.
  - reflexivity.
  - exact walk_sprite_update.
Defined.

(** X20. With a negative [frameSpeed] the update of a loaded sheet of more
    than one frame never leaves its loop once the accumulator has reached
    the (negative) frame duration: no number of iterations makes it
    return. *)
Theorem SpriteRenderer_update_hangs (this : SpriteRenderer.t) (dt : R) :
  SpriteRenderer.frameSpeed this < 0 ->
  1 < SpriteRenderer.frameCount this ->
  SpriteRenderer.loaded this = true ->
  SpriteRenderer.accumulator this + dt >= 1 / SpriteRenderer.frameSpeed this ->
  forall fuel, SpriteRenderer.update fuel this dt = None.
Proof.
  intros Hs Hc Hl Hacc fuel. unfold SpriteRenderer.update.
  destruct (Rgt_dec (SpriteRenderer.frameCount this) 1); [|lra].
  rewrite Hl. destruct (Req_dec_T (SpriteRenderer.frameSpeed this) 0); [lra|].
  rewrite advance_hangs; [reflexivity | | exact Hacc].
  unfold Rdiv. rewrite Rmult_1_l. apply Rinv_lt_0_compat. exact Hs.
Qed.

Lemma SpriteRenderer_update_hangs_witness :
  SpriteRenderer.update 1000 reversed_sprite (1 / 60) = None.
Proof.
  apply (SpriteRenderer_update_hangs reversed_sprite (1 / 60));
    [simpl; lra | simpl; lra | reflexivity | simpl; lra].
Defined.

(** X21. A sheet that does not loop rests on its last frame: from
    [currentFrame = frameCount - 1] every update that returns leaves
    [currentFrame] there, however much time has passed. *)
Theorem SpriteRenderer_update_rests (fuel : nat) (this this' : SpriteRenderer.t) (dt : R) :
  SpriteRenderer.loop this = false ->
  SpriteRenderer.currentFrame this = SpriteRenderer.frameCount this - 1 ->
  SpriteRenderer.update fuel this dt = Some this' ->
  SpriteRenderer.currentFrame this' = SpriteRenderer.frameCount this' - 1.
Proof.
  intros Hlp Hcf. unfold SpriteRenderer.update.
  destruct (Rgt_dec (SpriteRenderer.frameCount this) 1);
    [|intros H; injection H as <-; exact Hcf].
  destruct (SpriteRenderer.loaded this); [|intros H; injection H as <-; exact Hcf].
  destruct (Req_dec_T (SpriteRenderer.frameSpeed this) 0);
    [intros H; injection H as <-; exact Hcf|].
  rewrite Hcf.
  destruct (SpriteRenderer.advance _ _ _ _ _ _) as [[acc' cf']|] eqn:Erun;
    [|discriminate].
  intros H; injection H as <-. simpl.
  eapply advance_last_frame; [exact Hlp | exact Erun].
Qed.

Lemma still_sprite_update :
  SpriteRenderer.update 3 still_sprite (1 / 4)
  = Some (SpriteRenderer.mk 4 10 false 3 (1 / 4 - 1 / 10 - 1 / 10) true).
Proof.
  unfold SpriteRenderer.update, still_sprite. simpl.
  destruct (Rgt_dec 4 1); [|lra].
  destruct (Req_dec_T 10 0); [lra|].
  destruct (Rge_dec (0 + 1 / 4) (1 / 10)); [|lra].
  destruct (Rge_dec (3 + 1) 4); [|lra].
  destruct (Rge_dec (0 + 1 / 4 - 1 / 10) (1 / 10)); [|lra].
  destruct (Rge_dec (4 - 1 + 1) 4); [|lra].
  destruct (Rge_dec (0 + 1 / 4 - 1 / 10 - 1 / 10) (1 / 10)); [lra|].
  f_equal. f_equal; lra.
Qed.

Lemma SpriteRenderer_update_rests_witness :
  SpriteRenderer.currentFrame
    (SpriteRenderer.mk 4 10 false 3 (1 / 4 - 1 / 10 - 1 / 10) true)
  = SpriteRenderer.frameCount
      (SpriteRenderer.mk 4 10 false 3 (1 / 4 - 1 / 10 - 1 / 10) true) - 1.
Proof.
  apply (SpriteRenderer_update_rests 3 still_sprite
           (SpriteRenderer.mk 4 10 false 3 (1 / 4 - 1 / 10 - 1 / 10) true) (1 / 4)).
  - reflexivity.
  - simpl; lra.
  - exact still_sprite_update.
Defined.

(** ** The older revision: Collider.update *)

(** X22. The older boundary code also puts the circle inside a canvas that
    fits it: after [Collider.update] of a collider of radius [r] on a canvas
    at least [2 * r] wide and high, the centre lies in [[r, width - r]] by
    [[r, height - r]]. *)
Theorem LegacyCollider_bounce_contains
        (r : R) (cv : Canvas) (rb : Legacy.RigidBody) (t : Transform) :
  2 * r <= width cv -> 2 * r <= height cv ->
  r <= Vector2.x (position (snd (LegacyCollider.bounce r cv rb t))) <= width cv - r
  /\ r <= Vector2.y (position (snd (LegacyCollider.bounce r cv rb t))) <= height cv - r.
Proof.
  intros Hw Hh. unfold LegacyCollider.bounce.
  destruct (Rgt_dec (Vector2.y (position t) + r) (height cv));
    [destruct (Rlt_dec (Rabs _) 10)|];
    (destruct (Rlt_dec (_ - r) 0));
    (destruct (Rlt_dec (Vector2.x (position t) - r) 0));
    (destruct (Rgt_dec (_ + r) (width cv)));
    simpl; lra.
Qed.

Lemma LegacyCollider_bounce_contains_witness :
  10 <= Vector2.x (position (snd (LegacyCollider.bounce 10 (mkCanvas 800 600)
                                    legacy_body legacy_transform))) <= 800 - 10
  /\ 10 <= Vector2.y (position (snd (LegacyCollider.bounce 10 (mkCanvas 800 600)
                                       legacy_body legacy_transform))) <= 600 - 10.
Proof.
  apply (LegacyCollider_bounce_contains 10 (mkCanvas 800 600) legacy_body legacy_transform);
    simpl; lra.
Defined.

(** X23. Landing in the older revision: when the circle reaches below the
    floor of a canvas that fits it, it is put on the floor and its vertical
    velocity becomes [-restitution] times the old one, or 0 when that
    rebound is slower than 10: a slow ball comes to rest. *)
Theorem LegacyCollider_bounce_floor
        (r : R) (cv : Canvas) (rb : Legacy.RigidBody) (t : Transform) :
  2 * r <= height cv ->
  Vector2.y (position t) + r > height cv ->
  Vector2.y (position (snd (LegacyCollider.bounce r cv rb t))) = height cv - r
  /\ (Rabs (Vector2.y (Legacy.velocity rb) * - Legacy.restitution rb) < 10 ->
      Vector2.y (Legacy.velocity (fst (LegacyCollider.bounce r cv rb t))) = 0)
  /\ (~ Rabs (Vector2.y (Legacy.velocity rb) * - Legacy.restitution rb) < 10 ->
      Vector2.y (Legacy.velocity (fst (LegacyCollider.bounce r cv rb t)))
      = - Legacy.restitution rb * Vector2.y (Legacy.velocity rb)).
Proof.
  intros Hh Hlow. unfold LegacyCollider.bounce.
  destruct (Rgt_dec (Vector2.y (position t) + r) (height cv)); [|lra].
  destruct (Rlt_dec (Rabs _) 10);
    (destruct (Rlt_dec (height cv - r - r) 0); [lra|]);
    (destruct (Rlt_dec (Vector2.x (position t) - r) 0));
    (destruct (Rgt_dec (_ + r) (width cv)));
    simpl; repeat split; intros; try lra; try contradiction.
Qed.

Lemma LegacyCollider_bounce_floor_witness :
  Vector2.y (position (snd (LegacyCollider.bounce 10 (mkCanvas 800 600)
                              legacy_body legacy_transform))) = 600 - 10
  /\ (Rabs (Vector2.y (Legacy.velocity legacy_body) * - Legacy.restitution legacy_body) < 10 ->
      Vector2.y (Legacy.velocity (fst (LegacyCollider.bounce 10 (mkCanvas 800 600)
                                         legacy_body legacy_transform))) = 0)
  /\ (~ Rabs (Vector2.y (Legacy.velocity legacy_body) * - Legacy.restitution legacy_body) < 10 ->
      Vector2.y (Legacy.velocity (fst (LegacyCollider.bounce 10 (mkCanvas 800 600)
                                         legacy_body legacy_transform)))
      = - Legacy.restitution legacy_body * Vector2.y (Legacy.velocity legacy_body)).
Proof.
  apply (LegacyCollider_bounce_floor 10 (mkCanvas 800 600) legacy_body legacy_transform);
    simpl; lra.
Defined.


(** ** EventEmitter *)

Section EmitterProperties.

Import String.

Variable inherited : string -> bool.

Lemma own_set_same (l : EventEmitter.t) (event : string) (cbs : list EventEmitter.Callback) :
  EventEmitter.own (EventEmitter.set event cbs l) event = Some cbs.
Proof.
  induction l as [|[k old] l IH]; simpl.
  - rewrite String.eqb_refl. reflexivity.
  - destruct (String.eqb k event) eqn:E; simpl; rewrite E; [reflexivity | exact IH].
Qed.

Lemma own_set_other (l : EventEmitter.t) (event other : string)
      (cbs : list EventEmitter.Callback) :
  other <> event ->
  EventEmitter.own (EventEmitter.set event cbs l) other = EventEmitter.own l other.
Proof.
  intros Hne. induction l as [|[k old] l IH]; simpl.
  - destruct (String.eqb event other) eqn:E; [|reflexivity].
    apply String.eqb_eq in E. congruence.
  - destruct (String.eqb k event) eqn:E; simpl.
    + apply String.eqb_eq in E. subst k.
      destruct (String.eqb event other) eqn:E'; [|reflexivity].
      apply String.eqb_eq in E'. congruence.
    + destruct (String.eqb k other); [reflexivity | exact IH].
Qed.

Lemma emit_set_same (l : EventEmitter.t) (event : string)
      (cbs : list EventEmitter.Callback) :
  EventEmitter.emit inherited event (EventEmitter.set event cbs l) = Returns cbs.
Proof.
  unfold EventEmitter.emit, EventEmitter.get. rewrite own_set_same. reflexivity.
Qed.

Lemma emit_set_other (l : EventEmitter.t) (event other : string)
      (cbs : list EventEmitter.Callback) :
  other <> event ->
  EventEmitter.emit inherited other (EventEmitter.set event cbs l)
  = EventEmitter.emit inherited other l.
Proof.
  intros Hne. unfold EventEmitter.emit, EventEmitter.get.
  rewrite own_set_other by exact Hne. reflexivity.
Qed.

(** X24. Registration order is call order: after [on(event, cb)] on an
    event name that the prototype does not answer, [emit(event)] calls the
    callbacks it called before, in the same order, and then [cb] (once
    more if [cb] was registered already); the other events call what they
    called. *)
Theorem EventEmitter_on_emit (l : EventEmitter.t) (event : string)
        (cb : EventEmitter.Callback) :
  inherited event = false ->
  exists l' cbs,
    EventEmitter.on inherited event cb l = Returns l'
    /\ EventEmitter.emit inherited event l = Returns cbs
    /\ EventEmitter.emit inherited event l' = Returns (cbs ++ [cb])
    /\ forall other, other <> event ->
         EventEmitter.emit inherited other l' = EventEmitter.emit inherited other l.
Proof.
  intros Hin. unfold EventEmitter.on, EventEmitter.emit at 1, EventEmitter.get.
  destruct (EventEmitter.own l event) as [cbs|] eqn:E.
  - exists (EventEmitter.set event (cbs ++ [cb]) l), cbs.
    repeat split; try reflexivity; [apply emit_set_same|].
    intros other Hne. apply emit_set_other; exact Hne.
  - rewrite Hin. exists (EventEmitter.set event [cb] l), [].
    repeat split; try reflexivity; [apply emit_set_same|].
    intros other Hne. apply emit_set_other; exact Hne.
Qed.

(** X25. [off(event, cb)] removes every registration of [cb] on the event,
    not just one: afterwards [emit(event)] calls the other callbacks of the
    event, in their order, and never [cb]; the other events call what they
    called. *)
Theorem EventEmitter_off_emit (l : EventEmitter.t) (event : string)
        (cb : EventEmitter.Callback) :
  inherited event = false ->
  exists l' cbs cbs',
    EventEmitter.off inherited event cb l = Returns l'
    /\ EventEmitter.emit inherited event l = Returns cbs
    /\ EventEmitter.emit inherited event l' = Returns cbs'
    /\ cbs' = filter (fun c => negb (Nat.eqb c cb)) cbs
    /\ ~ In cb cbs'
    /\ (forall c, c <> cb -> count_occ Nat.eq_dec cbs' c = count_occ Nat.eq_dec cbs c)
    /\ forall other, other <> event ->
         EventEmitter.emit inherited other l' = EventEmitter.emit inherited other l.
Proof.
  intros Hin.
  assert (Hnot : forall cbs, ~ In cb (filter (fun c => negb (Nat.eqb c cb)) cbs)).
  { intros cbs H. apply filter_In in H. destruct H as [_ H].
    rewrite Nat.eqb_refl in H. discriminate. }
  assert (Hcount : forall cbs c, c <> cb ->
            count_occ Nat.eq_dec (filter (fun c => negb (Nat.eqb c cb)) cbs) c
            = count_occ Nat.eq_dec cbs c).
  { intros cbs c Hc. induction cbs as [|a cbs IH]; [reflexivity|].
    simpl. destruct (Nat.eqb a cb) eqn:Ea; simpl.
    - apply Nat.eqb_eq in Ea. subst a.
      destruct (Nat.eq_dec cb c); [congruence | exact IH].
    - destruct (Nat.eq_dec a c); rewrite IH; reflexivity. }
  unfold EventEmitter.off, EventEmitter.emit at 1, EventEmitter.get.
  destruct (EventEmitter.own l event) as [cbs|] eqn:E.
  - exists (EventEmitter.set event (filter (fun c => negb (Nat.eqb c cb)) cbs) l), cbs.
    eexists. split; [reflexivity|]. split; [reflexivity|].
    split; [apply emit_set_same|]. split; [reflexivity|].
    split; [apply Hnot|]. split; [apply Hcount|].
    intros other Hne. apply emit_set_other; exact Hne.
  - rewrite Hin. exists l, [], []. split; [reflexivity|]. split; [reflexivity|].
    split.
    + unfold EventEmitter.emit, EventEmitter.get. rewrite E, Hin. reflexivity.
    + repeat split; auto.
Qed.

(** An event name that a plain object answers through its prototype
    cannot be used: on an emitter without an own entry for it, [on], [off]
    and [emit] all throw. *)
Lemma EventEmitter_inherited_throws (l : EventEmitter.t) (event : string)
        (cb : EventEmitter.Callback) :
  inherited event = true -> EventEmitter.own l event = None ->
  EventEmitter.on inherited event cb l = Throws
  /\ EventEmitter.off inherited event cb l = Throws
  /\ EventEmitter.emit inherited event l = Throws.
Proof.
  intros Hin Hown.
  unfold EventEmitter.on, EventEmitter.off, EventEmitter.emit, EventEmitter.get.
  rewrite Hown, Hin. repeat split.
Qed.

End EmitterProperties.

Section EmitterWitnesses.

Import String.

Lemma EventEmitter_on_emit_witness :
  exists l' cbs,
    EventEmitter.on EventEmitter.in_prototype "hit"%string 2%nat EventEmitter.sample = Returns l'
    /\ EventEmitter.emit EventEmitter.in_prototype "hit"%string EventEmitter.sample
       = Returns cbs
    /\ EventEmitter.emit EventEmitter.in_prototype "hit"%string l' = Returns (cbs ++ [2%nat])
    /\ forall other, other <> "hit"%string ->
         EventEmitter.emit EventEmitter.in_prototype other l'
         = EventEmitter.emit EventEmitter.in_prototype other EventEmitter.sample.
Proof.
  apply (EventEmitter_on_emit EventEmitter.in_prototype EventEmitter.sample
           "hit"%string 2%nat).
  reflexivity.
Defined.

Lemma EventEmitter_off_emit_witness :
  exists l' cbs cbs',
    EventEmitter.off EventEmitter.in_prototype "hit"%string 1%nat EventEmitter.sample
    = Returns l'
    /\ EventEmitter.emit EventEmitter.in_prototype "hit"%string EventEmitter.sample
       = Returns cbs
    /\ EventEmitter.emit EventEmitter.in_prototype "hit"%string l' = Returns cbs'
    /\ cbs' = filter (fun c => negb (Nat.eqb c 1%nat)) cbs
    /\ ~ In 1%nat cbs'
    /\ (forall c, c <> 1%nat -> count_occ Nat.eq_dec cbs' c = count_occ Nat.eq_dec cbs c)
    /\ forall other, other <> "hit"%string ->
         EventEmitter.emit EventEmitter.in_prototype other l'
         = EventEmitter.emit EventEmitter.in_prototype other EventEmitter.sample.
Proof.
  apply (EventEmitter_off_emit EventEmitter.in_prototype EventEmitter.sample
           "hit"%string 1%nat).
  reflexivity.
Defined.

Lemma EventEmitter_inherited_throws_witness :
  EventEmitter.on EventEmitter.in_prototype "toString"%string 1%nat EventEmitter.empty = Throws
  /\ EventEmitter.off EventEmitter.in_prototype "toString"%string 1%nat EventEmitter.empty
     = Throws
  /\ EventEmitter.emit EventEmitter.in_prototype "toString"%string EventEmitter.empty
     = Throws.
Proof.
  apply (EventEmitter_inherited_throws EventEmitter.in_prototype EventEmitter.empty
           "toString"%string 1%nat); reflexivity.
Defined.

End EmitterWitnesses.

(** ** UI elements *)

(** Induction on an element with the property at hand for all its
    children. *)
Fixpoint Element_children_ind (P : UI.Element -> Prop)
         (H : forall k ex ey w h v hv cs,
             Forall P cs -> P (UI.mk k ex ey w h v hv cs))
         (e : UI.Element) : P e :=
  match e with
  | UI.mk k ex ey w h v hv cs =>
      H k ex ey w h v hv cs
        ((fix all (l : list UI.Element) : Forall P l :=
            match l with
            | [] => Forall_nil P
            | c :: l' => Forall_cons c (Element_children_ind P H c) (all l')
            end) cs)
  end.

(** The dispatch loop of [UIElement.onClick] over the children [cs] of an
    element at [(ex, ey)]. *)
Lemma onClick_children (k : UI.Kind) (ex ey w h : R) (v hv : bool)
      (cs : list UI.Element) (px py : R) :
  (forall cb, k <> UI.Button cb) ->
  UI.onClick (UI.mk k ex ey w h v hv cs) px py
  = match find (fun c => UI.containsPoint c (px - ex) (py - ey)) cs with
    | Some c => (true, snd (UI.onClick c (px - ex) (py - ey)))
    | None => (false, [])
    end.
Proof.
  intros Hk. destruct k as [| |cb]; [| |exfalso; eapply Hk; reflexivity];
    simpl; induction cs as [|c cs IH]; simpl; try reflexivity;
    destruct (UI.containsPoint c (px - ex) (py - ey)); auto.
Qed.

(** X26. One click calls at most one callback, however the elements
    overlap and however deep the tree is. *)
Theorem UI_onClick_at_most_one (e : UI.Element) :
  forall px py, (length (snd (UI.onClick e px py)) <= 1)%nat.
Proof.
  induction e as [k ex ey w h v hv cs IH] using Element_children_ind.
  intros px py. destruct k as [| |cb].
  - rewrite onClick_children by discriminate.
    destruct (find _ cs) as [c|] eqn:E; simpl; [|lia].
    rewrite Forall_forall in IH. apply IH. apply find_some in E. tauto.
  - rewrite onClick_children by discriminate.
    destruct (find _ cs) as [c|] eqn:E; simpl; [|lia].
    rewrite Forall_forall in IH. apply IH. apply find_some in E. tauto.
  - simpl. destruct (UI.containsPoint _ px py); simpl; [destruct cb; simpl|]; lia.
Qed.

Lemma containsPoint_iff (e : UI.Element) (px py : R) :
  UI.containsPoint e px py = true
  <-> UI.x e <= px <= UI.x e + UI.width e /\ UI.y e <= py <= UI.y e + UI.height e.
Proof.
  unfold UI.containsPoint.
  destruct (Rge_dec px (UI.x e)); [|split; [discriminate | lra]].
  destruct (Rle_dec px (UI.x e + UI.width e)); [|split; [discriminate | lra]].
  destruct (Rge_dec py (UI.y e)); [|split; [discriminate | lra]].
  destruct (Rle_dec py (UI.y e + UI.height e)); split; intros;
    first [discriminate | reflexivity | lra].
Qed.

Lemma containsPoint_show (b : bool) (e : UI.Element) (px py : R) :
  UI.containsPoint (UI.show b e) px py = UI.containsPoint e px py.
Proof. destruct e; reflexivity. Qed.

Lemma containsPoint_onMouseMove (e : UI.Element) (qx qy px py : R) :
  UI.containsPoint (UI.onMouseMove e qx qy) px py = UI.containsPoint e px py.
Proof. destruct e; reflexivity. Qed.

Lemma find_map_same {A : Type} (f : A -> bool) (g : A -> A) (l : list A) :
  (forall a, f (g a) = f a) ->
  find f (map g l) = option_map g (find f l).
Proof.
  intros H. induction l as [|a l IH]; simpl; [reflexivity|].
  rewrite H. destruct (f a); [reflexivity | exact IH].
Qed.

(** X27. Clicks do not look at [visible] or [hovered]: hiding or showing
    any part of the tree, or moving the mouse over it, changes neither the
    value [onClick] returns nor the callback it calls; a hidden button is
    clicked like a shown one. *)
Theorem UI_onClick_ignores_flags (e : UI.Element) :
  forall px py,
    (forall b, UI.onClick (UI.show b e) px py = UI.onClick e px py)
    /\ (forall qx qy, UI.onClick (UI.onMouseMove e qx qy) px py = UI.onClick e px py).
Proof.
  induction e as [k ex ey w h v hv cs IH] using Element_children_ind.
  intros px py. rewrite Forall_forall in IH.
  destruct k as [| |cb].
  - split; intros; simpl UI.show; simpl UI.onMouseMove;
      rewrite !onClick_children by discriminate.
    + rewrite find_map_same by (intros; apply containsPoint_show).
      destruct (find _ cs) as [c|] eqn:E; simpl; [|reflexivity].
      apply find_some in E. rewrite (proj1 (IH c (proj1 E) _ _)). reflexivity.
    + rewrite find_map_same by (intros; apply containsPoint_onMouseMove).
      destruct (find _ cs) as [c|] eqn:E; simpl; [|reflexivity].
      apply find_some in E. rewrite (proj2 (IH c (proj1 E) _ _)). reflexivity.
  - split; intros; simpl UI.show; simpl UI.onMouseMove;
      rewrite !onClick_children by discriminate.
    + rewrite find_map_same by (intros; apply containsPoint_show).
      destruct (find _ cs) as [c|] eqn:E; simpl; [|reflexivity].
      apply find_some in E. rewrite (proj1 (IH c (proj1 E) _ _)). reflexivity.
    + rewrite find_map_same by (intros; apply containsPoint_onMouseMove).
      destruct (find _ cs) as [c|] eqn:E; simpl; [|reflexivity].
      apply find_some in E. rewrite (proj2 (IH c (proj1 E) _ _)). reflexivity.
  - split; intros; reflexivity.
Qed.

(** X28. The first child that contains the point takes the click: in an
    element that is not a button, when no child before [c] contains the
    point (in the element's coordinates) and [c] does, [onClick] returns
    [true] and calls what [c.onClick] calls, whatever comes after [c]; a
    sibling under [c] is never reached. *)
Theorem UI_onClick_first_hit
        (k : UI.Kind) (ex ey w h : R) (v hv : bool)
        (pre post : list UI.Element) (c : UI.Element) (px py : R) :
  (forall cb, k <> UI.Button cb) ->
  Forall (fun s => UI.containsPoint s (px - ex) (py - ey) = false) pre ->
  UI.containsPoint c (px - ex) (py - ey) = true ->
  UI.onClick (UI.mk k ex ey w h v hv (pre ++ c :: post)) px py
  = (true, snd (UI.onClick c (px - ex) (py - ey))).
Proof.
  intros Hk Hpre Hc. rewrite onClick_children by exact Hk.
  induction Hpre as [|s pre Hs Hpre IH]; simpl.
  - rewrite Hc. reflexivity.
  - rewrite Hs. exact IH.
Qed.

Lemma caption_misses : UI.containsPoint caption (165 - 100) (70 - 50) = false.
Proof.
  destruct (UI.containsPoint caption (165 - 100) (70 - 50)) eqn:E; [|reflexivity].
  apply containsPoint_iff in E. simpl in E. lra.
Qed.

Lemma ok_button_hit : UI.containsPoint ok_button (165 - 100) (70 - 50) = true.
Proof. apply containsPoint_iff. simpl. lra. Qed.

Lemma UI_onClick_first_hit_witness :
  UI.onClick (UI.mk UI.Container 100 50 200 100 true false
                ([caption] ++ ok_button :: [cancel_button])) 165 70
  = (true, snd (UI.onClick ok_button (165 - 100) (70 - 50))).
Proof.
  apply (UI_onClick_first_hit UI.Container 100 50 200 100 true false
           [caption] [cancel_button] ok_button 165 70).
  - discriminate.
  - repeat constructor. exact caption_misses.
  - exact ok_button_hit.
Defined.

(** After [onMouseMove(px, py)] the element is hovered exactly when it
    contains the point, its geometry, kind and visibility are what they
    were, and a second move to the same point changes nothing. *)
Lemma UI_onMouseMove_hover (e : UI.Element) :
  forall px py,
    UI.hovered (UI.onMouseMove e px py) = UI.containsPoint e px py
    /\ UI.kind (UI.onMouseMove e px py) = UI.kind e
    /\ UI.x (UI.onMouseMove e px py) = UI.x e
    /\ UI.y (UI.onMouseMove e px py) = UI.y e
    /\ UI.width (UI.onMouseMove e px py) = UI.width e
    /\ UI.height (UI.onMouseMove e px py) = UI.height e
    /\ UI.visible (UI.onMouseMove e px py) = UI.visible e
    /\ UI.onMouseMove (UI.onMouseMove e px py) px py = UI.onMouseMove e px py.
Proof.
  induction e as [k ex ey w h v hv cs IH] using Element_children_ind.
  intros px py. repeat (split; [reflexivity|]).
  simpl. f_equal. rewrite map_map. apply map_ext_in.
  intros c Hc. rewrite Forall_forall in IH.
  apply (IH c Hc (px - ex) (py - ey)).
Qed.

(** ** Input *)

Section InputProperties.

Import String.

Lemma Input_handle_key (k : string) (s : Input.t) (e : Input.Event) :
  Input.isKeyDown (fst (Input.handle s e)) k = key_step k (Input.isKeyDown s k) e
  /\ Input.isTVKeyDown (fst (Input.handle s e)) k = key_step k (Input.isTVKeyDown s k) e.
Proof.
  unfold Input.isKeyDown, Input.isTVKeyDown.
  destruct e; simpl; unfold Input.add, Input.delete; auto.
Qed.

Lemma Input_run_key (k : string) (es : list Input.Event) :
  forall s,
    Input.isKeyDown (fst (Input.run s es)) k
    = fold_left (key_step k) es (Input.isKeyDown s k)
    /\ Input.isTVKeyDown (fst (Input.run s es)) k
       = fold_left (key_step k) es (Input.isTVKeyDown s k).
Proof.
  induction es as [|e es IH]; intros s; simpl; [auto|].
  destruct (Input.handle s e) as [s1 c1] eqn:E1.
  destruct (IH s1) as [IH1 IH2].
  destruct (Input.run s1 es) as [s2 c2]. simpl in *.
  destruct (Input_handle_key k s e) as [H1 H2]. rewrite E1 in H1, H2. simpl in H1, H2.
  rewrite IH1, IH2, H1, H2. auto.
Qed.

Lemma key_step_no_release (k : string) (post : list Input.Event) :
  ~ In (Input.KeyUp k) post -> fold_left (key_step k) post true = true.
Proof.
  induction post as [|e post IH]; intros Hno; simpl; [reflexivity|].
  assert (Hstep : key_step k true e = true).
  { destruct e; simpl; try reflexivity.
    - destruct (String.eqb k key); reflexivity.
    - destruct (String.eqb k key) eqn:Ek; [|reflexivity].
      apply String.eqb_eq in Ek. subst key. exfalso. apply Hno. left; reflexivity. }
  rewrite Hstep. apply IH. intros H. apply Hno. right; exact H.
Qed.

Lemma key_step_pressed (k : string) (es : list Input.Event) :
  fold_left (key_step k) es false = true ->
  exists pre post, es = pre ++ Input.KeyDown k :: post /\ ~ In (Input.KeyUp k) post.
Proof.
  induction es as [|e es IH] using rev_ind; [discriminate|].
  rewrite fold_left_app. simpl. intros H.
  destruct e; simpl in H;
    try (destruct (IH H) as (pre & post & -> & Hpost);
         eexists pre, (post ++ [_]); split;
         [rewrite <- app_assoc; reflexivity
         | intros Hin; apply in_app_or in Hin;
           destruct Hin as [Hin|[Hin|[]]]; [exact (Hpost Hin) | discriminate]];
         fail).
  - destruct (String.eqb k key) eqn:Ek.
    + apply String.eqb_eq in Ek. subst key. exists es, []. split; [reflexivity | intros []].
    + destruct (IH H) as (pre & post & -> & Hpost).
      exists pre, (post ++ [Input.KeyDown key]). split.
      * rewrite <- app_assoc. reflexivity.
      * intros Hin. apply in_app_or in Hin.
        destruct Hin as [Hin|[Hin|[]]]; [exact (Hpost Hin) | discriminate].
  - destruct (String.eqb k key) eqn:Ek; [discriminate|].
    destruct (IH H) as (pre & post & -> & Hpost).
    exists pre, (post ++ [Input.KeyUp key]). split.
    + rewrite <- app_assoc. reflexivity.
    + intros Hin. apply in_app_or in Hin.
      destruct Hin as [Hin|[Hin|[]]]; [exact (Hpost Hin)|].
      injection Hin as ->. rewrite String.eqb_refl in Ek. discriminate.
Qed.

(** X29. A key is down exactly when it was pressed and not released since:
    after any sequence of events on a new [Input], [isKeyDown(k)] holds if
    and only if the sequence has a [keydown] of [k] with no [keyup] of [k]
    after it; and [isTVKeyDown] always answers what [isKeyDown] answers. *)
Theorem Input_isKeyDown_iff (k : string) (es : list Input.Event) :
  (Input.isKeyDown (fst (Input.run Input.new es)) k = true
   <-> exists pre post,
         es = pre ++ Input.KeyDown k :: post /\ ~ In (Input.KeyUp k) post)
  /\ Input.isTVKeyDown (fst (Input.run Input.new es)) k
     = Input.isKeyDown (fst (Input.run Input.new es)) k.
Proof.
  destruct (Input_run_key k es Input.new) as [Hk Htv].
  split; [|rewrite Hk, Htv; reflexivity].
  rewrite Hk. change (Input.isKeyDown Input.new k) with false.
  split; [apply key_step_pressed|].
  intros (pre & post & -> & Hpost).
  rewrite fold_left_app. simpl. rewrite String.eqb_refl.
  apply key_step_no_release; exact Hpost.
Qed.

(** X30. The listeners of [onMouse] and [onTouch] are never called: whatever
    the events, every call goes to a function registered with [onKey], and
    a sequence without a [keydown] calls nothing. *)
Theorem Input_listeners_called (es : list Input.Event) :
  forall s,
    (forall fn, In fn (snd (Input.run s es)) -> In fn (Input.keyListeners s))
    /\ ((forall k, ~ In (Input.KeyDown k) es) -> snd (Input.run s es) = [])
    /\ Input.mouseListeners (fst (Input.run s es)) = Input.mouseListeners s
    /\ Input.touchListeners (fst (Input.run s es)) = Input.touchListeners s.
Proof.
  induction es as [|e es IH]; intros s; simpl; [repeat split; intros; tauto|].
  destruct (Input.handle s e) as [s1 c1] eqn:E1.
  destruct (IH s1) as (IHc & IHn & IHm & IHt).
  destruct (Input.run s1 es) as [s2 c2]. simpl in *.
  assert (Hs1 : Input.keyListeners s1 = Input.keyListeners s
                /\ Input.mouseListeners s1 = Input.mouseListeners s
                /\ Input.touchListeners s1 = Input.touchListeners s
                /\ (c1 = [] \/ (exists k, e = Input.KeyDown k) /\ c1 = Input.keyListeners s)).
  { destruct e; simpl in E1; injection E1 as <- <-; simpl; repeat split; auto.
    right. split; [eexists; reflexivity | reflexivity]. }
  destruct Hs1 as (Hk & Hm & Ht & Hc1).
  repeat split.
  - intros fn Hin. apply in_app_or in Hin. destruct Hin as [Hin|Hin].
    + destruct Hc1 as [->|[_ ->]]; [destruct Hin | exact Hin].
    + rewrite <- Hk. apply IHc. exact Hin.
  - intros Hno. rewrite IHn by (intros k Hin; apply (Hno k); right; exact Hin).
    destruct Hc1 as [->|[[k ->] _]]; [reflexivity|].
    exfalso. apply (Hno k). left; reflexivity.
  - congruence.
  - congruence.
Qed.

End InputProperties.

(** ** GameObject.update of an entity with SpriteRenderers *)

Lemma findTransform_physics (ps : list WithSprites.Part) :
  findTransform (map physics_part ps) = WithSprites.findTransform ps.
Proof.
  induction ps as [|[c|s] ps IH]; simpl; [reflexivity| |exact IH].
  destruct c; simpl; auto.
Qed.

Lemma storeTransform_physics (t' : Transform) (ps : list WithSprites.Part) :
  map physics_part (WithSprites.storeTransform t' ps)
  = storeTransform t' (map physics_part ps).
Proof.
  induction ps as [|[c|s] ps IH]; simpl; [reflexivity| |rewrite IH; reflexivity].
  destruct c; simpl; try rewrite IH; reflexivity.
Qed.

Lemma map_set_nth {A B : Type} (f : A -> B) (k : nat) (v : A) (l : list A) :
  map f (set_nth k v l) = set_nth k (f v) (map f l).
Proof.
  revert k. induction l as [|a l IH]; intros [|k]; simpl; try reflexivity.
  rewrite IH. reflexivity.
Qed.

(** [RigidBody.update] does to the entity what it does to the entity
    without its sprites. *)
Lemma RigidBody_update_physics (k : nat) (this : RigidBody) (go : WithSprites.t) (dt : R) :
  physics (WithSprites.RigidBody_update k this go dt)
  = RigidBody_update k this (physics go) dt.
Proof.
  unfold WithSprites.RigidBody_update, RigidBody_update, getTransform, physics.
  simpl. rewrite findTransform_physics.
  destruct (WithSprites.findTransform (WithSprites.parts go)) as [t|]; [|reflexivity].
  destruct (integrate this t dt) as [this' t']. simpl.
  rewrite map_set_nth, storeTransform_physics. reflexivity.
Qed.

Lemma kept_refl (o : option WithSprites.Part) : kept o o.
Proof. destruct o as [[c|s]|]; simpl; auto. Qed.

Lemma kept_trans (a b c : option WithSprites.Part) : kept a b -> kept b c -> kept a c.
Proof.
  destruct a as [[?|?]|], b as [[?|?]|], c as [[?|?]|]; simpl; try tauto; congruence.
Qed.

Lemma kept_stepped (fuel : nat) (dt : R) (a b c : option WithSprites.Part) :
  kept a b -> stepped fuel dt b c -> stepped fuel dt a c.
Proof.
  destruct a as [[?|?]|], b as [[?|?]|], c as [[?|?]|]; simpl; try tauto.
  intros ->; auto.
Qed.

Lemma stepped_kept (fuel : nat) (dt : R) (a b c : option WithSprites.Part) :
  stepped fuel dt a b -> kept b c -> stepped fuel dt a c.
Proof.
  destruct a as [[?|?]|], b as [[?|?]|], c as [[?|?]|]; simpl; try tauto.
  intros H <-; exact H.
Qed.

Lemma kept_storeTransform (t' : Transform) (ps : list WithSprites.Part) (v : nat) :
  kept (nth_error ps v) (nth_error (WithSprites.storeTransform t' ps) v).
Proof.
  revert v. induction ps as [|[c|s] ps IH]; intros [|v]; simpl; auto; try apply kept_refl.
  - destruct c; simpl; auto.
  - destruct c; simpl; auto; apply kept_refl.
Qed.

Lemma kept_set_nth_plain (ps : list WithSprites.Part) (k v : nat) (c c' : Component) :
  nth_error ps k = Some (WithSprites.Plain c) ->
  kept (nth_error ps v) (nth_error (set_nth k (WithSprites.Plain c') ps) v).
Proof.
  intros Hk. destruct (Nat.eq_dec k v) as [<-|Hne].
  - rewrite (nth_error_set_nth ps k _ _ Hk), Hk. exact I.
  - rewrite nth_error_set_nth_other by exact Hne. apply kept_refl.
Qed.

Lemma kept_plain_stepped (fuel : nat) (dt : R) (c : Component)
      (o : option WithSprites.Part) :
  kept (Some (WithSprites.Plain c)) o -> stepped fuel dt (Some (WithSprites.Plain c)) o.
Proof. destruct o as [[?|?]|]; simpl; auto. Qed.

Lemma nth_error_physics (ps : list WithSprites.Part) (k : nat) :
  nth_error (map physics_part ps) k = option_map physics_part (nth_error ps k).
Proof.
  revert k. induction ps as [|p ps IH]; intros [|k]; simpl; auto.
Qed.

(** One component's [update], when it returns: it does not throw, leaves
    the plugins and the other sprites, and does to the rest of the entity
    what [Component_update] does to the entity without its sprites. *)
Lemma Part_update_inv (fuel i k : nat) (p : WithSprites.Part) (go : WithSprites.t)
      (dt : R) (m : M WithSprites.t) :
  nth_error (WithSprites.parts go) k = Some p ->
  WithSprites.Part_update fuel i k p go dt = Some m ->
  exists go',
    m = (log_of m, Returns go')
    /\ WithSprites.plugins go' = WithSprites.plugins go
    /\ stepped fuel dt (nth_error (WithSprites.parts go) k)
         (nth_error (WithSprites.parts go') k)
    /\ (forall v, v <> k ->
          kept (nth_error (WithSprites.parts go) v) (nth_error (WithSprites.parts go') v))
    /\ match nth_error (components (physics go)) k with
       | Some c => Component_update i k c (physics go) dt
       | None => ret (physics go)
       end = (log_of m, Returns (physics go')).
Proof.
  intros Hk Hrun.
  assert (Hphys : nth_error (components (physics go)) k = Some (physics_part p)).
  { unfold physics; simpl. rewrite nth_error_physics, Hk. reflexivity. }
  rewrite Hphys.
  assert (Hplain : forall c, p = WithSprites.Plain c -> m = ret go ->
            (forall rb, c <> CRigidBody rb) ->
            exists go',
              m = (log_of m, Returns go')
              /\ WithSprites.plugins go' = WithSprites.plugins go
              /\ stepped fuel dt (nth_error (WithSprites.parts go) k)
                   (nth_error (WithSprites.parts go') k)
              /\ (forall v, v <> k ->
                    kept (nth_error (WithSprites.parts go) v)
                         (nth_error (WithSprites.parts go') v))
              /\ Component_update i k (physics_part p) (physics go) dt
                 = (log_of m, Returns (physics go'))).
  { intros c -> -> Hc. exists go. split; [reflexivity|]. split; [reflexivity|].
    split; [rewrite Hk; exact I|]. split; [intros; apply kept_refl|].
    simpl. destruct c; try reflexivity. exfalso; eapply Hc; reflexivity. }
  destruct p as [c|s].
  - destruct c as [t| this | col |];
      try (simpl in Hrun; injection Hrun as <-;
           eapply Hplain; [reflexivity | reflexivity | discriminate]).
    simpl in Hrun. injection Hrun as <-.
    exists (WithSprites.RigidBody_update k this go dt). simpl.
    split; [reflexivity|].
    assert (Hkept : forall v,
              kept (nth_error (WithSprites.parts go) v)
                   (nth_error (WithSprites.parts
                                 (WithSprites.RigidBody_update k this go dt)) v)).
    { intros v. unfold WithSprites.RigidBody_update.
      destruct (WithSprites.findTransform (WithSprites.parts go)) as [t|];
        [|apply kept_refl].
      destruct (integrate this t dt) as [this' t']. simpl.
      eapply kept_trans; [apply (kept_storeTransform t')|].
      pose proof (kept_storeTransform t' (WithSprites.parts go) k) as Hst.
      rewrite Hk in Hst.
      destruct (nth_error (WithSprites.storeTransform t' (WithSprites.parts go)) k)
        as [[c|s]|] eqn:Est; try contradiction.
      eapply kept_set_nth_plain; exact Est. }
    split.
    { unfold WithSprites.RigidBody_update.
      destruct (WithSprites.findTransform (WithSprites.parts go)); [|reflexivity].
      destruct (integrate this _ dt); reflexivity. }
    split.
    { pose proof (Hkept k) as H. rewrite Hk in H |- *.
      apply kept_plain_stepped; exact H. }
    split; [intros v _; apply Hkept|].
    rewrite RigidBody_update_physics. reflexivity.
  - simpl in Hrun.
    destruct (SpriteRenderer.update fuel s dt) as [s'|] eqn:Es; [|discriminate].
    injection Hrun as <-.
    exists (WithSprites.mk (set_nth k (WithSprites.Sprite s') (WithSprites.parts go))
              (WithSprites.plugins go)). simpl.
    split; [reflexivity|]. split; [reflexivity|].
    split; [rewrite (nth_error_set_nth _ k _ _ Hk), Hk; exact Es|].
    split; [intros v Hv; rewrite nth_error_set_nth_other by auto; apply kept_refl|].
    unfold ret, physics. simpl.
    rewrite map_set_nth. simpl. rewrite set_nth_id; [reflexivity|].
    rewrite nth_error_physics, Hk. reflexivity.
Qed.

(** The loop over the components, when it returns. *)
Lemma parts_loop_inv (fuel i : nat) (dt : R) (n : nat) :
  forall (lo : nat) (go : WithSprites.t) (m : M WithSprites.t),
    WithSprites.foldO
      (fun k go =>
         match nth_error (WithSprites.parts go) k with
         | Some p => WithSprites.Part_update fuel i k p go dt
         | None => Some (ret go)
         end) (seq lo n) go = Some m ->
    exists go',
      m = (log_of m, Returns go')
      /\ WithSprites.plugins go' = WithSprites.plugins go
      /\ (forall v, (lo <= v < lo + n)%nat ->
            stepped fuel dt (nth_error (WithSprites.parts go) v)
              (nth_error (WithSprites.parts go') v))
      /\ (forall v, (v < lo \/ lo + n <= v)%nat ->
            kept (nth_error (WithSprites.parts go) v)
              (nth_error (WithSprites.parts go') v))
      /\ foldM (fun k go =>
                  match nth_error (components go) k with
                  | Some c => Component_update i k c go dt
                  | None => ret go
                  end) (seq lo n) (physics go)
         = (log_of m, Returns (physics go')).
Proof.
  induction n as [|n IH]; intros lo go m Hrun.
  - simpl in Hrun. injection Hrun as <-. exists go. simpl.
    split; [reflexivity|]. split; [reflexivity|].
    split; [intros v Hv; lia|]. split; [intros; apply kept_refl | reflexivity].
  - simpl seq in *. simpl WithSprites.foldO in Hrun.
    change (foldM ?b (lo :: ?l) ?s) with (bind (b lo s) (fun s' => foldM b l s')).
    cbv beta.
    assert (Hstep : exists m1 go1,
              match nth_error (WithSprites.parts go) lo with
              | Some p => WithSprites.Part_update fuel i lo p go dt
              | None => Some (ret go)
              end = Some m1
              /\ m1 = (log_of m1, Returns go1)
              /\ WithSprites.plugins go1 = WithSprites.plugins go
              /\ stepped fuel dt (nth_error (WithSprites.parts go) lo)
                   (nth_error (WithSprites.parts go1) lo)
              /\ (forall v, v <> lo ->
                    kept (nth_error (WithSprites.parts go) v)
                         (nth_error (WithSprites.parts go1) v))
              /\ match nth_error (components (physics go)) lo with
                 | Some c => Component_update i lo c (physics go) dt
                 | None => ret (physics go)
                 end = (log_of m1, Returns (physics go1))).
    { destruct (nth_error (WithSprites.parts go) lo) as [p|] eqn:Ep.
      - destruct (WithSprites.Part_update fuel i lo p go dt) as [m1|] eqn:Em1;
          [|discriminate].
        destruct (Part_update_inv fuel i lo p go dt m1 Ep Em1)
          as (go1 & H1 & H2 & H3 & H4 & H5).
        exists m1, go1. rewrite Ep in H3. auto 10.
      - exists (ret go), go. split; [reflexivity|]. split; [reflexivity|].
        split; [reflexivity|]. split; [rewrite Ep; exact I|].
        split; [intros; apply kept_refl|].
        unfold physics at 1; simpl. rewrite nth_error_physics, Ep. reflexivity. }
    destruct Hstep as (m1 & go1 & Hm1 & Hm1' & Hpl1 & Hst1 & Hk1 & Hsim1).
    rewrite Hm1, Hm1' in Hrun. simpl in Hrun.
    destruct (WithSprites.foldO _ (seq (S lo) n) go1) as [[l2 r2]|] eqn:Erest;
      [|discriminate].
    injection Hrun as <-.
    destruct (IH (S lo) go1 (l2, r2) Erest) as (go' & Hr2 & Hpl & Hst & Hk & Hsim).
    simpl in Hr2. injection Hr2 as ->.
    exists go'. simpl.
    split; [reflexivity|]. split; [congruence|].
    split; [|split].
    + intros v Hv. destruct (Nat.eq_dec v lo) as [->|Hne].
      * eapply stepped_kept; [exact Hst1 | apply Hk; lia].
      * eapply kept_stepped; [apply Hk1; exact Hne | apply Hst; lia].
    + intros v Hv. eapply kept_trans; [apply Hk1; lia | apply Hk; lia].
    + change (map physics_part (WithSprites.parts go)) with (components (physics go)).
      rewrite Hsim1. unfold bind. rewrite Hsim. reflexivity.
Qed.

Lemma plugins_loop_clean {S : Type} (ps : list Plugin) (s : S) :
  ~ In CollisionSystem ps ->
  foldM (fun p s => match p with
                    | BasePlugin => ret s
                    | CollisionSystem => throw
                    end) ps s = ret s.
Proof.
  intros H. apply foldM_id. intros p Hp.
  destruct p; [reflexivity | contradiction].
Qed.

Lemma plugins_loop_log {S : Type} (ps : list Plugin) (s : S) :
  log_of (foldM (fun p s => match p with
                            | BasePlugin => ret s
                            | CollisionSystem => throw
                            end) ps s) = [].
Proof.
  revert s. induction ps as [|p ps IH]; intros s; [reflexivity|].
  simpl foldM. rewrite log_of_bind. destruct p; simpl; [apply IH | reflexivity].
Qed.

(** An update of the entity that comes back has taken every sprite through
    its own [update], and has logged what [GameObject_update] logs for the
    entity without its sprites; if no resolver is attached to the entity it
    returns, with the physics components that [GameObject_update] returns. *)
Lemma update_inv (fuel i : nat) (go : WithSprites.t) (dt : R) (m : M WithSprites.t) :
  WithSprites.update fuel i go dt = Some m ->
  exists go',
    (forall v, stepped fuel dt (nth_error (WithSprites.parts go) v)
                 (nth_error (WithSprites.parts go') v))
    /\ WithSprites.plugins go' = WithSprites.plugins go
    /\ log_of m = log_of (GameObject_update i (physics go) dt)
    /\ (~ In CollisionSystem (WithSprites.plugins go) ->
        m = (log_of m, Returns go')
        /\ outcome_of (GameObject_update i (physics go) dt) = Returns (physics go')).
Proof.
  unfold WithSprites.update. intros Hrun.
  destruct (WithSprites.foldO _ (seq 0 (length (WithSprites.parts go))) go)
    as [m1|] eqn:Eloop; [|discriminate].
  destruct (parts_loop_inv fuel i dt _ 0 go m1 Eloop)
    as (go' & Hm1 & Hpl & Hst & Hk & Hsim).
  rewrite Hm1 in Hrun. simpl in Hrun.
  exists go'. split; [|split; [exact Hpl|]].
  { intros v. destruct (Nat.lt_ge_cases v (length (WithSprites.parts go))) as [Hlt|Hge].
    - apply Hst. lia.
    - pose proof (Hk v (or_intror Hge)) as H.
      assert (Hnone : nth_error (WithSprites.parts go) v = None)
        by (apply nth_error_None; exact Hge).
      rewrite Hnone in H |- *.
      destruct (nth_error (WithSprites.parts go') v) as [[?|?]|]; auto. }
  assert (Hgo : GameObject_update i (physics go) dt
                = (s <- (log_of m1, Returns (physics go')) ;;
                   foldM (fun p s => match p with
                                     | BasePlugin => ret s
                                     | CollisionSystem => throw
                                     end) (go_plugins s) s)).
  { unfold GameObject_update, for_range. rewrite Nat.sub_0_r.
    replace (length (components (physics go))) with (length (WithSprites.parts go))
      by (unfold physics; simpl; rewrite length_map; reflexivity).
    rewrite Hsim. reflexivity. }
  destruct (foldM _ (WithSprites.plugins go') go') as [l2 r2] eqn:Epl.
  injection Hrun as <-.
  assert (Hl2 : l2 = []).
  { pose proof (plugins_loop_log (WithSprites.plugins go') go') as H.
    rewrite Epl in H. exact H. }
  subst l2. rewrite app_nil_r.
  split.
  - rewrite Hgo, log_of_bind.
    change (outcome_of (log_of m1, Returns (physics go'))) with (Returns (physics go')).
    cbv beta iota.
    rewrite entity_plugins_log, app_nil_r. reflexivity.
  - intros Hclean. rewrite <- Hpl in Hclean.
    rewrite (plugins_loop_clean _ go' Hclean) in Epl. injection Epl as <-.
    split; [reflexivity|].
    rewrite Hgo, outcome_of_bind.
    change (outcome_of (log_of m1, Returns (physics go'))) with (Returns (physics go')).
    cbv beta iota.
    change (go_plugins (physics go')) with (WithSprites.plugins go').
    rewrite (entity_plugins_clean _ (physics go') Hclean). reflexivity.
Qed.

(** When every sprite of the entity leaves its loop within [fuel]
    iterations, the update of the entity comes back. *)
Lemma parts_loop_returns (fuel i : nat) (dt : R) (n : nat) :
  forall (lo : nat) (go : WithSprites.t),
    (forall v s, (lo <= v)%nat ->
       nth_error (WithSprites.parts go) v = Some (WithSprites.Sprite s) ->
       SpriteRenderer.update fuel s dt <> None) ->
    WithSprites.foldO
      (fun k go =>
         match nth_error (WithSprites.parts go) k with
         | Some p => WithSprites.Part_update fuel i k p go dt
         | None => Some (ret go)
         end) (seq lo n) go <> None.
Proof.
  induction n as [|n IH]; intros lo go Hs; [discriminate|].
  simpl seq. simpl WithSprites.foldO.
  destruct (nth_error (WithSprites.parts go) lo) as [p|] eqn:Ep.
  - destruct (WithSprites.Part_update fuel i lo p go dt) as [m1|] eqn:Em1.
    + destruct (Part_update_inv fuel i lo p go dt m1 Ep Em1)
        as (go1 & H1 & _ & _ & Hk & _).
      rewrite H1. simpl.
      assert (Hrest := IH (S lo) go1).
      destruct (WithSprites.foldO _ (seq (S lo) n) go1) as [[l2 r2]|];
        [discriminate|].
      exfalso. apply Hrest; [|reflexivity].
      intros v s Hv Hnth. apply (Hs v s); [lia|].
      pose proof (Hk v ltac:(lia)) as H. rewrite Hnth in H.
      destruct (nth_error (WithSprites.parts go) v) as [[?|?]|];
        try contradiction. simpl in H. congruence.
    + exfalso. destruct p as [c|s]; simpl in Em1.
      * destruct c; discriminate.
      * apply (Hs lo s (le_n lo) Ep).
        destruct (SpriteRenderer.update fuel s dt); [discriminate | reflexivity].
  - simpl. assert (Hrest := IH (S lo) go).
    destruct (WithSprites.foldO _ (seq (S lo) n) go) as [[l2 r2]|]; [discriminate|].
    exfalso. apply Hrest; [|reflexivity].
    intros v s Hv. apply Hs. lia.
Qed.

Lemma WithSprites_update_returns (fuel i : nat) (go : WithSprites.t) (dt : R) :
  (forall s, In (WithSprites.Sprite s) (WithSprites.parts go) ->
             SpriteRenderer.update fuel s dt <> None) ->
  WithSprites.update fuel i go dt <> None.
Proof.
  intros Hs. unfold WithSprites.update.
  pose proof (parts_loop_returns fuel i dt (length (WithSprites.parts go)) 0 go) as H.
  destruct (WithSprites.foldO _ (seq 0 (length (WithSprites.parts go))) go)
    as [m1|] eqn:Eloop.
  - destruct (parts_loop_inv fuel i dt _ 0 go m1 Eloop) as (go' & -> & _).
    simpl. destruct (foldM _ (WithSprites.plugins go') go'); discriminate.
  - exfalso. apply H; [|reflexivity].
    intros v s _ Hnth. apply Hs. eapply nth_error_In; exact Hnth.
Qed.

Lemma findRigidBody_physics_none (ps : list WithSprites.Part) :
  (forall rb, ~ In (WithSprites.Plain (CRigidBody rb)) ps) ->
  findRigidBody (map physics_part ps) = None.
Proof.
  induction ps as [|p ps IH]; intros H; [reflexivity|].
  assert (IH' : findRigidBody (map physics_part ps) = None).
  { apply IH. intros rb Hin. apply (H rb). right; exact Hin. }
  destruct p as [c|s]; simpl; [|exact IH'].
  destruct c; try exact IH'.
  exfalso. eapply H. left; reflexivity.
Qed.

Lemma filter_is_rigid_physics (ps : list WithSprites.Part) :
  length (filter is_rigid (map physics_part ps))
  = length (filter is_rigid_part ps).
Proof.
  induction ps as [|[c|s] ps IH]; simpl; auto.
  destruct c; simpl; auto.
Qed.

(** X8. A sprite sheet with a negative [frameSpeed] freezes its entity: if
    one of the components is a loaded sheet of more than one frame whose
    accumulator has reached the (negative) frame duration, then
    [GameObject.update] never comes back, whatever the other components
    and the plugins are and however many iterations it is given.  The
    components after the sprite are not updated and a [CollisionSystem]
    attached to the entity is not reached (so the update does not throw
    either). *)
Theorem WithSprites_update_hangs
        (i : nat) (go : WithSprites.t) (s : SpriteRenderer.t) (dt : R) :
  In (WithSprites.Sprite s) (WithSprites.parts go) ->
  SpriteRenderer.frameSpeed s < 0 ->
  1 < SpriteRenderer.frameCount s ->
  SpriteRenderer.loaded s = true ->
  SpriteRenderer.accumulator s + dt >= 1 / SpriteRenderer.frameSpeed s ->
  forall fuel, WithSprites.update fuel i go dt = None.
Proof.
  intros Hin Hs Hc Hl Hacc fuel.
  destruct (WithSprites.update fuel i go dt) as [m|] eqn:Erun; [exfalso|reflexivity].
  destruct (update_inv fuel i go dt m Erun) as (go' & Hst & _).
  destruct (In_nth_error _ _ Hin) as [v Hv].
  specialize (Hst v). rewrite Hv in Hst.
  destruct (nth_error (WithSprites.parts go') v) as [[c|s']|]; try contradiction.
  simpl in Hst. unfold SpriteRenderer.update in Hst.
  destruct (Rgt_dec (SpriteRenderer.frameCount s) 1); [|lra].
  rewrite Hl in Hst.
  destruct (Req_dec_T (SpriteRenderer.frameSpeed s) 0); [lra|].
  rewrite advance_hangs in Hst; [discriminate | | exact Hacc].
  unfold Rdiv. rewrite Rmult_1_l. apply Rinv_lt_0_compat. exact Hs.
Qed.

Lemma WithSprites_update_hangs_witness :
  WithSprites.update 1000 0 frozen_ball (1 / 60) = None.
Proof.
  apply (WithSprites_update_hangs 0 frozen_ball reversed_sprite (1 / 60)).
  - simpl; auto.
  - simpl; lra.
  - simpl; lra.
  - reflexivity.
  - simpl; lra.
Defined.

(** X9. An entity without a RigidBody and without a resolver of its own is
    static: every [GameObject.update] of it that returns has integrated
    nothing and returns it with its Transform, its Collider and its other
    components that are not sprites as they were; its sprites, and nothing
    else, have gone through their own [update]. *)
Theorem WithSprites_update_static
        (fuel i : nat) (go : WithSprites.t) (dt : R) (m : M WithSprites.t) :
  (forall rb, ~ In (WithSprites.Plain (CRigidBody rb)) (WithSprites.parts go)) ->
  ~ In CollisionSystem (WithSprites.plugins go) ->
  WithSprites.update fuel i go dt = Some m ->
  exists go',
    m = ([], Returns go')
    /\ physics go' = physics go
    /\ forall v, stepped fuel dt (nth_error (WithSprites.parts go) v)
                   (nth_error (WithSprites.parts go') v).
Proof.
  intros Hrb Hpl Hrun.
  destruct (update_inv fuel i go dt m Hrun) as (go' & Hst & _ & Hlog & Hret).
  destruct (Hret Hpl) as [Hm Hout].
  assert (Hstatic : GameObject_update i (physics go) dt = ([], Returns (physics go))).
  { apply GameObject_update_static; [|exact Hpl].
    apply findRigidBody_physics_none; exact Hrb. }
  rewrite Hstatic in Hlog, Hout. simpl in Hlog, Hout.
  exists go'. split; [rewrite Hm, Hlog; reflexivity|].
  split; [congruence | exact Hst].
Qed.

Lemma animated_ghost_update :
  WithSprites.update 3 0 animated_ghost (1 / 4) = Some ([], Returns animated_ghost_after).
Proof.
  unfold WithSprites.update, animated_ghost.
  cbn -[SpriteRenderer.update]. rewrite walk_sprite_update. reflexivity.
Qed.

Lemma WithSprites_update_static_witness :
  exists go',
    (@nil Event, Returns animated_ghost_after) = ([], Returns go')
    /\ physics go' = physics animated_ghost
    /\ forall v, stepped 3 (1 / 4) (nth_error (WithSprites.parts animated_ghost) v)
                   (nth_error (WithSprites.parts go') v).
Proof.
  apply (WithSprites_update_static 3 0 animated_ghost (1 / 4)
           ([], Returns animated_ghost_after)).
  - intros rb [H|[H|[H|H]]]; try discriminate; exact H.
  - simpl. intros [H|H]; [discriminate | exact H].
  - exact animated_ghost_update.
Defined.

(** X10. For an entity whose only RigidBody sits at index [length pre] of
    its components (whatever the other components are, sprites included,
    in whatever order) and which has no resolver of its own, every
    [GameObject.update] that returns has made one call of
    [RigidBody.update], on that body: the components that are not sprites
    are those this one call leaves, and every sprite has gone through its
    own [update]. *)
Theorem WithSprites_update_single_body
        (fuel i : nat) (go : WithSprites.t) (pre post : list WithSprites.Part)
        (this : RigidBody) (dt : R) (m : M WithSprites.t) :
  WithSprites.parts go = pre ++ WithSprites.Plain (CRigidBody this) :: post ->
  (forall rb, ~ In (WithSprites.Plain (CRigidBody rb)) pre) ->
  (forall rb, ~ In (WithSprites.Plain (CRigidBody rb)) post) ->
  ~ In CollisionSystem (WithSprites.plugins go) ->
  WithSprites.update fuel i go dt = Some m ->
  exists go',
    m = ([EIntegrate i], Returns go')
    /\ physics go' = RigidBody_update (length pre) this (physics go) dt
    /\ forall v, stepped fuel dt (nth_error (WithSprites.parts go) v)
                   (nth_error (WithSprites.parts go') v).
Proof.
  intros Hps Hpre Hpost Hpl Hrun.
  destruct (update_inv fuel i go dt m Hrun) as (go' & Hst & _ & Hlog & Hret).
  destruct (Hret Hpl) as [Hm Hout].
  assert (Hone : GameObject_update i (physics go) dt
                 = ([EIntegrate i],
                    Returns (RigidBody_update (length (map physics_part pre)) this
                               (physics go) dt))).
  { apply (GameObject_update_single_body i (physics go) (map physics_part pre)
             (map physics_part post) this dt).
    - unfold physics; simpl. rewrite Hps, map_app. reflexivity.
    - apply findRigidBody_physics_none; exact Hpre.
    - apply findRigidBody_physics_none; exact Hpost.
    - exact Hpl. }
  rewrite length_map in Hone.
  rewrite Hone in Hlog, Hout. simpl in Hlog, Hout.
  exists go'. split; [rewrite Hm, Hlog; reflexivity|].
  split; [congruence | exact Hst].
Qed.

Lemma animated_ball_update :
  WithSprites.update 3 0 animated_ball (1 / 4)
  = Some ([EIntegrate 0], Returns animated_ball_after).
Proof.
  unfold WithSprites.update, animated_ball.
  cbn -[SpriteRenderer.update integrate]. rewrite walk_sprite_update.
  cbn -[integrate]. unfold WithSprites.RigidBody_update.
  cbn -[integrate].
  rewrite (surjective_pairing (integrate ball_a_rigid ball_a_transform (1 / 4))).
  reflexivity.
Qed.

Lemma WithSprites_update_single_body_witness :
  exists go',
    ([EIntegrate 0], Returns animated_ball_after) = ([EIntegrate 0], Returns go')
    /\ physics go'
       = RigidBody_update
           (length [WithSprites.Plain (CTransform ball_a_transform);
                    WithSprites.Sprite walk_sprite])
           ball_a_rigid (physics animated_ball) (1 / 4)
    /\ forall v, stepped 3 (1 / 4) (nth_error (WithSprites.parts animated_ball) v)
                   (nth_error (WithSprites.parts go') v).
Proof.
  apply (WithSprites_update_single_body 3 0 animated_ball
           [WithSprites.Plain (CTransform ball_a_transform);
            WithSprites.Sprite walk_sprite]
           [WithSprites.Plain (CCollider ball_collider)]
           ball_a_rigid (1 / 4) ([EIntegrate 0], Returns animated_ball_after)).
  - reflexivity.
  - intros rb [H|[H|H]]; try discriminate; exact H.
  - intros rb [H|H]; try discriminate; exact H.
  - simpl. intros [H|H]; [discriminate | exact H].
  - exact animated_ball_update.
Defined.

(** X18. Every [GameObject.update] that comes back, by a return or by a
    throw of a plugin, has called [RigidBody.update] once for every
    RigidBody component of the entity, duplicates included, and has
    integrated nothing else: an entity that was given two RigidBodies
    integrates twice per tick, sprites or not. *)
Theorem WithSprites_update_integrations
        (fuel i : nat) (go : WithSprites.t) (dt : R) (m : M WithSprites.t) :
  WithSprites.update fuel i go dt = Some m ->
  log_of m
  = repeat (EIntegrate i) (length (filter is_rigid_part (WithSprites.parts go))).
Proof.
  intros Hrun.
  destruct (update_inv fuel i go dt m Hrun) as (go' & _ & _ & Hlog & _).
  rewrite Hlog, GameObject_update_integrations.
  unfold physics; simpl. rewrite filter_is_rigid_physics. reflexivity.
Qed.

Lemma WithSprites_update_integrations_witness :
  log_of ([EIntegrate 0], Returns animated_ball_after)
  = repeat (EIntegrate 0)
      (length (filter is_rigid_part (WithSprites.parts animated_ball))).
Proof.
  apply (WithSprites_update_integrations 3 0 animated_ball (1 / 4)
           ([EIntegrate 0], Returns animated_ball_after)).
  exact animated_ball_update.
Defined.
